(** * A shallow embedding of [hopscotch_map] (src/hopscotch_map.h)

    The class template [hopscotch_map<Key, T, Hash, KeyEqual, Allocator,
    NeighborhoodSize, GrowthFactor>] is modelled with

    - [Key], [T], the hash functor [m_hash], the equality functor
      [m_key_equal] and [NeighborhoodSize] as the fields of the class
      [hopscotch_params];
    - [GrowthFactor] at its default [std::ratio<2, 1>], for which
      [USE_POWER_OF_TWO_MOD] is [true] and
      [REHASH_SIZE_MULTIPLICATION_FACTOR] is [2];
    - the trait [std::is_nothrow_move_constructible<value_type>], which
      selects one of the two overloads of [rehash_internal], as the
      field [nothrow_move_constructible].

    Numbers.  A bucket's [m_neighborhood_infos] and the hash values are
    fixed-width unsigned integers: they are modelled in [Z], with the
    truncation of every [static_cast<neighborhood_bitmap>] and of the
    [std::size_t] result of the hash written out.  Indices into
    [m_buckets] and [m_overflow_elements], and the counters
    [m_nb_elements] and [m_load_threshold], are [std::size_t] values that
    count or address allocated objects; they are modelled as [nat]
    (allocation never fails in the model and these numbers never wrap).
    The [float] [m_max_load_factor] is modelled by the rational it denotes:
    with a power-of-two bucket count the product
    [bucket_count()*m_max_load_factor] is exact, and the quotients
    [size()/max_load_factor()] of [rehash] and [reserve] are taken exactly.

    Undefined behaviour (reading the storage of an empty bucket, indexing
    outside a container, dereferencing an iterator that points to
    nothing) is the failure [undefined_behaviour] of the monad [result].
    The [assert]s of the source are compiled out, as with [NDEBUG]. *)

From Stdlib Require Import ZArith QArith Qround Lia.
From stdpp Require Import base tactics option list numbers.

Local Open Scope Z_scope.
Local Open Scope nat_scope.

(** ** Results of operations *)

Inductive failure : Type :=
  | undefined_behaviour
  | out_of_fuel
  | out_of_range.

Inductive result (A : Type) : Type :=
  | Ok (a : A)
  | Fail (e : failure).
Arguments Ok {A} a.
Arguments Fail {A} e.

#[global] Instance result_ret : MRet result := fun A a => Ok a.
#[global] Instance result_bind : MBind result := fun A B f r =>
  match r with
  | Ok a => f a
  | Fail e => Fail e
  end.

Definition of_option {A} (o : option A) : result A :=
  match o with
  | Some a => Ok a
  | None => Fail undefined_behaviour
  end.

(** ** Iterators

    A [hopscotch_iterator] is the triple of the source; an iterator into
    [m_buckets] or [m_overflow_elements] is the index it points to, the
    past-the-end iterator being the length. *)

Record hopscotch_iterator : Type := {
  m_buckets_iterator : nat;
  m_buckets_end_iterator : nat;
  m_overflow_iterator : nat
}.

Definition iterator_eqb (lhs rhs : hopscotch_iterator) : bool :=
  (m_buckets_iterator lhs =? m_buckets_iterator rhs) &&
  (m_buckets_end_iterator lhs =? m_buckets_end_iterator rhs) &&
  (m_overflow_iterator lhs =? m_overflow_iterator rhs).

(** ** Template parameters

    [Key], [T], [Hash], [KeyEqual] and [NeighborhoodSize] of the class
    template, the value [T()] used by [operator[]], and the trait that
    selects the overload of [rehash_internal]. *)

Class hopscotch_params : Type := {
  Key : Type;
  T : Type;
  T_default : T;
  m_hash : Key → Z;
  m_key_equal : Key → Key → bool;
  NeighborhoodSize : nat;
  nothrow_move_constructible : bool
}.

Section hopscotch_map.

Context {P : hopscotch_params}.

Definition value_type : Type := Key * T.

Definition NB_RESERVED_BITS_IN_NEIGHBORHOOD : nat := 2.
Definition MAX_NEIGHBORHOOD_SIZE : nat := 64 - NB_RESERVED_BITS_IN_NEIGHBORHOOD.
Definition MAX_LINEAR_PROBE_SEARCH_EMPTY_BUCKET : nat := 4096.
Definition DEFAULT_INIT_BUCKETS_SIZE : nat := 16.
(** [0.9f], the nearest [float] to 0.9. *)
Definition DEFAULT_MAX_LOAD_FACTOR : Q := 15099494 # 16777216.
Definition REHASH_SIZE_MULTIPLICATION_FACTOR : nat := 2.
Definition USE_POWER_OF_TWO_MOD : bool := true.

(** [smallest_type_for_min_bits<NeighborhoodSize + 2>::type]: the number
    of bits of [neighborhood_bitmap]. *)
Definition neighborhood_bitmap_bits : Z :=
  let MinBits := NeighborhoodSize + NB_RESERVED_BITS_IN_NEIGHBORHOOD in
  if MinBits <=? 8 then 8%Z
  else if MinBits <=? 16 then 16%Z
  else if MinBits <=? 32 then 32%Z
  else 64%Z.

(** [static_cast<neighborhood_bitmap>(x)] *)
Definition to_bitmap (x : Z) : Z := (x mod 2 ^ neighborhood_bitmap_bits)%Z.

(** The [std::size_t] returned by [m_hash(key)]. *)
Definition hash_of (key : Key) : Z := (m_hash key mod 2 ^ 64)%Z.

(** ** [hopscotch_bucket] *)

Record hopscotch_bucket : Type := {
  m_neighborhood_infos : Z;
  (** the aligned storage: [None] when no [value_type] is constructed in it *)
  m_key_value : option value_type
}.

Definition empty_bucket : hopscotch_bucket :=
  {| m_neighborhood_infos := 0; m_key_value := None |}.

Definition get_neighborhood_infos (b : hopscotch_bucket) : Z :=
  to_bitmap (Z.shiftr (m_neighborhood_infos b) (Z.of_nat NB_RESERVED_BITS_IN_NEIGHBORHOOD)).

Definition set_overflow (has_overflow : bool) (b : hopscotch_bucket) : hopscotch_bucket :=
  if has_overflow
  then {| m_neighborhood_infos := to_bitmap (Z.lor (m_neighborhood_infos b) 2);
          m_key_value := m_key_value b |}
  else {| m_neighborhood_infos := to_bitmap (Z.land (m_neighborhood_infos b) (Z.lnot 2));
          m_key_value := m_key_value b |}.

Definition has_overflow (b : hopscotch_bucket) : bool :=
  negb (Z.land (m_neighborhood_infos b) 2 =? 0)%Z.

Definition is_empty (b : hopscotch_bucket) : bool :=
  (Z.land (m_neighborhood_infos b) 1 =? 0)%Z.

Definition set_is_empty (is_empty : bool) (b : hopscotch_bucket) : hopscotch_bucket :=
  if is_empty
  then {| m_neighborhood_infos := to_bitmap (Z.land (m_neighborhood_infos b) (Z.lnot 1));
          m_key_value := m_key_value b |}
  else {| m_neighborhood_infos := to_bitmap (Z.lor (m_neighborhood_infos b) 1);
          m_key_value := m_key_value b |}.

Definition destroy_key_value (b : hopscotch_bucket) : hopscotch_bucket :=
  {| m_neighborhood_infos := m_neighborhood_infos b; m_key_value := None |}.

Definition construct_key_value (key_value : value_type) (b : hopscotch_bucket) : hopscotch_bucket :=
  {| m_neighborhood_infos := m_neighborhood_infos b; m_key_value := Some key_value |}.

Definition set_key_value (key_value : value_type) (b : hopscotch_bucket) : hopscotch_bucket :=
  if negb (is_empty b)
  then construct_key_value key_value (destroy_key_value b)
  else set_is_empty false (construct_key_value key_value b).

Definition remove_key_value (b : hopscotch_bucket) : hopscotch_bucket :=
  if negb (is_empty b)
  then set_is_empty true (destroy_key_value b)
  else b.

Definition toggle_neighbor_presence (ineighbor : nat) (b : hopscotch_bucket) : hopscotch_bucket :=
  {| m_neighborhood_infos :=
       to_bitmap (Z.lxor (m_neighborhood_infos b)
                         (Z.shiftl 1 (Z.of_nat (ineighbor + NB_RESERVED_BITS_IN_NEIGHBORHOOD))));
     m_key_value := m_key_value b |}.

Definition check_neighbor_presence (ineighbor : nat) (b : hopscotch_bucket) : bool :=
  (Z.land (Z.shiftr (m_neighborhood_infos b)
                    (Z.of_nat (ineighbor + NB_RESERVED_BITS_IN_NEIGHBORHOOD))) 1 =? 1)%Z.

(** Reading an empty bucket's storage is undefined. *)
Definition get_key_value (b : hopscotch_bucket) : result value_type :=
  of_option (m_key_value b).

(** [b.swap_key_value_with_empty_bucket(empty_bucket)]: the pair
    ([b], [empty_bucket]) afterwards. *)
Definition swap_key_value_with_empty_bucket (b empty_bucket : hopscotch_bucket)
  : hopscotch_bucket * hopscotch_bucket :=
  if negb (is_empty b)
  then (set_is_empty true (destroy_key_value b),
        set_is_empty false
          {| m_neighborhood_infos := m_neighborhood_infos empty_bucket;
             m_key_value := m_key_value b |})
  else (b, empty_bucket).

Definition bucket_clear (b : hopscotch_bucket) : hopscotch_bucket :=
  {| m_neighborhood_infos := 0;
     m_key_value := m_key_value (if negb (is_empty b) then destroy_key_value b else b) |}.

(** ** The container *)

Record hopscotch_map : Type := {
  m_buckets : list hopscotch_bucket;
  m_overflow_elements : list value_type;
  m_nb_elements : nat;
  m_max_load_factor : Q;
  m_load_threshold : nat
}.

(** [m_buckets[i]]; indexing past the end is undefined. *)
Definition bucket_at (bs : list hopscotch_bucket) (i : nat) : result hopscotch_bucket :=
  of_option (bs !! i).

(** [f(m_buckets[i])] for a member function [f] that modifies the bucket. *)
Definition modify_bucket (f : hopscotch_bucket → hopscotch_bucket) (i : nat)
    (bs : list hopscotch_bucket) : result (list hopscotch_bucket) :=
  if i <? length bs then Ok (alter f i bs) else Fail undefined_behaviour.

Definition with_buckets (m : hopscotch_map) (bs : list hopscotch_bucket) : hopscotch_map :=
  {| m_buckets := bs;
     m_overflow_elements := m_overflow_elements m;
     m_nb_elements := m_nb_elements m;
     m_max_load_factor := m_max_load_factor m;
     m_load_threshold := m_load_threshold m |}.

Definition bucket_count (m : hopscotch_map) : nat :=
  length (m_buckets m) - NeighborhoodSize + 1.

Definition size (m : hopscotch_map) : nat := m_nb_elements m.

Definition end_ (m : hopscotch_map) : hopscotch_iterator :=
  {| m_buckets_iterator := length (m_buckets m);
     m_buckets_end_iterator := length (m_buckets m);
     m_overflow_iterator := length (m_overflow_elements m) |}.

(** [static_cast<size_type>] of a non-negative floating-point value *)
Definition to_size_type (x : Q) : nat := Z.to_nat (Qfloor x).

(** [static_cast<size_type>(std::ceil(x))] *)
Definition ceil_to_size_type (x : Q) : nat := Z.to_nat (Qceiling x).

Definition max_load_factor (m : hopscotch_map) : Q := m_max_load_factor m.

Definition set_max_load_factor (ml : Q) (m : hopscotch_map) : hopscotch_map :=
  {| m_buckets := m_buckets m;
     m_overflow_elements := m_overflow_elements m;
     m_nb_elements := m_nb_elements m;
     m_max_load_factor := ml;
     m_load_threshold := to_size_type (inject_Z (Z.of_nat (bucket_count m)) * ml) |}.

Fixpoint round_up_loop (fuel power value : nat) : nat :=
  match fuel with
  | 0 => power
  | S fuel' => if power <? value then round_up_loop fuel' (power * 2) value else power
  end.

(** The loop doubles [power] at most [value] times before [power >= value]. *)
Definition round_up_to_power_of_two (value : nat) : nat := round_up_loop value 1 value.

(** The private constructor. *)
Definition hopscotch_map_new (bucket_count : nat) (max_load_factor : Q) : hopscotch_map :=
  set_max_load_factor max_load_factor
    {| m_buckets :=
         replicate ((if USE_POWER_OF_TWO_MOD then round_up_to_power_of_two bucket_count
                     else bucket_count) + NeighborhoodSize - 1) empty_bucket;
       m_overflow_elements := [];
       m_nb_elements := 0;
       m_max_load_factor := 0;
       m_load_threshold := 0 |}.

(** [explicit hopscotch_map(size_type bucket_count, ...)] *)
Definition hopscotch_map_ctor (bucket_count : nat) : hopscotch_map :=
  hopscotch_map_new bucket_count DEFAULT_MAX_LOAD_FACTOR.

Definition bucket_for_hash_nb (hash : Z) (nb_buckets : nat) : nat :=
  if USE_POWER_OF_TWO_MOD
  then Z.to_nat (Z.land hash (Z.of_nat nb_buckets - 1))
  else Z.to_nat (hash mod Z.of_nat nb_buckets).

Definition bucket_for_hash (m : hopscotch_map) (hash : Z) : nat :=
  bucket_for_hash_nb hash (bucket_count m).

Definition get_expand_size (m : hopscotch_map) : nat :=
  bucket_count m * REHASH_SIZE_MULTIPLICATION_FACTOR.

(** *** Lookup *)

(** The [while] loop of [find_in_buckets]: [xI] and [xH] are the
    iterations with [(neighborhood_infos & 1) == 1], and the tail of the
    binary numeral is [neighborhood_infos >> 1]. *)
Fixpoint find_in_buckets_loop (bs : list hopscotch_bucket) (key : Key)
    (neighborhood_infos : positive) (it_bucket : nat) : result nat :=
  match neighborhood_infos with
  | xH =>
      key_value ← bucket_at bs it_bucket ≫= get_key_value;
      if m_key_equal key_value.1 key then Ok it_bucket else Ok (length bs)
  | xI rest =>
      key_value ← bucket_at bs it_bucket ≫= get_key_value;
      if m_key_equal key_value.1 key then Ok it_bucket
      else find_in_buckets_loop bs key rest (S it_bucket)
  | xO rest => find_in_buckets_loop bs key rest (S it_bucket)
  end.

Definition find_in_buckets (m : hopscotch_map) (key : Key) (it_bucket : nat) : result nat :=
  b ← bucket_at (m_buckets m) it_bucket;
  match get_neighborhood_infos b with
  | Zpos neighborhood_infos =>
      find_in_buckets_loop (m_buckets m) key neighborhood_infos it_bucket
  | _ => Ok (length (m_buckets m))
  end.

(** [std::find_if(first, last, p)] on a list, as an index. *)
Fixpoint find_if {A} (p : A → bool) (l : list A) : nat :=
  match l with
  | [] => 0
  | x :: l' => if p x then 0 else S (find_if p l')
  end.

Definition find_internal (m : hopscotch_map) (key : Key) (it_bucket : nat)
  : result hopscotch_iterator :=
  it ← find_in_buckets m key it_bucket;
  if negb (it =? length (m_buckets m)) then
    Ok {| m_buckets_iterator := it;
          m_buckets_end_iterator := length (m_buckets m);
          m_overflow_iterator := 0 |}
  else
    b ← bucket_at (m_buckets m) it_bucket;
    if negb (has_overflow b) then Ok (end_ m)
    else Ok {| m_buckets_iterator := length (m_buckets m);
               m_buckets_end_iterator := length (m_buckets m);
               m_overflow_iterator :=
                 find_if (λ value, m_key_equal key value.1) (m_overflow_elements m) |}.

Definition find (m : hopscotch_map) (key : Key) : result hopscotch_iterator :=
  find_internal m key (bucket_for_hash m (hash_of key)).

(** [*it] *)
Definition deref (m : hopscotch_map) (it : hopscotch_iterator) : result value_type :=
  if negb (m_buckets_iterator it =? m_buckets_end_iterator it)
  then bucket_at (m_buckets m) (m_buckets_iterator it) ≫= get_key_value
  else of_option (m_overflow_elements m !! m_overflow_iterator it).

(** [at] throws [std::out_of_range] when the key is not found. *)
Definition at_ (m : hopscotch_map) (key : Key) : result T :=
  it_find ← find m key;
  if iterator_eqb it_find (end_ m) then Fail out_of_range
  else key_value ← deref m it_find; Ok key_value.2.

Definition cnt (m : hopscotch_map) (key : Key) : result nat :=
  it_find ← find m key;
  if iterator_eqb it_find (end_ m) then Ok 0 else Ok 1.

(** *** Erasure *)

Fixpoint find_in_overflow_from_bucket_loop (m : hopscotch_map)
    (l : list value_type) (it : nat) (original_bucket_for_hash : nat) : nat :=
  match l with
  | [] => it
  | key_value :: l' =>
      if bucket_for_hash m (hash_of key_value.1) =? original_bucket_for_hash then it
      else find_in_overflow_from_bucket_loop m l' (S it) original_bucket_for_hash
  end.

Definition find_in_overflow_from_bucket (m : hopscotch_map) (search_start : nat)
    (original_bucket_for_hash : nat) : nat :=
  find_in_overflow_from_bucket_loop m (drop search_start (m_overflow_elements m))
    search_start original_bucket_for_hash.

Definition erase_from_overflow (m : hopscotch_map) (pos : nat) (ibucket_for_hash : nat)
  : result (hopscotch_map * nat) :=
  if negb (pos <? length (m_overflow_elements m)) then Fail undefined_behaviour else
  let m1 := {| m_buckets := m_buckets m;
               m_overflow_elements := delete pos (m_overflow_elements m);
               m_nb_elements := m_nb_elements m - 1;
               m_max_load_factor := m_max_load_factor m;
               m_load_threshold := m_load_threshold m |} in
  if find_in_overflow_from_bucket m1 0 ibucket_for_hash =? length (m_overflow_elements m1)
  then bs ← modify_bucket (set_overflow false) ibucket_for_hash (m_buckets m1);
       Ok (with_buckets m1 bs, pos)
  else Ok (m1, pos).

Definition erase_from_bucket (m : hopscotch_map) (pos : nat) (ibucket_for_hash : nat)
  : result hopscotch_map :=
  let ibucket_for_key := pos in
  bs ← modify_bucket remove_key_value ibucket_for_key (m_buckets m);
  bs ← modify_bucket (toggle_neighbor_presence (ibucket_for_key - ibucket_for_hash))
         ibucket_for_hash bs;
  Ok {| m_buckets := bs;
        m_overflow_elements := m_overflow_elements m;
        m_nb_elements := m_nb_elements m - 1;
        m_max_load_factor := m_max_load_factor m;
        m_load_threshold := m_load_threshold m |}.

(** The linear scan of [erase(const key_type&)] over [m_overflow_elements]. *)
Fixpoint erase_overflow_scan (key : Key) (l : list value_type) (it_overflow : nat) : option nat :=
  match l with
  | [] => None
  | key_value :: l' =>
      if m_key_equal key key_value.1 then Some it_overflow
      else erase_overflow_scan key l' (S it_overflow)
  end.

(** [size_type erase(const key_type& key)] *)
Definition erase (m : hopscotch_map) (key : Key) : result (hopscotch_map * nat) :=
  let ibucket_for_hash := bucket_for_hash m (hash_of key) in
  it_find ← find_in_buckets m key ibucket_for_hash;
  if negb (it_find =? length (m_buckets m)) then
    m' ← erase_from_bucket m it_find ibucket_for_hash; Ok (m', 1)
  else
    b ← bucket_at (m_buckets m) ibucket_for_hash;
    if has_overflow b then
      match erase_overflow_scan key (m_overflow_elements m) 0 with
      | Some it_overflow =>
          r ← erase_from_overflow m it_overflow ibucket_for_hash; Ok (r.1, 1)
      | None => Ok (m, 0)
      end
    else Ok (m, 0).

(** [++it] on a bucket iterator of a [hopscotch_iterator]: the [do ... while]
    that skips empty buckets; [rest] is the part of [m_buckets] after [it]. *)
Fixpoint next_non_empty (rest : list hopscotch_bucket) (it : nat) : nat :=
  match rest with
  | [] => it
  | b :: rest' => if is_empty b then next_non_empty rest' (S it) else it
  end.

Definition iterator_incr (m : hopscotch_map) (it : hopscotch_iterator) : hopscotch_iterator :=
  if m_buckets_iterator it =? m_buckets_end_iterator it then
    {| m_buckets_iterator := m_buckets_iterator it;
       m_buckets_end_iterator := m_buckets_end_iterator it;
       m_overflow_iterator := S (m_overflow_iterator it) |}
  else
    {| m_buckets_iterator :=
         next_non_empty (drop (S (m_buckets_iterator it)) (m_buckets m))
                        (S (m_buckets_iterator it));
       m_buckets_end_iterator := m_buckets_end_iterator it;
       m_overflow_iterator := m_overflow_iterator it |}.

(** [iterator erase(const_iterator pos)] *)
Definition erase_iterator (m : hopscotch_map) (pos : hopscotch_iterator)
  : result (hopscotch_map * hopscotch_iterator) :=
  key_value ← deref m pos;
  let ibucket_for_hash := bucket_for_hash m (hash_of key_value.1) in
  if negb (m_buckets_iterator pos =? m_buckets_end_iterator pos) then
    let it_bucket := m_buckets_iterator pos in
    m' ← erase_from_bucket m it_bucket ibucket_for_hash;
    Ok (m', iterator_incr m'
              {| m_buckets_iterator := it_bucket;
                 m_buckets_end_iterator := length (m_buckets m');
                 m_overflow_iterator := 0 |})
  else
    r ← erase_from_overflow m (m_overflow_iterator pos) ibucket_for_hash;
    Ok (r.1, {| m_buckets_iterator := length (m_buckets r.1);
                m_buckets_end_iterator := length (m_buckets r.1);
                m_overflow_iterator := r.2 |}).

(** [void clear()] *)
Definition clear (m : hopscotch_map) : hopscotch_map :=
  {| m_buckets := bucket_clear <$> m_buckets m;
     m_overflow_elements := [];
     m_nb_elements := 0;
     m_max_load_factor := m_max_load_factor m;
     m_load_threshold := m_load_threshold m |}.

(** *** Insertion *)

(** The [for] loop of [find_empty_bucket], [steps] being
    [limit - ibucket_start]; the loop never indexes past [limit]. *)
Fixpoint find_empty_bucket_loop (bs : list hopscotch_bucket) (steps ibucket_start : nat) : nat :=
  match steps with
  | 0 => length bs
  | S steps' =>
      match bs !! ibucket_start with
      | Some b =>
          if is_empty b then ibucket_start
          else find_empty_bucket_loop bs steps' (S ibucket_start)
      | None => length bs
      end
  end.

Definition find_empty_bucket (m : hopscotch_map) (ibucket_start : nat) : nat :=
  let limit := min (ibucket_start + MAX_LINEAR_PROBE_SEARCH_EMPTY_BUCKET)
                   (length (m_buckets m)) in
  find_empty_bucket_loop (m_buckets m) (limit - ibucket_start) ibucket_start.

Definition insert_in_bucket (m : hopscotch_map) (key_value : value_type)
    (ibucket_empty ibucket_for_hash : nat) : result (hopscotch_map * nat) :=
  bs ← modify_bucket (set_key_value key_value) ibucket_empty (m_buckets m);
  bs ← modify_bucket (toggle_neighbor_presence (ibucket_empty - ibucket_for_hash))
         ibucket_for_hash bs;
  Ok ({| m_buckets := bs;
         m_overflow_elements := m_overflow_elements m;
         m_nb_elements := m_nb_elements m + 1;
         m_max_load_factor := m_max_load_factor m;
         m_load_threshold := m_load_threshold m |}, ibucket_empty).

(** The inner [while] loop of [swap_empty_bucket_closer]: the first
    [to_swap < ibucket_empty_in_out] whose bit is set, if any. *)
Fixpoint first_to_swap (neighborhood_infos : positive) (to_swap ibucket_empty_in_out : nat)
  : option nat :=
  if negb (to_swap <? ibucket_empty_in_out) then None else
  match neighborhood_infos with
  | xH => Some to_swap
  | xI _ => Some to_swap
  | xO rest => first_to_swap rest (S to_swap) ibucket_empty_in_out
  end.

(** The body of [if((neighborhood_infos & 1) == 1)]. *)
Definition swap_into_empty (m : hopscotch_map) (to_check to_swap ibucket_empty_in_out : nat)
  : result hopscotch_map :=
  b_swap ← bucket_at (m_buckets m) to_swap;
  b_empty ← bucket_at (m_buckets m) ibucket_empty_in_out;
  let '(b_swap', b_empty') := swap_key_value_with_empty_bucket b_swap b_empty in
  let bs := <[ibucket_empty_in_out := b_empty']> (<[to_swap := b_swap']> (m_buckets m)) in
  bs ← modify_bucket (toggle_neighbor_presence (ibucket_empty_in_out - to_check)) to_check bs;
  bs ← modify_bucket (toggle_neighbor_presence (to_swap - to_check)) to_check bs;
  Ok (with_buckets m bs).

(** The outer [for] loop, [steps] being [ibucket_empty_in_out - to_check]. *)
Fixpoint swap_empty_bucket_closer_loop (m : hopscotch_map) (steps to_check : nat)
    (ibucket_empty_in_out : nat) : result (hopscotch_map * nat * bool) :=
  match steps with
  | 0 => Ok (m, ibucket_empty_in_out, false)
  | S steps' =>
      b ← bucket_at (m_buckets m) to_check;
      match
        match get_neighborhood_infos b with
        | Zpos neighborhood_infos =>
            first_to_swap neighborhood_infos to_check ibucket_empty_in_out
        | _ => None
        end
      with
      | Some to_swap =>
          m' ← swap_into_empty m to_check to_swap ibucket_empty_in_out;
          Ok (m', to_swap, true)
      | None =>
          swap_empty_bucket_closer_loop m steps' (S to_check) ibucket_empty_in_out
      end
  end.

(** Returns the map, the new value of [ibucket_empty_in_out] and the
    [bool] of the source. *)
Definition swap_empty_bucket_closer (m : hopscotch_map) (ibucket_empty_in_out : nat)
  : result (hopscotch_map * nat * bool) :=
  let neighborhood_start := ibucket_empty_in_out - NeighborhoodSize + 1 in
  swap_empty_bucket_closer_loop m (ibucket_empty_in_out - neighborhood_start)
    neighborhood_start ibucket_empty_in_out.

(** The [for] loop of [will_neighborhood_change_on_rehash]; its condition
    fails after at most [NeighborhoodSize] iterations. *)
Fixpoint will_neighborhood_change_on_rehash_loop (m : hopscotch_map) (steps ibucket : nat)
    (ibucket_neighborhood_check : nat) : result bool :=
  match steps with
  | 0 => Ok false
  | S steps' =>
      if (ibucket <? length (m_buckets m)) &&
         (ibucket - ibucket_neighborhood_check <? NeighborhoodSize) then
        key_value ← bucket_at (m_buckets m) ibucket ≫= get_key_value;
        let hash := hash_of key_value.1 in
        if negb (bucket_for_hash m hash =? bucket_for_hash_nb hash (get_expand_size m))
        then Ok true
        else will_neighborhood_change_on_rehash_loop m steps' (S ibucket)
               ibucket_neighborhood_check
      else Ok false
  end.

Definition will_neighborhood_change_on_rehash (m : hopscotch_map)
    (ibucket_neighborhood_check : nat) : result bool :=
  will_neighborhood_change_on_rehash_loop m NeighborhoodSize ibucket_neighborhood_check
    ibucket_neighborhood_check.

(** The [do ... while(swap_empty_bucket_closer(ibucket_empty))] of
    [insert_internal].  [Some it] is the [return] inside the loop, [None]
    the exit of the loop.  Every iteration but the last lowers
    [ibucket_empty], so [gas = S ibucket_empty] suffices. *)
Fixpoint insert_do_while (gas : nat) (m : hopscotch_map) (key_value : value_type)
    (ibucket_empty ibucket_for_hash : nat)
  : result (hopscotch_map * option hopscotch_iterator) :=
  match gas with
  | 0 => Fail out_of_fuel
  | S gas' =>
      if ibucket_empty - ibucket_for_hash <? NeighborhoodSize then
        r ← insert_in_bucket m key_value ibucket_empty ibucket_for_hash;
        Ok (r.1, Some {| m_buckets_iterator := r.2;
                         m_buckets_end_iterator := length (m_buckets r.1);
                         m_overflow_iterator := 0 |})
      else
        '(m', ibucket_empty', swapped) ← swap_empty_bucket_closer m ibucket_empty;
        if swapped : bool
        then insert_do_while gas' m' key_value ibucket_empty' ibucket_for_hash
        else Ok (m', None)
  end.

Definition insert_result : Type := hopscotch_map * (hopscotch_iterator * bool).

(** [tmp_map.insert_internal(key_value, ibucket_for_hash)] for the
    occupied buckets of the old table, in the order of [m_buckets]. *)
Fixpoint rehash_buckets (ins : hopscotch_map → value_type → nat → result insert_result)
    (tmp_map : hopscotch_map) (bs : list hopscotch_bucket) : result hopscotch_map :=
  match bs with
  | [] => Ok tmp_map
  | bucket :: bs' =>
      if is_empty bucket then rehash_buckets ins tmp_map bs'
      else
        key_value ← get_key_value bucket;
        let ibucket_for_hash := bucket_for_hash tmp_map (hash_of key_value.1) in
        r ← ins tmp_map key_value ibucket_for_hash;
        rehash_buckets ins r.1 bs'
  end.

Fixpoint rehash_overflow (ins : hopscotch_map → value_type → nat → result insert_result)
    (tmp_map : hopscotch_map) (l : list value_type) : result hopscotch_map :=
  match l with
  | [] => Ok tmp_map
  | key_value :: l' =>
      let ibucket_for_hash := bucket_for_hash tmp_map (hash_of key_value.1) in
      r ← ins tmp_map key_value ibucket_for_hash;
      rehash_overflow ins r.1 l'
  end.

(** The last [for] loop of the nothrow overload. *)
Fixpoint set_overflow_flags (tmp_map : hopscotch_map) (l : list value_type)
  : result hopscotch_map :=
  match l with
  | [] => Ok tmp_map
  | key_value :: l' =>
      let ibucket_for_hash := bucket_for_hash tmp_map (hash_of key_value.1) in
      bs ← modify_bucket (set_overflow true) ibucket_for_hash (m_buckets tmp_map);
      set_overflow_flags (with_buckets tmp_map bs) l'
  end.

(** Both overloads of [rehash_internal], over the [insert_internal] of
    the temporary map; the result is [*this] after [std::swap]. *)
Definition rehash_internal_with
    (ins : hopscotch_map → value_type → nat → result insert_result)
    (m : hopscotch_map) (cnt : nat) : result hopscotch_map :=
  let tmp_map := hopscotch_map_new cnt (m_max_load_factor m) in
  if nothrow_move_constructible then
    tmp_map ← rehash_buckets ins tmp_map (m_buckets m);
    match m_overflow_elements m with
    | [] => Ok tmp_map
    | _ :: _ =>
        let tmp_map :=
          {| m_buckets := m_buckets tmp_map;
             m_overflow_elements := m_overflow_elements m;
             m_nb_elements := m_nb_elements tmp_map + length (m_overflow_elements m);
             m_max_load_factor := m_max_load_factor tmp_map;
             m_load_threshold := m_load_threshold tmp_map |} in
        set_overflow_flags tmp_map (m_overflow_elements tmp_map)
    end
  else
    tmp_map ← rehash_buckets ins tmp_map (m_buckets m);
    rehash_overflow ins tmp_map (m_overflow_elements m).

(** The block [if(ibucket_empty < m_buckets.size()) { ... }] of
    [insert_internal], with [ibucket_empty] the result of
    [find_empty_bucket]: [inl] is a [return] of the function (the pair is
    in a bucket or in the overflow list), [inr] falls through to the
    rehash below the block. *)
Definition insert_internal_place (m : hopscotch_map) (key_value : value_type)
    (ibucket_for_hash : nat) : result (insert_result + hopscotch_map) :=
  let ibucket_empty := find_empty_bucket m ibucket_for_hash in
  if ibucket_empty <? length (m_buckets m) then
    r ← insert_do_while (S ibucket_empty) m key_value ibucket_empty ibucket_for_hash;
    match r with
    | (m, Some it) => Ok (inl (m, (it, true)))
    | (m, None) =>
        change ← will_neighborhood_change_on_rehash m ibucket_for_hash;
        if negb change then
          bs ← modify_bucket (set_overflow true) ibucket_for_hash (m_buckets m);
          let m :=
            {| m_buckets := bs;
               m_overflow_elements := m_overflow_elements m ++ [key_value];
               m_nb_elements := m_nb_elements m + 1;
               m_max_load_factor := m_max_load_factor m;
               m_load_threshold := m_load_threshold m |} in
          Ok (inl (m, ({| m_buckets_iterator := length (m_buckets m);
                          m_buckets_end_iterator := length (m_buckets m);
                          m_overflow_iterator := length (m_overflow_elements m) - 1 |},
                       true)))
        else Ok (inr m)
    end
  else Ok (inr m).

(** [insert_internal(P&& key_value, std::size_t ibucket_for_hash)].  The
    function calls itself after a rehash and, through [rehash_internal],
    on the temporary map; [fuel] bounds the depth of these calls. *)
Fixpoint insert_internal (fuel : nat) (m : hopscotch_map) (key_value : value_type)
    (ibucket_for_hash : nat) : result insert_result :=
  match fuel with
  | 0 => Fail out_of_fuel
  | S fuel' =>
      r ← (if m_load_threshold m <? m_nb_elements m + 1 then
             m' ← rehash_internal_with (insert_internal fuel') m (get_expand_size m);
             Ok (m', bucket_for_hash m' (hash_of key_value.1))
           else Ok (m, ibucket_for_hash));
      let '(m, ibucket_for_hash) := r : hopscotch_map * nat in
      r ← insert_internal_place m key_value ibucket_for_hash;
      match r with
      | inl done => Ok done
      | inr m =>
          m' ← rehash_internal_with (insert_internal fuel') m (get_expand_size m);
          insert_internal fuel' m' key_value (bucket_for_hash m' (hash_of key_value.1))
      end
  end.

Definition rehash_internal (fuel : nat) (m : hopscotch_map) (cnt : nat)
  : result hopscotch_map :=
  rehash_internal_with (insert_internal fuel) m cnt.

(** [insert_internal(P&& key_value)], behind both overloads of [insert]. *)
Definition insert (fuel : nat) (m : hopscotch_map) (key_value : value_type)
  : result insert_result :=
  let ibucket_for_hash := bucket_for_hash m (hash_of key_value.1) in
  it_find ← find_internal m key_value.1 ibucket_for_hash;
  if negb (iterator_eqb it_find (end_ m)) then Ok (m, (it_find, false))
  else insert_internal fuel m key_value ibucket_for_hash.

(** [try_emplace_internal]; [value] is the [T] built from [args_value]. *)
Definition try_emplace (fuel : nat) (m : hopscotch_map) (key : Key) (value : T)
  : result insert_result :=
  let ibucket_for_hash := bucket_for_hash m (hash_of key) in
  it_find ← find_internal m key ibucket_for_hash;
  if negb (iterator_eqb it_find (end_ m)) then Ok (m, (it_find, false))
  else insert_internal fuel m (key, value) ibucket_for_hash.

(** [operator[]]; [T_default] is [T()].  The reference returned is
    modelled by the iterator it is taken from. *)
Definition subscript (fuel : nat) (m : hopscotch_map) (key : Key)
  : result (hopscotch_map * hopscotch_iterator) :=
  it_find ← find m key;
  if iterator_eqb it_find (end_ m) then
    r ← insert fuel m (key, T_default); Ok (r.1, r.2.1)
  else Ok (m, it_find).

(** [void rehash(size_type cnt)] *)
Definition rehash (fuel : nat) (m : hopscotch_map) (cnt : nat) : result hopscotch_map :=
  let cnt := max cnt (ceil_to_size_type (inject_Z (Z.of_nat (size m)) / max_load_factor m)) in
  rehash_internal fuel m cnt.

(** [void reserve(size_type cnt)] *)
Definition reserve (fuel : nat) (m : hopscotch_map) (cnt : nat) : result hopscotch_map :=
  rehash fuel m (ceil_to_size_type (inject_Z (Z.of_nat cnt) / max_load_factor m)).

End hopscotch_map.

(** ** Vocabulary of the specification *)

Section vocabulary.

Context {P : hopscotch_params}.

(** The pair stored in bucket [j], if any. *)
Definition occupant (bs : list hopscotch_bucket) (j : nat) : option value_type :=
  bs !! j ≫= m_key_value.

(** Bit [j] of the metadata word of a bucket. *)
Definition bit (b : hopscotch_bucket) (j : nat) : bool :=
  Z.testbit (m_neighborhood_infos b) (Z.of_nat j).

(** The home bucket of a key in a table of [bs]. *)
Definition home_in (bs : list hopscotch_bucket) (key : Key) : nat :=
  bucket_for_hash_nb (hash_of key) (length bs - NeighborhoodSize + 1).

Definition home (m : hopscotch_map) (key : Key) : nat :=
  bucket_for_hash m (hash_of key).

(** The pairs stored in the container: buckets first, then the overflow list. *)
Definition bucket_elements (bs : list hopscotch_bucket) : list value_type :=
  omap m_key_value bs.

Definition elements (m : hopscotch_map) : list value_type :=
  bucket_elements (m_buckets m) ++ m_overflow_elements m.

(** The metadata word fits [neighborhood_bitmap] and its occupancy bit
    tells whether the storage holds a pair. *)
Definition bits_fit (b : hopscotch_bucket) : Prop :=
  ∀ j, bit b j = true → (Z.of_nat j < neighborhood_bitmap_bits)%Z.

Definition bucket_wf (b : hopscotch_bucket) : Prop :=
  bits_fit b ∧ (bit b 0 = true ↔ is_Some (m_key_value b)).

Record buckets_inv (bs : list hopscotch_bucket) : Prop := {
  inv_length : ∃ p, length bs = 2 ^ p + NeighborhoodSize - 1;
  inv_wf : ∀ j b, bs !! j = Some b → bucket_wf b;
  inv_neighborhood : ∀ i b k, bs !! i = Some b →
    (bit b (k + 2) = true ↔
     ∃ kv, occupant bs (i + k) = Some kv ∧ home_in bs kv.1 = i);
  inv_range : ∀ j kv, occupant bs j = Some kv →
    home_in bs kv.1 ≤ j < home_in bs kv.1 + NeighborhoodSize
}.

(** The candidate chosen by [swap_empty_bucket_closer]: the lowest bucket
    [c] of the scanned range that has a set neighborhood bit below the
    empty bucket, and in it the lowest set bit. *)
Definition hop_candidate (bs : list hopscotch_bucket) (from e c s : nat) : Prop :=
  from ≤ c ∧ c ≤ s ∧ s < e ∧
  (∃ b_c, bs !! c = Some b_c ∧
     Z.testbit (get_neighborhood_infos b_c) (Z.of_nat (s - c)) = true ∧
     ∀ t, t < s - c → Z.testbit (get_neighborhood_infos b_c) (Z.of_nat t) = false) ∧
  (∀ c' b' t, from ≤ c' → c' < c → bs !! c' = Some b' →
     Z.testbit (get_neighborhood_infos b') (Z.of_nat t) = true → e ≤ c' + t).

Definition no_hop_candidate (bs : list hopscotch_bucket) (from e : nat) : Prop :=
  ∀ c' b' t, from ≤ c' → c' < e → bs !! c' = Some b' →
    Z.testbit (get_neighborhood_infos b') (Z.of_nat t) = true → e ≤ c' + t.

(** Two arrays of the same length whose buckets have the same overflow flags. *)
Definition same_flags (bs bs' : list hopscotch_bucket) : Prop :=
  length bs' = length bs ∧
  ∀ j b b', bs !! j = Some b → bs' !! j = Some b' → bit b' 1 = bit b 1.

(** Two maps that differ in [m_buckets] and [m_nb_elements] at most. *)
Definition same_settings (m m' : hopscotch_map) : Prop :=
  m_overflow_elements m' = m_overflow_elements m ∧
  m_max_load_factor m' = m_max_load_factor m ∧
  m_load_threshold m' = m_load_threshold m.

(** Every pair of the overflow list has the overflow flag of its home
    bucket set. *)
Definition overflow_flagged (m : hopscotch_map) : Prop :=
  ∀ kv, kv ∈ m_overflow_elements m →
    ∃ b, m_buckets m !! home m kv.1 = Some b ∧ has_overflow b = true.

(** The invariant that every operation of the container keeps, whatever
    the overload of [rehash_internal]. *)
Definition map_inv (m : hopscotch_map) : Prop :=
  buckets_inv (m_buckets m) ∧ overflow_flagged m ∧
  length (elements m) ≤ m_nb_elements m.

(** What the proofs need of [insert_internal] on a map that satisfies
    the invariant. *)
Definition insert_ok (ins : hopscotch_map → value_type → nat → result insert_result) : Prop :=
  ∀ m kv r, map_inv m → ins m kv (home m kv.1) = Ok r →
    map_inv r.1 ∧ elements r.1 ⊆+ kv :: elements m ∧
    m_max_load_factor r.1 = m_max_load_factor m ∧
    length (m_buckets m) ≤ length (m_buckets r.1) ∧
    r.2.2 = true ∧ deref r.1 r.2.1 = Ok kv.

(** *** The lookup in the words of the specification

    "For each bit [b] that is set (iterate from LSB to MSB), compare [k]
    against the key stored at bucket [i + b]; on match, return that
    position.  If no match and bucket [i]'s overflow flag is clear, report
    absent.  Otherwise scan the overflow list linearly and compare with
    [eq]; return the first match or absent." *)

Fixpoint scan_neighborhood (is_match : nat → bool) (b cnt : nat) : option nat :=
  match cnt with
  | 0 => None
  | S cnt' => if is_match b then Some b else scan_neighborhood is_match (S b) cnt'
  end.

Fixpoint first_match {A} (p : A → bool) (l : list A) : option nat :=
  match l with
  | [] => None
  | x :: l' => if p x then Some 0 else S <$> first_match p l'
  end.

Definition find_spec (m : hopscotch_map) (k : Key) : hopscotch_iterator :=
  let i := Z.to_nat (hash_of k mod Z.of_nat (bucket_count m)) in
  match m_buckets m !! i with
  | None => end_ m
  | Some bucket_i =>
      match
        scan_neighborhood
          (λ b, Z.testbit (get_neighborhood_infos bucket_i) (Z.of_nat b) &&
                match occupant (m_buckets m) (i + b) with
                | Some kv => m_key_equal kv.1 k
                | None => false
                end)
          0 NeighborhoodSize
      with
      | Some b =>
          {| m_buckets_iterator := i + b;
             m_buckets_end_iterator := length (m_buckets m);
             m_overflow_iterator := 0 |}
      | None =>
          if has_overflow bucket_i then
            match first_match (λ kv, m_key_equal k kv.1) (m_overflow_elements m) with
            | Some idx =>
                {| m_buckets_iterator := length (m_buckets m);
                   m_buckets_end_iterator := length (m_buckets m);
                   m_overflow_iterator := idx |}
            | None => end_ m
            end
          else end_ m
      end
  end.

(** No two pairs of the list have keys that [m_key_equal] identifies. *)
Fixpoint distinct_keys (l : list value_type) : Prop :=
  match l with
  | [] => True
  | kv :: l' => (∀ kv', kv' ∈ l' → m_key_equal kv.1 kv'.1 = false) ∧ distinct_keys l'
  end.

(** The pairs of the container whose key is equal to [k]. *)
Definition matching (m : hopscotch_map) (k : Key) : list value_type :=
  filter (λ kv, m_key_equal k kv.1 = true) (elements m).

(** *** The states of a container

    One public operation that returns; [max_load_factor(ml)] is taken
    with [ml] positive. *)
Inductive step : hopscotch_map → hopscotch_map → Prop :=
  | step_insert fuel m key_value r :
      insert fuel m key_value = Ok r → step m r.1
  | step_try_emplace fuel m key value r :
      try_emplace fuel m key value = Ok r → step m r.1
  | step_subscript fuel m key r :
      subscript fuel m key = Ok r → step m r.1
  | step_erase m key r :
      erase m key = Ok r → step m r.1
  | step_erase_iterator m pos r :
      erase_iterator m pos = Ok r → step m r.1
  | step_rehash fuel m cnt m' :
      rehash fuel m cnt = Ok m' → step m m'
  | step_reserve fuel m cnt m' :
      reserve fuel m cnt = Ok m' → step m m'
  | step_clear m :
      step m (clear m)
  | step_max_load_factor m ml :
      (0 < ml)%Q → step m (set_max_load_factor ml m).

(** The states reached from a constructed container. *)
Inductive reachable : hopscotch_map → Prop :=
  | reachable_ctor bucket_count :
      reachable (hopscotch_map_ctor bucket_count)
  | reachable_step m m' :
      reachable m → step m m' → reachable m'.

(** [insert(first, last)] over a list of pairs. *)
Fixpoint insert_range (fuel : nat) (m : hopscotch_map) (l : list value_type)
  : result hopscotch_map :=
  match l with
  | [] => Ok m
  | key_value :: l' => r ← insert fuel m key_value; insert_range fuel r.1 l'
  end.

(** The map of a result, for stating examples. *)
Definition map_of (bucket_count : nat) (r : result hopscotch_map) : hopscotch_map :=
  match r with
  | Ok m => m
  | Fail _ => hopscotch_map_ctor bucket_count
  end.

End vocabulary.

(** ** Observers, iteration and further vocabulary *)

Section observers.

Context {P : hopscotch_params}.

(** [bool empty() const] *)
Definition empty (m : hopscotch_map) : bool := m_nb_elements m =? 0.

(** [get_first_non_empty_buckets_iterator]: its [while] loop has the
    condition of the [do ... while] of [operator++], and starts at
    [m_buckets.cbegin()]. *)
Definition get_first_non_empty_buckets_iterator (m : hopscotch_map) : nat :=
  next_non_empty (m_buckets m) 0.

(** [iterator begin()] *)
Definition begin_ (m : hopscotch_map) : hopscotch_iterator :=
  {| m_buckets_iterator := get_first_non_empty_buckets_iterator m;
     m_buckets_end_iterator := length (m_buckets m);
     m_overflow_iterator := 0 |}.

(** [for(; it != end(); ++it)] collecting [*it], the loop behind
    [for(const auto & key_value : *this)]; [fuel] bounds the number of
    iterations. *)
Fixpoint range_for (fuel : nat) (m : hopscotch_map) (it : hopscotch_iterator)
  : result (list value_type) :=
  match fuel with
  | 0 => Fail out_of_fuel
  | S fuel' =>
      if negb (iterator_eqb it (end_ m)) then
        key_value ← deref m it;
        rest ← range_for fuel' m (iterator_incr m it);
        Ok (key_value :: rest)
      else Ok []
  end.

(** [static constexpr bool is_power_of_two(std::size_t value)] *)
Definition is_power_of_two (value : Z) : bool :=
  negb (value =? 0)%Z && (Z.land value (value - 1) =? 0)%Z.

(** [m_load_threshold] is the value that [max_load_factor(float)] gives it
    for the current [bucket_count()]. *)
Definition load_ok (m : hopscotch_map) : Prop :=
  m_load_threshold m =
  to_size_type (inject_Z (Z.of_nat (bucket_count m)) * m_max_load_factor m).

(** [m_nb_elements] is the number of stored pairs. *)
Definition counted (m : hopscotch_map) : Prop :=
  m_nb_elements m = length (elements m).

(** A set overflow flag has a pair of the overflow list behind it. *)
Definition flags_exact (m : hopscotch_map) : Prop :=
  ∀ i b, m_buckets m !! i = Some b → has_overflow b = true →
    ∃ kv, kv ∈ m_overflow_elements m ∧ home m kv.1 = i.

(** What [insert_internal] does on a map whose count and flags are
    exact, when it returns. *)
Definition insert_strict (ins : hopscotch_map → value_type → nat → result insert_result)
  : Prop :=
  ∀ m kv r, map_inv m → counted m → flags_exact m → ins m kv (home m kv.1) = Ok r →
    counted r.1 ∧ flags_exact r.1 ∧ elements r.1 ≡ₚ kv :: elements m.

End observers.

(** * Instances

    [hopscotch_map<int64, int64, Hash, std::equal_to<>, Allocator, N>] for
    a hash functor [h], with either overload of [rehash_internal]. *)

Definition int_params (N : nat) (nothrow : bool) (h : Z → Z) : hopscotch_params :=
  {| Key := Z;
     T := Z;
     T_default := 0%Z;
     m_hash := h;
     m_key_equal := Z.eqb;
     NeighborhoodSize := N;
     nothrow_move_constructible := nothrow |}.

(** [std::hash] of an integer, the identity. *)
Definition identity_hash (k : Z) : Z := k.

(** The pathological hash of the specification, constantly 0. *)
Definition zero_hash (k : Z) : Z := 0%Z.

(** The keys of a list with the mapped value [10 * key]. *)
Definition pairs_of (keys : list Z) : list (Z * Z) :=
  map (λ k, (k, 10 * k)%Z) keys.

(** *** [NeighborhoodSize = 4] and the identity hash, 16 buckets *)

Definition hop_params : hopscotch_params := int_params 4 true identity_hash.

Definition hop_before : hopscotch_map (P := hop_params) :=
  Eval vm_compute in
    map_of 16 (insert_range (P := hop_params) 10 (hopscotch_map_ctor 16)
                 (pairs_of [0; 1; 2; 3]%Z)).

(** The fifth key is 4: it goes to its own home bucket. *)
Definition hop_fifth_4 : hopscotch_map (P := hop_params) :=
  Eval vm_compute in
    map_of 16 (insert_range (P := hop_params) 10 hop_before (pairs_of [4]%Z)).

(** The fifth key is 16, whose home is bucket 0: an entry is displaced. *)
Definition hop_example : hopscotch_map (P := hop_params) :=
  Eval vm_compute in
    map_of 16 (insert_range (P := hop_params) 10 hop_before (pairs_of [16]%Z)).

(** [hop_before] after [swap_empty_bucket_closer] on the empty bucket 4. *)
Definition hop_swapped : hopscotch_map (P := hop_params) :=
  Eval vm_compute in
    map_of 16 (r ← swap_empty_bucket_closer (P := hop_params) hop_before 4; Ok r.1.1).

(** *** [NeighborhoodSize = 4] and the identity hash, 4 buckets and
    [max_load_factor(2.0f)] *)

Definition small_before : hopscotch_map (P := hop_params) :=
  Eval vm_compute in
    map_of 4 (insert_range (P := hop_params) 10
                (set_max_load_factor (2 # 1) (hopscotch_map_ctor 4))
                (pairs_of [0; 1; 2; 3]%Z)).

Definition small_swapped : hopscotch_map (P := hop_params) :=
  Eval vm_compute in
    map_of 4 (r ← swap_empty_bucket_closer (P := hop_params) small_before 4; Ok r.1.1).

Definition small_example : hopscotch_map (P := hop_params) :=
  Eval vm_compute in
    map_of 4 (insert_range (P := hop_params) 10 small_before (pairs_of [4]%Z)).

(** The keys 0 to 4 in a map of 4 buckets with the default
    [max_load_factor]: the map grows before the fifth insertion. *)
Definition small_grown : hopscotch_map (P := hop_params) :=
  Eval vm_compute in
    map_of 4 (insert_range (P := hop_params) 10 (hopscotch_map_ctor 4)
                (pairs_of [0; 1; 2; 3; 4]%Z)).

(** *** [NeighborhoodSize = 62] and the constant hash, 16 buckets *)

Definition zero_params : hopscotch_params := int_params 62 true zero_hash.

Definition zero_62 : hopscotch_map (P := zero_params) :=
  Eval vm_compute in
    map_of 16 (insert_range (P := zero_params) 10 (hopscotch_map_ctor 16)
                 (pairs_of (map Z.of_nat (seq 0 62)))).

Definition zero_63 : hopscotch_map (P := zero_params) :=
  Eval vm_compute in
    map_of 16 (insert_range (P := zero_params) 10 zero_62 (pairs_of [62]%Z)).

(** *** [NeighborhoodSize = 1] and the identity hash, 16 buckets

    With the overload of [rehash_internal] for a nothrow-movable pair,
    and with the other one. *)

Definition nothrow_params : hopscotch_params := int_params 1 true identity_hash.
Definition fallible_params : hopscotch_params := int_params 1 false identity_hash.

Definition nothrow_before : hopscotch_map (P := nothrow_params) :=
  Eval vm_compute in
    map_of 16 (insert_range (P := nothrow_params) 10 (hopscotch_map_ctor 16)
                 (pairs_of [0; 16; 1; 9]%Z)).

(** After [rehash(0)]. *)
Definition nothrow_rehashed : hopscotch_map (P := nothrow_params) :=
  Eval vm_compute in map_of 16 (rehash (P := nothrow_params) 10 nothrow_before 0).

(** After [rehash(0)] and the insertion of the keys 2, 3 and 4. *)
Definition nothrow_later : hopscotch_map (P := nothrow_params) :=
  Eval vm_compute in
    map_of 16 (insert_range (P := nothrow_params) 10 nothrow_rehashed
                 (pairs_of [2; 3; 4]%Z)).

(** After the insertion of the key 5 as well. *)
Definition nothrow_final : hopscotch_map (P := nothrow_params) :=
  Eval vm_compute in
    map_of 16 (insert_range (P := nothrow_params) 10 nothrow_later (pairs_of [5]%Z)).

(** The temporary map of [rehash_internal(8)] on [nothrow_before] after
    its first loop, where the source has
    [assert(tmp_map.m_overflow_elements.empty())]. *)
Definition nothrow_tmp_map : hopscotch_map (P := nothrow_params) :=
  Eval vm_compute in
    map_of 8 (rehash_buckets (P := nothrow_params) (insert_internal 10)
                (hopscotch_map_new 8 (m_max_load_factor nothrow_before))
                (m_buckets nothrow_before)).

Definition fallible_before : hopscotch_map (P := fallible_params) :=
  Eval vm_compute in
    map_of 16 (insert_range (P := fallible_params) 10 (hopscotch_map_ctor 16)
                 (pairs_of [0; 16; 1; 9]%Z)).

Definition fallible_rehashed : hopscotch_map (P := fallible_params) :=
  Eval vm_compute in map_of 16 (rehash (P := fallible_params) 10 fallible_before 0).

(** [fallible_before] after the insertion of the key 2. *)
Definition fallible_inserted : hopscotch_map (P := fallible_params) :=
  Eval vm_compute in
    map_of 16 (insert_range (P := fallible_params) 10 fallible_before (pairs_of [2]%Z)).

(** *** Further states of the map with [NeighborhoodSize = 4] *)

(** [hop_example] after [erase(16)]. *)
Definition hop_erased : hopscotch_map (P := hop_params) :=
  Eval vm_compute in
    map_of 16 (r ← erase (P := hop_params) hop_example 16%Z; Ok r.1).

(** The keys 0 to 2 in a map of 4 buckets with the default
    [max_load_factor], whose load threshold is 3, and the map after the
    insertion of the key 3. *)
Definition small_three : hopscotch_map (P := hop_params) :=
  Eval vm_compute in
    map_of 4 (insert_range (P := hop_params) 10 (hopscotch_map_ctor 4)
                (pairs_of [0; 1; 2]%Z)).

Definition small_four : hopscotch_map (P := hop_params) :=
  Eval vm_compute in
    map_of 4 (insert_range (P := hop_params) 10 small_three (pairs_of [3]%Z)).

(** Bucket 0 of [hop_example]: it holds the key 0 and is the home bucket
    of the keys 0 and 16, which are in the buckets 0 and 1. *)
Definition hop_bucket_0 : hopscotch_bucket (P := hop_params) :=
  Eval vm_compute in default empty_bucket (m_buckets hop_example !! 0).


(** * Proofs *)

Section proofs.

Context {P : hopscotch_params}.
Hypothesis NeighborhoodSize_pos : 0 < NeighborhoodSize.
Hypothesis NeighborhoodSize_max : NeighborhoodSize ≤ MAX_NEIGHBORHOOD_SIZE.

(** Equality of two boolean conditions, by their meaning. *)
Ltac bool_eq :=
  apply eq_true_iff_eq;
  rewrite ?orb_true_iff, ?andb_true_iff, ?negb_true_iff, ?Nat.eqb_eq, ?Nat.eqb_neq,
    ?Nat.ltb_lt, ?Nat.leb_le, ?bool_decide_eq_true, ?bool_decide_eq_false;
  intuition (subst; lia || congruence).

(** ** The monad *)

Lemma bind_Ok {A B} (f : A → result B) (r : result A) (b : B) :
  r ≫= f = Ok b → ∃ a, r = Ok a ∧ f a = Ok b.
Proof. destruct r as [a|e]; simpl; [eauto | discriminate]. Qed.

Lemma bind_Ok_l {A B} (f : A → result B) (a : A) : Ok a ≫= f = f a.
Proof. done. Qed.

Lemma of_option_Ok {A} (o : option A) (a : A) : of_option o = Ok a ↔ o = Some a.
Proof. destruct o; simpl; split; congruence. Qed.

(** ** Bits of the metadata word *)

Lemma bitmap_bits_bound : (Z.of_nat NeighborhoodSize + 2 ≤ neighborhood_bitmap_bits)%Z.
Proof.
  unfold neighborhood_bitmap_bits, MAX_NEIGHBORHOOD_SIZE, NB_RESERVED_BITS_IN_NEIGHBORHOOD in *.
  repeat case_match; rewrite ?Nat.leb_le, ?Nat.leb_gt in *; lia.
Qed.

Lemma bitmap_bits_nonneg : (0 ≤ neighborhood_bitmap_bits)%Z.
Proof. pose proof bitmap_bits_bound. lia. Qed.

Lemma testbit_to_bitmap x j :
  Z.testbit (to_bitmap x) (Z.of_nat j) =
  (Z.of_nat j <? neighborhood_bitmap_bits)%Z && Z.testbit x (Z.of_nat j).
Proof. unfold to_bitmap. apply Z.testbit_mod_pow2. apply bitmap_bits_nonneg. Qed.

Lemma testbit_1 j : Z.testbit 1 (Z.of_nat j) = (j =? 0).
Proof. destruct j; [reflexivity|]. rewrite Z.bits_above_log2; [done| lia | simpl; lia]. Qed.

Lemma testbit_2 j : Z.testbit 2 (Z.of_nat j) = (j =? 1).
Proof.
  change 2%Z with (2 ^ 1)%Z. rewrite Z.pow2_bits_eqb by lia.
  destruct (Z.eqb_spec 1 (Z.of_nat j)), (Nat.eqb_spec j 1); lia || done.
Qed.

Lemma testbit_shiftl_1 k j : Z.testbit (Z.shiftl 1 (Z.of_nat k)) (Z.of_nat j) = (j =? k).
Proof.
  rewrite Z.shiftl_1_l, Z.pow2_bits_eqb by lia.
  destruct (Z.eqb_spec (Z.of_nat k) (Z.of_nat j)), (Nat.eqb_spec j k); lia || done.
Qed.

Lemma land_1_eq x : Z.land x 1 = Z.b2z (Z.testbit x 0).
Proof.
  apply Z.bits_inj'. intros n Hn. rewrite Z.land_spec.
  destruct (Z.eq_dec n 0%Z) as [->|].
  - destruct (Z.testbit x 0); reflexivity.
  - rewrite (Z.bits_above_log2 1 n) by (simpl; lia).
    rewrite andb_false_r. destruct (Z.testbit x 0); simpl.
    + rewrite Z.bits_above_log2; simpl; lia || done.
    + rewrite Z.bits_0. done.
Qed.

Lemma land_2_eq x : Z.land x 2 = (if Z.testbit x 1 then 2 else 0)%Z.
Proof.
  apply Z.bits_inj'. intros n Hn. rewrite Z.land_spec.
  change 2%Z with (2 ^ 1)%Z at 1. rewrite Z.pow2_bits_eqb by lia.
  destruct (Z.eqb_spec 1 n) as [<-|].
  - destruct (Z.testbit x 1); reflexivity.
  - rewrite andb_false_r. destruct (Z.testbit x 1).
    + change 2%Z with (2 ^ 1)%Z. rewrite Z.pow2_bits_eqb by lia.
      symmetry. apply Z.eqb_neq. done.
    + rewrite Z.bits_0. done.
Qed.

Lemma is_empty_bit b : is_empty b = negb (bit b 0).
Proof.
  unfold is_empty, bit. rewrite land_1_eq. change (Z.of_nat 0) with 0%Z.
  destruct (Z.testbit (m_neighborhood_infos b) 0); reflexivity.
Qed.

Lemma has_overflow_bit b : has_overflow b = bit b 1.
Proof.
  unfold has_overflow, bit. rewrite land_2_eq. change (Z.of_nat 1) with 1%Z.
  destruct (Z.testbit (m_neighborhood_infos b) 1); reflexivity.
Qed.

(** ** Bucket operations *)

Lemma bits_fit_ltb b j :
  bits_fit b → (Z.of_nat j <? neighborhood_bitmap_bits)%Z && bit b j = bit b j.
Proof.
  intros Hfit. destruct (bit b j) eqn:Hb; [|apply andb_false_r].
  apply Hfit in Hb. rewrite andb_true_r. by apply Z.ltb_lt.
Qed.

Lemma wf_fit b : bucket_wf b → bits_fit b.
Proof. by intros [? _]. Qed.

Lemma bucket_wf_empty b : bucket_wf b → (is_empty b = true ↔ m_key_value b = None).
Proof.
  intros [_ H]. rewrite is_empty_bit, negb_true_iff, <-not_true_iff_false, H.
  rewrite <-eq_None_not_Some. done.
Qed.

Lemma bit_small j k :
  k < NeighborhoodSize + 2 → (j =? k) = true → (Z.of_nat j <? neighborhood_bitmap_bits)%Z = true.
Proof.
  intros Hk ->%Nat.eqb_eq. apply Z.ltb_lt. pose proof bitmap_bits_bound. lia.
Qed.

Lemma bit_set_is_empty b e j :
  bits_fit b →
  bit (set_is_empty e b) j = if e then bit b j && negb (j =? 0) else bit b j || (j =? 0).
Proof.
  intros Hwf. unfold set_is_empty. destruct e; unfold bit at 1; simpl;
    rewrite testbit_to_bitmap.
  - rewrite Z.land_spec, Z.lnot_spec, testbit_1 by lia.
    rewrite andb_assoc. fold (bit b j). by rewrite bits_fit_ltb.
  - rewrite Z.lor_spec, testbit_1. fold (bit b j).
    rewrite andb_orb_distrib_r, bits_fit_ltb by done.
    destruct (j =? 0) eqn:Hj; [|by rewrite andb_false_r].
    by rewrite (bit_small j 0), andb_true_r by (done || lia).
Qed.

Lemma bit_set_overflow b o j :
  bits_fit b →
  bit (set_overflow o b) j = if o then bit b j || (j =? 1) else bit b j && negb (j =? 1).
Proof.
  intros Hwf. unfold set_overflow. destruct o; unfold bit at 1; simpl;
    rewrite testbit_to_bitmap.
  - rewrite Z.lor_spec, testbit_2. fold (bit b j).
    rewrite andb_orb_distrib_r, bits_fit_ltb by done.
    destruct (j =? 1) eqn:Hj; [|by rewrite andb_false_r].
    by rewrite (bit_small j 1), andb_true_r by (done || lia).
  - rewrite Z.land_spec, Z.lnot_spec, testbit_2 by lia.
    rewrite andb_assoc. fold (bit b j). by rewrite bits_fit_ltb.
Qed.

Lemma bit_toggle_neighbor_presence b k j :
  bits_fit b → k < NeighborhoodSize →
  bit (toggle_neighbor_presence k b) j = xorb (bit b j) (j =? k + 2).
Proof.
  intros Hwf Hk. unfold toggle_neighbor_presence, bit at 1. simpl.
  rewrite testbit_to_bitmap, Z.lxor_spec, testbit_shiftl_1. fold (bit b j).
  unfold NB_RESERVED_BITS_IN_NEIGHBORHOOD.
  destruct (j =? k + 2) eqn:Hj.
  - rewrite (bit_small j (k + 2)) by (done || lia). done.
  - rewrite !xorb_false_r. by apply bits_fit_ltb.
Qed.

Lemma key_value_set_is_empty e b : m_key_value (set_is_empty e b) = m_key_value b.
Proof. by destruct e. Qed.

Lemma key_value_set_overflow o b : m_key_value (set_overflow o b) = m_key_value b.
Proof. by destruct o. Qed.

Lemma key_value_toggle k b : m_key_value (toggle_neighbor_presence k b) = m_key_value b.
Proof. done. Qed.

(** Every bucket operation leaves a metadata word that fits the bitmap type. *)
Lemma bits_fit_to_bitmap x kv :
  bits_fit {| m_neighborhood_infos := to_bitmap x; m_key_value := kv |}.
Proof.
  intros j. unfold bit. simpl. rewrite testbit_to_bitmap.
  intros [H _]%andb_true_iff. by apply Z.ltb_lt.
Qed.

Lemma bits_fit_set_is_empty e b : bits_fit (set_is_empty e b).
Proof. destruct e; apply bits_fit_to_bitmap. Qed.

Lemma bits_fit_set_overflow o b : bits_fit (set_overflow o b).
Proof. destruct o; apply bits_fit_to_bitmap. Qed.

Lemma bits_fit_toggle k b : bits_fit (toggle_neighbor_presence k b).
Proof. apply bits_fit_to_bitmap. Qed.

Lemma bits_fit_with_key_value b kv :
  bits_fit b → bits_fit {| m_neighborhood_infos := m_neighborhood_infos b; m_key_value := kv |}.
Proof. done. Qed.

Lemma bucket_wf_empty_bucket : bucket_wf empty_bucket.
Proof.
  split.
  - intros j. unfold bit. simpl. by rewrite Z.bits_0.
  - unfold bit. simpl. split; [done|]. by intros [? ?].
Qed.

Lemma bucket_wf_set_overflow o b : bucket_wf b → bucket_wf (set_overflow o b).
Proof.
  intros [Hfit Hwf]. split; [apply bits_fit_set_overflow|].
  rewrite bit_set_overflow, key_value_set_overflow by done.
  rewrite <-Hwf. destruct o; simpl; [by rewrite orb_false_r | by rewrite andb_true_r].
Qed.

Lemma bucket_wf_toggle k b :
  bucket_wf b → k < NeighborhoodSize → bucket_wf (toggle_neighbor_presence k b).
Proof.
  intros [Hfit Hwf] Hk. split; [apply bits_fit_toggle|].
  rewrite bit_toggle_neighbor_presence by done.
  replace (0 =? k + 2) with false by (symmetry; apply Nat.eqb_neq; lia).
  rewrite xorb_false_r. apply Hwf.
Qed.

Lemma bit_set_key_value kv b j :
  bits_fit b → bit (set_key_value kv b) j = bit b j || (j =? 0).
Proof.
  intros Hfit. unfold set_key_value. rewrite is_empty_bit, negb_involutive.
  destruct (bit b 0) eqn:Hb.
  - unfold bit, construct_key_value, destroy_key_value. simpl. fold (bit b j).
    destruct (Nat.eqb_spec j 0) as [->|]; [by rewrite Hb | by rewrite orb_false_r].
  - by rewrite bit_set_is_empty.
Qed.

Lemma key_value_set_key_value kv b : m_key_value (set_key_value kv b) = Some kv.
Proof. unfold set_key_value. destruct (negb (is_empty b)); [done|]. by rewrite key_value_set_is_empty. Qed.

Lemma bucket_wf_set_key_value kv b : bucket_wf b → bucket_wf (set_key_value kv b).
Proof.
  intros [Hfit Hwf]. split.
  - unfold set_key_value. destruct (negb (is_empty b)); [done|apply bits_fit_set_is_empty].
  - rewrite bit_set_key_value, key_value_set_key_value by done.
    rewrite orb_true_r. split; eauto.
Qed.

Lemma bit_remove_key_value b j :
  bits_fit b → bit (remove_key_value b) j = bit b j && negb (j =? 0).
Proof.
  intros Hfit. unfold remove_key_value. rewrite is_empty_bit, negb_involutive.
  destruct (bit b 0) eqn:Hb.
  - by rewrite bit_set_is_empty.
  - destruct (Nat.eqb_spec j 0) as [->|]; [by rewrite Hb | by rewrite andb_true_r].
Qed.

Lemma key_value_remove_key_value b : bucket_wf b → m_key_value (remove_key_value b) = None.
Proof.
  intros Hwf. unfold remove_key_value. destruct (is_empty b) eqn:He; simpl.
  - by apply bucket_wf_empty.
  - done.
Qed.

Lemma bucket_wf_remove_key_value b : bucket_wf b → bucket_wf (remove_key_value b).
Proof.
  intros Hwf. split.
  - unfold remove_key_value. destruct (negb (is_empty b)); [apply bits_fit_set_is_empty|apply Hwf].
  - rewrite bit_remove_key_value, key_value_remove_key_value by (done || apply Hwf).
    rewrite andb_false_r. split; [done|]. by intros [? ?].
Qed.

Lemma bucket_wf_bucket_clear b : bucket_wf b → bucket_clear b = empty_bucket.
Proof.
  intros Hwf. unfold bucket_clear, empty_bucket. f_equal.
  destruct (is_empty b) eqn:He; simpl; [|done]. by apply bucket_wf_empty.
Qed.

(** [swap_key_value_with_empty_bucket] on an occupied bucket and an empty one. *)
Lemma swap_key_value_with_empty_bucket_spec b e kv :
  bucket_wf b → bucket_wf e → m_key_value b = Some kv → m_key_value e = None →
  ∃ b' e', swap_key_value_with_empty_bucket b e = (b', e') ∧
    bucket_wf b' ∧ bucket_wf e' ∧
    m_key_value b' = None ∧ m_key_value e' = Some kv ∧
    (∀ j, bit b' j = bit b j && negb (j =? 0)) ∧
    (∀ j, bit e' j = bit e j || (j =? 0)).
Proof.
  intros Hb He Hkv Hnone. unfold swap_key_value_with_empty_bucket.
  assert (is_empty b = false) as ->.
  { apply not_true_iff_false. rewrite bucket_wf_empty by done. congruence. }
  cbn [negb]. eexists _, _. split; [done|].
  assert (bits_fit (destroy_key_value b)) as Hfit1 by apply Hb.
  assert (bits_fit {| m_neighborhood_infos := m_neighborhood_infos e;
                      m_key_value := m_key_value b |}) as Hfit2 by apply He.
  split_and!.
  - split; [apply bits_fit_set_is_empty|].
    rewrite bit_set_is_empty, key_value_set_is_empty by done. simpl.
    rewrite andb_false_r. split; [done|]. by intros [? ?].
  - split; [apply bits_fit_set_is_empty|].
    rewrite bit_set_is_empty, key_value_set_is_empty by done. simpl.
    rewrite orb_true_r, Hkv. split; eauto.
  - by rewrite key_value_set_is_empty.
  - by rewrite key_value_set_is_empty.
  - intros j. by rewrite bit_set_is_empty.
  - intros j. by rewrite bit_set_is_empty.
Qed.

(** ** Arrays of buckets *)

Lemma lookup_alter_case (f : hopscotch_bucket → hopscotch_bucket) (i j : nat)
    (bs : list hopscotch_bucket) :
  alter f i bs !! j = (if decide (i = j) then f else id) <$> bs !! j.
Proof.
  rewrite list_lookup_alter. case_decide; [by subst | by destruct (bs !! j)].
Qed.

Lemma modify_bucket_Ok f i bs bs' :
  modify_bucket f i bs = Ok bs' ↔ i < length bs ∧ bs' = alter f i bs.
Proof.
  unfold modify_bucket. destruct (Nat.ltb_spec i (length bs)); split.
  - intros [= <-]. done.
  - intros [_ ->]. done.
  - done.
  - intros [? _]. lia.
Qed.

Lemma bucket_at_Ok bs i b : bucket_at bs i = Ok b ↔ bs !! i = Some b.
Proof. apply of_option_Ok. Qed.

Lemma occupant_Some bs j kv :
  occupant bs j = Some kv ↔ ∃ b, bs !! j = Some b ∧ m_key_value b = Some kv.
Proof.
  unfold occupant. destruct (bs !! j) as [b|]; simpl.
  - split; [eauto|]. by intros (? & [= <-] & ?).
  - split; [done|]. by intros (? & ? & ?).
Qed.

Lemma occupant_lookup bs j b : bs !! j = Some b → occupant bs j = m_key_value b.
Proof. unfold occupant. by intros ->. Qed.

Lemma occupant_lt bs j kv : occupant bs j = Some kv → j < length bs.
Proof. intros (b & Hb & _)%occupant_Some. by eapply lookup_lt_Some. Qed.

Lemma home_in_length bs bs' key : length bs' = length bs → home_in bs' key = home_in bs key.
Proof. unfold home_in. by intros ->. Qed.

Lemma hash_of_nonneg key : (0 ≤ hash_of key)%Z.
Proof. unfold hash_of. apply Z.mod_pos_bound. lia. Qed.

Lemma bucket_for_hash_nb_pow2 h p :
  (0 ≤ h)%Z → bucket_for_hash_nb h (2 ^ p) = Z.to_nat (h mod 2 ^ Z.of_nat p).
Proof.
  intros Hh. unfold bucket_for_hash_nb, USE_POWER_OF_TWO_MOD. f_equal.
  rewrite Nat2Z.inj_pow. change (Z.of_nat 2) with 2%Z.
  rewrite <-Z.land_ones by lia. f_equal. rewrite Z.ones_equiv. lia.
Qed.

Lemma bucket_for_hash_nb_lt h p : (0 ≤ h)%Z → bucket_for_hash_nb h (2 ^ p) < 2 ^ p.
Proof.
  intros Hh. rewrite bucket_for_hash_nb_pow2 by done.
  pose proof (Z.mod_pos_bound h (2 ^ Z.of_nat p) ltac:(lia)) as Hb.
  apply Nat2Z.inj_lt. rewrite Z2Nat.id, Nat2Z.inj_pow by lia. apply Hb.
Qed.

Lemma buckets_count (bs : list hopscotch_bucket) p :
  length bs = 2 ^ p + NeighborhoodSize - 1 → length bs - NeighborhoodSize + 1 = 2 ^ p.
Proof. pose proof (Nat.pow_nonzero 2 p). lia. Qed.

Lemma home_in_lt bs p key :
  length bs = 2 ^ p + NeighborhoodSize - 1 → home_in bs key < 2 ^ p.
Proof.
  intros Hlen. unfold home_in. rewrite (buckets_count _ _ Hlen).
  apply bucket_for_hash_nb_lt, hash_of_nonneg.
Qed.

Lemma home_in_lt_length bs key : buckets_inv bs → home_in bs key < length bs.
Proof.
  intros [[p Hp] _ _ _]. pose proof (home_in_lt bs p key Hp). lia.
Qed.

(** A set neighborhood bit lies inside the neighborhood. *)
Lemma inv_neighborhood_lt bs i b k :
  buckets_inv bs → bs !! i = Some b → bit b (k + 2) = true → k < NeighborhoodSize.
Proof.
  intros Hinv Hb Hbit. apply (inv_neighborhood _ Hinv i b k Hb) in Hbit as (kv & Hkv & Hhome).
  apply (inv_range _ Hinv) in Hkv. lia.
Qed.

Lemma inv_neighborhood_set bs j kv b :
  buckets_inv bs → occupant bs j = Some kv → bs !! home_in bs kv.1 = Some b →
  bit b (j - home_in bs kv.1 + 2) = true.
Proof.
  intros Hinv Hkv Hb. pose proof (inv_range _ Hinv _ _ Hkv).
  apply (inv_neighborhood _ Hinv _ _ _ Hb). exists kv.
  by replace (home_in bs kv.1 + (j - home_in bs kv.1)) with j by lia.
Qed.

(** *** [insert_in_bucket] *)

Lemma insert_in_bucket_Ok m kv e i r :
  insert_in_bucket m kv e i = Ok r →
  e < length (m_buckets m) ∧ i < length (m_buckets m) ∧ r.2 = e ∧
  m_buckets r.1 =
    alter (toggle_neighbor_presence (e - i)) i (alter (set_key_value kv) e (m_buckets m)) ∧
  m_overflow_elements r.1 = m_overflow_elements m ∧
  m_nb_elements r.1 = m_nb_elements m + 1 ∧
  m_max_load_factor r.1 = m_max_load_factor m ∧
  m_load_threshold r.1 = m_load_threshold m.
Proof.
  unfold insert_in_bucket. intros (bs1 & [He ->]%modify_bucket_Ok & H)%bind_Ok.
  apply bind_Ok in H as (bs2 & [Hi ->]%modify_bucket_Ok & [= <-]).
  rewrite length_alter in Hi. done.
Qed.

Lemma insert_in_bucket_lookup (bs : list hopscotch_bucket) kv e i j b :
  (∀ j b, bs !! j = Some b → bucket_wf b) →
  e - i < NeighborhoodSize →
  bs !! j = Some b →
  ∃ b', alter (toggle_neighbor_presence (e - i)) i (alter (set_key_value kv) e bs) !! j = Some b' ∧
    bucket_wf b' ∧
    m_key_value b' = (if decide (e = j) then Some kv else m_key_value b) ∧
    ∀ t, bit b' t = xorb (bit b t || bool_decide (e = j ∧ t = 0))
                         (bool_decide (i = j ∧ t = e - i + 2)).
Proof.
  intros Hwf Hlt Hb. specialize (Hwf _ _ Hb).
  rewrite !lookup_alter_case, Hb. simpl. eexists. split; [done|].
  destruct (decide (i = j)) as [->|Hi], (decide (e = j)) as [->|He]; simpl.
  - split_and!.
    + apply bucket_wf_toggle; [by apply bucket_wf_set_key_value | done].
    + by rewrite key_value_set_key_value.
    + intros t. rewrite bit_toggle_neighbor_presence
        by (done || apply wf_fit, bucket_wf_set_key_value, Hwf).
      rewrite bit_set_key_value by apply Hwf.
      f_equal; [f_equal|]; bool_eq.
  - split_and!.
    + by apply bucket_wf_toggle.
    + done.
    + intros t. rewrite bit_toggle_neighbor_presence by (done || apply Hwf).
      f_equal; [|bool_eq].
      rewrite bool_decide_eq_false_2 by (intros [? _]; done). by rewrite orb_false_r.
  - split_and!.
    + by apply bucket_wf_set_key_value.
    + by rewrite key_value_set_key_value.
    + intros t. rewrite bit_set_key_value by apply Hwf.
      rewrite (bool_decide_eq_false_2 (i = j ∧ _)) by (intros [? _]; done).
      rewrite xorb_false_r. f_equal. bool_eq.
  - split_and!; [done..|].
    intros t. rewrite !bool_decide_eq_false_2 by (intros [? _]; done).
    by rewrite orb_false_r, xorb_false_r.
Qed.

Lemma lookup_same_length (bs bs' : list hopscotch_bucket) j :
  length bs' = length bs → bs !! j = None → bs' !! j = None.
Proof. rewrite !lookup_ge_None. lia. Qed.

Lemma lookup_same_length_Some (bs bs' : list hopscotch_bucket) j b' :
  length bs' = length bs → bs' !! j = Some b' → ∃ b, bs !! j = Some b.
Proof.
  intros Hlen Hb'. apply lookup_lt_Some in Hb'. apply lookup_lt_is_Some. lia.
Qed.

Lemma insert_in_bucket_occupant (bs : list hopscotch_bucket) kv e i j :
  (∀ j b, bs !! j = Some b → bucket_wf b) →
  e - i < NeighborhoodSize → e < length bs →
  occupant (alter (toggle_neighbor_presence (e - i)) i (alter (set_key_value kv) e bs)) j =
  if decide (e = j) then Some kv else occupant bs j.
Proof.
  intros Hwf Hlt He. unfold occupant at 1. destruct (bs !! j) as [b|] eqn:Hb.
  - destruct (insert_in_bucket_lookup bs kv e i j b Hwf Hlt Hb) as (b' & Hb' & _ & Hkv & _).
    rewrite Hb'. simpl. rewrite Hkv.
    case_decide; [done|]. by rewrite (occupant_lookup _ _ _ Hb).
  - rewrite (lookup_same_length bs) by (by rewrite ?length_alter).
    apply lookup_ge_None in Hb. rewrite decide_False by lia.
    unfold occupant. by rewrite (proj2 (lookup_ge_None _ _) Hb).
Qed.

Lemma buckets_inv_insert_in_bucket (bs : list hopscotch_bucket) kv e i :
  buckets_inv bs → occupant bs e = None → e < length bs →
  i = home_in bs kv.1 → i ≤ e → e - i < NeighborhoodSize →
  buckets_inv (alter (toggle_neighbor_presence (e - i)) i (alter (set_key_value kv) e bs)).
Proof.
  intros Hinv Hempty He Hi Hle Hlt.
  pose proof (inv_wf _ Hinv) as Hwf.
  set (bs' := alter _ i _).
  assert (length bs' = length bs) as Hlen by (unfold bs'; by rewrite !length_alter).
  split.
  - rewrite Hlen. apply Hinv.
  - intros j b' Hb'. destruct (lookup_same_length_Some bs bs' j b' Hlen Hb') as [b Hb].
    destruct (insert_in_bucket_lookup bs kv e i j b Hwf Hlt Hb) as (b'' & Hb'' & Hwf' & _).
    unfold bs' in Hb'. congruence.
  - intros i' b' k Hb'. destruct (lookup_same_length_Some bs bs' i' b' Hlen Hb') as [b Hb].
    destruct (insert_in_bucket_lookup bs kv e i i' b Hwf Hlt Hb) as (b'' & Hb'' & _ & _ & Hbit).
    unfold bs' in Hb'. assert (b'' = b') as -> by congruence.
    rewrite Hbit. unfold bs'. rewrite insert_in_bucket_occupant by done.
    rewrite (bool_decide_eq_false_2 (_ ∧ k + 2 = 0)) by lia. rewrite orb_false_r.
    pose proof (inv_neighborhood _ Hinv i' b k Hb) as Hold.
    unfold home_in in Hold, Hi |- *. rewrite !length_alter.
    case_bool_decide as Hc.
    + destruct Hc as [<- Hk]. assert (k = e - i) as -> by lia.
      replace (i + (e - i)) with e in * by lia.
      destruct (bit b (e - i + 2)) eqn:Hbit0.
      * destruct (proj1 Hold eq_refl) as (? & ? & _). congruence.
      * simpl. rewrite decide_True by done. split; [eauto|done].
    + rewrite xorb_false_r. rewrite Hold.
      destruct (decide (e = i' + k)) as [->|Hd]; [|reflexivity].
      rewrite Hempty. split; [by intros (? & ? & ?)|].
      intros (? & [= <-] & ?). exfalso. apply Hc. split; lia.
  - intros j kv' Hkv'. unfold bs' in Hkv'. rewrite insert_in_bucket_occupant in Hkv' by done.
    rewrite (home_in_length bs bs') by done.
    case_decide; [|by apply (inv_range _ Hinv)].
    simplify_eq. lia.
Qed.

(** *** The pairs held by an array of buckets *)

Lemma bucket_elements_ext (bs bs' : list hopscotch_bucket) :
  length bs' = length bs → (∀ j, occupant bs' j = occupant bs j) →
  bucket_elements bs' = bucket_elements bs.
Proof.
  revert bs'. induction bs as [|b bs IH]; intros [|b' bs'] Hlen Hocc; try done.
  unfold bucket_elements in *. simpl.
  pose proof (Hocc 0) as H0. unfold occupant in H0. simpl in H0. rewrite H0.
  change (list_omap _ _ m_key_value) with (omap (M:=list) m_key_value).
  rewrite (IH bs'); [done|simpl in Hlen; lia|].
  intros j. apply (Hocc (S j)).
Qed.

Lemma bucket_elements_middle (bs : list hopscotch_bucket) e b :
  bs !! e = Some b →
  bucket_elements bs =
  bucket_elements (take e bs) ++ option_list (m_key_value b) ++ bucket_elements (drop (S e) bs).
Proof.
  intros Hb. rewrite <-(take_drop_middle bs e b Hb) at 1.
  unfold bucket_elements. rewrite omap_app. simpl. by destruct (m_key_value b).
Qed.

(** Two arrays that differ in the storage of bucket [e] only. *)
Lemma bucket_elements_update (bs bs' : list hopscotch_bucket) e :
  length bs' = length bs → e < length bs →
  (∀ j, j ≠ e → occupant bs' j = occupant bs j) →
  ∃ l1 l2, bucket_elements bs = l1 ++ option_list (occupant bs e) ++ l2 ∧
           bucket_elements bs' = l1 ++ option_list (occupant bs' e) ++ l2.
Proof.
  intros Hlen He Hocc.
  destruct (lookup_lt_is_Some_2 bs e He) as [b Hb].
  destruct (lookup_lt_is_Some_2 bs' e ltac:(lia)) as [b' Hb'].
  exists (bucket_elements (take e bs)), (bucket_elements (drop (S e) bs)).
  rewrite (occupant_lookup _ _ _ Hb), (occupant_lookup _ _ _ Hb').
  split; [by apply bucket_elements_middle|].
  rewrite (bucket_elements_middle bs' e b' Hb'). f_equal; [|f_equal].
  - apply bucket_elements_ext; [rewrite !length_take; lia|].
    intros j. unfold occupant. destruct (decide (j < e)).
    + rewrite !lookup_take_lt by done. apply Hocc. lia.
    + rewrite !lookup_take_ge by lia. done.
  - apply bucket_elements_ext; [rewrite !length_drop; lia|].
    intros j. unfold occupant. rewrite !lookup_drop. apply Hocc. lia.
Qed.

Lemma bucket_elements_add (bs bs' : list hopscotch_bucket) e kv :
  length bs' = length bs → e < length bs →
  (∀ j, j ≠ e → occupant bs' j = occupant bs j) →
  occupant bs e = None → occupant bs' e = Some kv →
  bucket_elements bs' ≡ₚ kv :: bucket_elements bs.
Proof.
  intros Hlen He Hocc Hnone Hsome.
  destruct (bucket_elements_update bs bs' e Hlen He Hocc) as (l1 & l2 & -> & ->).
  rewrite Hnone, Hsome. simpl. by rewrite Permutation_middle.
Qed.

Lemma bucket_elements_remove (bs bs' : list hopscotch_bucket) e kv :
  length bs' = length bs → e < length bs →
  (∀ j, j ≠ e → occupant bs' j = occupant bs j) →
  occupant bs e = Some kv → occupant bs' e = None →
  bucket_elements bs ≡ₚ kv :: bucket_elements bs'.
Proof.
  intros Hlen He Hocc Hsome Hnone.
  destruct (bucket_elements_update bs bs' e Hlen He Hocc) as (l1 & l2 & -> & ->).
  rewrite Hnone, Hsome. simpl. by rewrite Permutation_middle.
Qed.

(** *** [swap_empty_bucket_closer] *)

Lemma toggle_lookup (bs : list hopscotch_bucket) k c j b :
  bucket_wf b → k < NeighborhoodSize → bs !! j = Some b →
  ∃ b', alter (toggle_neighbor_presence k) c bs !! j = Some b' ∧
    bucket_wf b' ∧ m_key_value b' = m_key_value b ∧
    ∀ t, bit b' t = xorb (bit b t) (bool_decide (c = j ∧ t = k + 2)).
Proof.
  intros Hwf Hk Hb. rewrite lookup_alter_case, Hb. simpl. eexists. split; [done|].
  case_decide as Hc; simpl.
  - split_and!; [by apply bucket_wf_toggle|done|].
    intros t. rewrite bit_toggle_neighbor_presence by (done || apply Hwf). f_equal. bool_eq.
  - split_and!; [done..|]. intros t.
    rewrite bool_decide_eq_false_2 by (intros [? _]; done). by rewrite xorb_false_r.
Qed.

Lemma swap_into_empty_Ok m c s e m' :
  swap_into_empty m c s e = Ok m' →
  ∃ b_s b_e,
    m_buckets m !! s = Some b_s ∧ m_buckets m !! e = Some b_e ∧ c < length (m_buckets m) ∧
    m' = with_buckets m
      (alter (toggle_neighbor_presence (s - c)) c
        (alter (toggle_neighbor_presence (e - c)) c
          (<[e := (swap_key_value_with_empty_bucket b_s b_e).2]>
            (<[s := (swap_key_value_with_empty_bucket b_s b_e).1]> (m_buckets m))))).
Proof.
  unfold swap_into_empty.
  intros (b_s & Hs%bucket_at_Ok & H)%bind_Ok.
  apply bind_Ok in H as (b_e & He%bucket_at_Ok & H).
  destruct (swap_key_value_with_empty_bucket b_s b_e) as [b_s' b_e'] eqn:Hswap.
  apply bind_Ok in H as (bs1 & [Hc ->]%modify_bucket_Ok & H).
  apply bind_Ok in H as (bs2 & [Hc' ->]%modify_bucket_Ok & [= <-]).
  rewrite !length_insert in Hc. exists b_s, b_e. by rewrite Hswap.
Qed.

Lemma swap_into_empty_lookup (bs : list hopscotch_bucket) c s e b_s b_e kv j b :
  (∀ j b, bs !! j = Some b → bucket_wf b) →
  bs !! s = Some b_s → bs !! e = Some b_e →
  m_key_value b_s = Some kv → m_key_value b_e = None →
  s < e → e - c < NeighborhoodSize → s - c < NeighborhoodSize →
  bs !! j = Some b →
  ∃ b', alter (toggle_neighbor_presence (s - c)) c
          (alter (toggle_neighbor_presence (e - c)) c
            (<[e := (swap_key_value_with_empty_bucket b_s b_e).2]>
              (<[s := (swap_key_value_with_empty_bucket b_s b_e).1]> bs))) !! j = Some b' ∧
    bucket_wf b' ∧
    m_key_value b' =
      (if decide (j = s) then None else if decide (j = e) then Some kv else m_key_value b) ∧
    ∀ t, bit b' t =
      xorb (xorb (bit b t && negb (bool_decide (j = s ∧ t = 0)) || bool_decide (j = e ∧ t = 0))
                 (bool_decide (c = j ∧ t = e - c + 2)))
           (bool_decide (c = j ∧ t = s - c + 2)).
Proof.
  intros Hwf Hs He Hkv Hnone Hse Hec Hsc Hb.
  destruct (swap_key_value_with_empty_bucket_spec b_s b_e kv)
    as (b_s' & b_e' & -> & Hwfs & Hwfe & Hkvs & Hkve & Hbits & Hbite); eauto.
  simpl.
  assert (∃ b1, <[e:=b_e']> (<[s:=b_s']> bs) !! j = Some b1 ∧ bucket_wf b1 ∧
    m_key_value b1 =
      (if decide (j = s) then None else if decide (j = e) then Some kv else m_key_value b) ∧
    ∀ t, bit b1 t = bit b t && negb (bool_decide (j = s ∧ t = 0)) || bool_decide (j = e ∧ t = 0))
    as (b1 & Hb1 & Hwf1 & Hkv1 & Hbit1).
  { pose proof (lookup_lt_Some _ _ _ Hs). pose proof (lookup_lt_Some _ _ _ He).
    destruct (decide (j = e)) as [->|Hje].
    - exists b_e'. rewrite list_lookup_insert_eq by (rewrite length_insert; lia).
      assert (b = b_e) as -> by congruence.
      split_and!; [done..| |].
      + rewrite decide_False by lia. done.
      + intros t. rewrite Hbite. f_equal; [|bool_eq].
        rewrite bool_decide_eq_false_2 by lia. by rewrite andb_true_r.
    - rewrite list_lookup_insert_ne by done.
      destruct (decide (j = s)) as [->|Hjs].
      + exists b_s'. rewrite list_lookup_insert_eq by lia.
        assert (b = b_s) as -> by congruence.
        split_and!; [done..|].
        intros t. rewrite Hbits. rewrite (bool_decide_eq_false_2 (s = e ∧ _)) by lia.
        rewrite orb_false_r. f_equal. f_equal. bool_eq.
      + exists b. rewrite list_lookup_insert_ne by done.
        split_and!; [by eauto..|].
        intros t. rewrite !bool_decide_eq_false_2 by lia. simpl.
        by rewrite andb_true_r, orb_false_r. }
  destruct (toggle_lookup _ (e - c) c j b1 Hwf1 Hec Hb1) as (b2 & Hb2 & Hwf2 & Hkv2 & Hbit2).
  destruct (toggle_lookup _ (s - c) c j b2 Hwf2 Hsc Hb2) as (b3 & Hb3 & Hwf3 & Hkv3 & Hbit3).
  exists b3. split_and!; [done..|congruence|].
  intros t. by rewrite Hbit3, Hbit2, Hbit1.
Qed.

Lemma buckets_inv_swap (bs : list hopscotch_bucket) c s e b_c b_s b_e :
  buckets_inv bs →
  bs !! c = Some b_c → bs !! s = Some b_s → bs !! e = Some b_e →
  m_key_value b_e = None → bit b_c (s - c + 2) = true →
  c ≤ s → s < e → e - c < NeighborhoodSize →
  let bs' := alter (toggle_neighbor_presence (s - c)) c
               (alter (toggle_neighbor_presence (e - c)) c
                 (<[e := (swap_key_value_with_empty_bucket b_s b_e).2]>
                   (<[s := (swap_key_value_with_empty_bucket b_s b_e).1]> bs))) in
  buckets_inv bs' ∧ length bs' = length bs ∧
  (∀ j, occupant bs' j =
        if decide (j = s) then None else if decide (j = e) then occupant bs s
        else occupant bs j) ∧
  (∀ j b b', bs !! j = Some b → bs' !! j = Some b' → bit b' 1 = bit b 1).
Proof.
  intros Hinv Hc Hs He Hnone Hbit Hcs Hse Hec bs'.
  pose proof (inv_wf _ Hinv) as Hwf.
  destruct (proj1 (inv_neighborhood _ Hinv c b_c (s - c) Hc) Hbit) as (kv & Hkv & Hhome).
  replace (c + (s - c)) with s in Hkv by lia.
  assert (m_key_value b_s = Some kv) as Hkvs by (by rewrite <-(occupant_lookup _ _ _ Hs)).
  assert (length bs' = length bs) as Hlen
    by (unfold bs'; by rewrite !length_alter, !length_insert).
  assert (Hlook : ∀ j b, bs !! j = Some b → ∃ b', bs' !! j = Some b' ∧ bucket_wf b' ∧
    m_key_value b' =
      (if decide (j = s) then None else if decide (j = e) then Some kv else m_key_value b) ∧
    ∀ t, bit b' t =
      xorb (xorb (bit b t && negb (bool_decide (j = s ∧ t = 0)) || bool_decide (j = e ∧ t = 0))
                 (bool_decide (c = j ∧ t = e - c + 2)))
           (bool_decide (c = j ∧ t = s - c + 2))).
  { intros j b Hb. apply (swap_into_empty_lookup bs c s e b_s b_e kv j b); auto. lia. }
  assert (Hocc : ∀ j, occupant bs' j =
        if decide (j = s) then None else if decide (j = e) then occupant bs s
        else occupant bs j).
  { intros j. unfold occupant at 1. destruct (bs !! j) as [b|] eqn:Hb.
    - destruct (Hlook j b Hb) as (b' & Hb' & _ & Hkv' & _). rewrite Hb'. simpl.
      rewrite Hkv', Hkv. by rewrite (occupant_lookup _ _ _ Hb).
    - rewrite (lookup_same_length bs) by done. simpl.
      apply lookup_ge_None in Hb.
      apply lookup_lt_Some in Hs, He. rewrite !decide_False by lia.
      unfold occupant. by rewrite (proj2 (lookup_ge_None _ _) Hb). }
  split_and!; [split| done.. |].
  - rewrite Hlen. apply Hinv.
  - intros j b' Hb'. destruct (lookup_same_length_Some bs bs' j b' Hlen Hb') as [b Hb].
    destruct (Hlook j b Hb) as (b'' & Hb'' & Hwf' & _). congruence.
  - intros i' b' k Hb'. destruct (lookup_same_length_Some bs bs' i' b' Hlen Hb') as [b Hb].
    destruct (Hlook i' b Hb) as (b'' & Hb'' & _ & _ & Hbit').
    assert (b'' = b') as -> by congruence.
    rewrite Hbit', Hocc. clear Hbit' Hb' Hb''.
    rewrite !(bool_decide_eq_false_2 (_ ∧ k + 2 = 0)) by lia.
    simpl. rewrite andb_true_r, orb_false_r.
    pose proof (inv_neighborhood _ Hinv i' b k Hb) as Hold.
    unfold home_in in Hold, Hhome |- *. rewrite Hlen.
    destruct (decide (c = i')) as [<-|Hci].
    + assert (b = b_c) as -> by congruence.
      destruct (decide (k = e - c)) as [->|Hke].
      * rewrite bool_decide_eq_true_2 by done.
        rewrite (bool_decide_eq_false_2 (_ ∧ e - c + 2 = _)) by lia.
        replace (c + (e - c)) with e in * by lia.
        rewrite decide_False, decide_True by (done || lia).
        rewrite xorb_false_r, xorb_true_r.
        destruct (bit b_c (e - c + 2)).
        -- destruct (proj1 Hold eq_refl) as (? & Hx & _).
           rewrite (occupant_lookup _ _ _ He) in Hx. congruence.
        -- split; [eauto|done].
      * rewrite (bool_decide_eq_false_2 (c = c ∧ k + 2 = e - c + 2)) by lia.
        rewrite xorb_false_r.
        destruct (decide (k = s - c)) as [->|Hks].
        -- rewrite bool_decide_eq_true_2 by done. rewrite Hbit. simpl.
           replace (c + (s - c)) with s by lia. rewrite decide_True by done.
           split; [done|]. by intros (? & ? & _).
        -- rewrite bool_decide_eq_false_2 by lia. rewrite xorb_false_r.
           rewrite !decide_False by lia. done.
    + rewrite !bool_decide_eq_false_2 by (intros [? _]; done).
      rewrite !xorb_false_r. rewrite Hold.
      destruct (decide (i' + k = s)) as [Hiks|Hiks].
      * rewrite Hiks, Hkv. split; [|by intros (? & ? & _)].
        intros (? & [= <-] & ?). congruence.
      * destruct (decide (i' + k = e)) as [Hike|Hike]; [|done].
        rewrite Hike, Hkv, (occupant_lookup _ _ _ He), Hnone.
        split; [by intros (? & ? & _)|]. intros (? & [= <-] & ?). congruence.
  - intros j kv' Hkv'. rewrite Hocc in Hkv'. rewrite (home_in_length bs bs') by done.
    destruct (decide (j = s)); [done|].
    destruct (decide (j = e)) as [->|]; [|by apply (inv_range _ Hinv)].
    assert (kv' = kv) as -> by congruence. lia.
  - intros j b b' Hb Hb'. destruct (Hlook j b Hb) as (b'' & Hb'' & _ & _ & Hbit').
    assert (b'' = b') as -> by congruence. rewrite Hbit'.
    rewrite !bool_decide_eq_false_2 by lia. simpl.
    by rewrite andb_true_r, orb_false_r, !xorb_false_r.
Qed.

Lemma testbit_get_neighborhood_infos b t :
  bits_fit b → Z.testbit (get_neighborhood_infos b) (Z.of_nat t) = bit b (t + 2).
Proof.
  intros Hfit. unfold get_neighborhood_infos, NB_RESERVED_BITS_IN_NEIGHBORHOOD.
  rewrite testbit_to_bitmap, Z.shiftr_spec by lia.
  replace (Z.of_nat t + Z.of_nat 2)%Z with (Z.of_nat (t + 2)) by lia.
  fold (bit b (t + 2)). destruct (bit b (t + 2)) eqn:Hb; [|apply andb_false_r].
  apply Hfit in Hb. rewrite andb_true_r. apply Z.ltb_lt. lia.
Qed.

Lemma get_neighborhood_infos_nonneg b : (0 ≤ get_neighborhood_infos b)%Z.
Proof.
  unfold get_neighborhood_infos, to_bitmap. apply Z.mod_pos_bound.
  pose proof bitmap_bits_nonneg. lia.
Qed.

Lemma testbit_xO p t :
  Z.testbit (Zpos p~0) (Z.of_nat t) =
  match t with 0 => false | S t' => Z.testbit (Zpos p) (Z.of_nat t') end.
Proof.
  destruct t as [|t']; [done|].
  rewrite Nat2Z.inj_succ, Pos2Z.inj_xO. apply Z.testbit_even_succ. lia.
Qed.

Lemma testbit_xI p t :
  Z.testbit (Zpos p~1) (Z.of_nat t) =
  match t with 0 => true | S t' => Z.testbit (Zpos p) (Z.of_nat t') end.
Proof.
  destruct t as [|t']; [done|].
  rewrite Nat2Z.inj_succ, Pos2Z.inj_xI. apply Z.testbit_odd_succ. lia.
Qed.

Lemma first_to_swap_Some p : ∀ to_swap e s,
  first_to_swap p to_swap e = Some s →
  ∃ t, s = to_swap + t ∧ s < e ∧ Z.testbit (Zpos p) (Z.of_nat t) = true ∧
       ∀ t', t' < t → Z.testbit (Zpos p) (Z.of_nat t') = false.
Proof.
  induction p as [p IH|p IH|]; intros to_swap e s; simpl;
    destruct (Nat.ltb_spec to_swap e); simpl; try done.
  - intros [= <-]. exists 0. split_and!; [lia|done|done|lia].
  - intros (t & -> & Hlt & Hbit & Hmin)%IH. exists (S t).
    rewrite testbit_xO. split_and!; [lia|done|done|].
    intros [|t'] Ht'; rewrite testbit_xO; [done|]. apply Hmin. lia.
  - intros [= <-]. exists 0. split_and!; [lia|done|done|lia].
Qed.

Lemma first_to_swap_None p : ∀ to_swap e,
  first_to_swap p to_swap e = None →
  ∀ t, Z.testbit (Zpos p) (Z.of_nat t) = true → e ≤ to_swap + t.
Proof.
  induction p as [p IH|p IH|]; intros to_swap e; simpl;
    destruct (Nat.ltb_spec to_swap e); simpl; try done; try (intros; lia).
  intros Hnone [|t]; rewrite testbit_xO; [done|].
  intros Hbit. specialize (IH _ _ Hnone t Hbit). lia.
Qed.

Lemma swap_empty_bucket_closer_loop_spec m e : ∀ steps to_check r,
  to_check + steps = e →
  swap_empty_bucket_closer_loop m steps to_check e = Ok r →
  (∃ c s, hop_candidate (m_buckets m) to_check e c s ∧
          swap_into_empty m c s e = Ok r.1.1 ∧ r.1.2 = s ∧ r.2 = true) ∨
  (r = (m, e, false) ∧ no_hop_candidate (m_buckets m) to_check e).
Proof.
  induction steps as [|steps IH]; intros to_check r Hsteps; simpl.
  - intros [= <-]. right. split; [done|]. intros c' b' t ??. lia.
  - intros (b & Hb%bucket_at_Ok & H)%bind_Ok.
    destruct (match get_neighborhood_infos b with
              | Zpos neighborhood_infos => first_to_swap neighborhood_infos to_check e
              | _ => None
              end) as [s|] eqn:Hfirst.
    + apply bind_Ok in H as (m' & Hswap & [= <-]).
      destruct (get_neighborhood_infos b) as [|p|p] eqn:Hinfos; try done.
      apply first_to_swap_Some in Hfirst as (t & -> & Hlt & Hbit & Hmin).
      left. exists to_check, (to_check + t). simpl. split_and!; try done.
      split_and!; [lia..| |intros; lia].
      exists b. rewrite Hinfos. replace (to_check + t - to_check) with t by lia. done.
    + destruct (IH (S to_check) r ltac:(lia) H) as [(c & s & Hcand & Hrest)|[-> Hno]].
      * left. exists c, s. split; [|done].
        destruct Hcand as (? & ? & ? & ? & Hlow). split_and!; [lia|done..|].
        intros c' b' t Hc' Hc'' Hb' Hbit.
        destruct (decide (c' = to_check)) as [->|]; [|apply (Hlow c' b' t); [lia|done..]].
        assert (b' = b) as -> by congruence.
        destruct (get_neighborhood_infos b) as [|p|p] eqn:Hinfos.
        -- by rewrite Z.bits_0 in Hbit.
        -- by apply (first_to_swap_None p).
        -- pose proof (get_neighborhood_infos_nonneg b). lia.
      * right. split; [done|]. intros c' b' t Hc' Hc'' Hb' Hbit.
        destruct (decide (c' = to_check)) as [->|]; [|apply (Hno c' b' t); [lia|done..]].
        assert (b' = b) as -> by congruence.
        destruct (get_neighborhood_infos b) as [|p|p] eqn:Hinfos.
        -- by rewrite Z.bits_0 in Hbit.
        -- by apply (first_to_swap_None p).
        -- pose proof (get_neighborhood_infos_nonneg b). lia.
Qed.

Lemma same_flags_refl bs : same_flags bs bs.
Proof. split; [done|]. intros j b b' Hb Hb'. congruence. Qed.

Lemma same_flags_trans bs1 bs2 bs3 :
  same_flags bs1 bs2 → same_flags bs2 bs3 → same_flags bs1 bs3.
Proof.
  intros [Hlen1 H1] [Hlen2 H2]. split; [congruence|].
  intros j b b' Hb Hb'.
  destruct (lookup_lt_is_Some_2 bs2 j) as [b2 Hb2].
  { apply lookup_lt_Some in Hb. lia. }
  rewrite (H2 j b2 b' Hb2 Hb'). by apply (H1 j).
Qed.

Lemma bucket_elements_move (bs bs' : list hopscotch_bucket) s e kv :
  length bs' = length bs → s ≠ e → e < length bs →
  occupant bs s = Some kv → occupant bs e = None →
  (∀ j, occupant bs' j =
        if decide (j = s) then None else if decide (j = e) then Some kv else occupant bs j) →
  bucket_elements bs' ≡ₚ bucket_elements bs.
Proof.
  intros Hlen Hse He Hs Hnone Hocc.
  pose proof (occupant_lt _ _ _ Hs) as Hslt.
  set (bs1 := <[s := empty_bucket]> bs).
  assert (length bs1 = length bs) as Hlen1 by apply length_insert.
  assert (∀ j, occupant bs1 j = if decide (j = s) then None else occupant bs j) as Hocc1.
  { intros j. unfold occupant, bs1. case_decide as Hj.
    - subst. by rewrite list_lookup_insert_eq.
    - by rewrite list_lookup_insert_ne. }
  transitivity (kv :: bucket_elements bs1).
  - apply (bucket_elements_add bs1 bs' e kv); [lia..| | |].
    + intros j Hj. rewrite Hocc, Hocc1. case_decide; [done|]. by rewrite decide_False.
    + rewrite Hocc1. by rewrite decide_False.
    + rewrite Hocc. rewrite decide_False, decide_True; done.
  - symmetry. apply (bucket_elements_remove bs bs1 s kv); [done..| | |].
    + intros j Hj. rewrite Hocc1. by rewrite decide_False.
    + done.
    + rewrite Hocc1. by rewrite decide_True.
Qed.

Lemma swap_empty_bucket_closer_inv m e m' e' swapped :
  buckets_inv (m_buckets m) → occupant (m_buckets m) e = None → e < length (m_buckets m) →
  NeighborhoodSize ≤ e →
  swap_empty_bucket_closer m e = Ok (m', e', swapped) →
  buckets_inv (m_buckets m') ∧ same_flags (m_buckets m) (m_buckets m') ∧
  same_settings m m' ∧ m_nb_elements m' = m_nb_elements m ∧
  bucket_elements (m_buckets m') ≡ₚ bucket_elements (m_buckets m) ∧
  if swapped then
    e - NeighborhoodSize + 1 ≤ e' ∧ e' < e ∧ occupant (m_buckets m') e' = None ∧
    is_Some (occupant (m_buckets m') e) ∧
    (∀ j, j ≠ e' → j ≠ e → occupant (m_buckets m') j = occupant (m_buckets m) j)
  else m' = m ∧ e' = e.
Proof.
  intros Hinv Hnone He HN. unfold swap_empty_bucket_closer. intros Hloop.
  apply swap_empty_bucket_closer_loop_spec in Hloop; [|lia].
  destruct Hloop as [(c & s & Hcand & Hswap & Hs & Hsw)|[[= -> -> ->] Hno]]; simpl in *.
  - subst e' swapped.
    destruct Hcand as (Hc1 & Hc2 & Hc3 & (b_c & Hbc & Hbit & _) & _).
    apply swap_into_empty_Ok in Hswap as (b_s & b_e & Hbs & Hbe & _ & ->).
    rewrite testbit_get_neighborhood_infos in Hbit by (eapply wf_fit, inv_wf; eauto).
    assert (m_key_value b_e = None) as Hnone' by (by rewrite <-(occupant_lookup _ _ _ Hbe)).
    destruct (buckets_inv_swap (m_buckets m) c s e b_c b_s b_e)
      as (Hinv' & Hlen & Hocc & Hflags); try done; [lia|].
    destruct (proj1 (inv_neighborhood _ Hinv c b_c (s - c) Hbc) Hbit) as (kv & Hkv & _).
    replace (c + (s - c)) with s in Hkv by lia.
    simpl. split_and!; try done.
    + apply (bucket_elements_move _ _ s e kv); [done|lia|done..|].
      intros j. rewrite Hocc. by rewrite Hkv.
    + lia.
    + rewrite Hocc. by rewrite decide_True.
    + rewrite Hocc. rewrite decide_False, decide_True by (done || lia). by rewrite Hkv.
    + intros j ??. rewrite Hocc. by rewrite !decide_False.
  - split_and!; try done. apply same_flags_refl.
Qed.

Lemma insert_in_bucket_inv m kv e i r :
  buckets_inv (m_buckets m) → occupant (m_buckets m) e = None →
  i = home_in (m_buckets m) kv.1 → i ≤ e → e - i < NeighborhoodSize →
  insert_in_bucket m kv e i = Ok r →
  buckets_inv (m_buckets r.1) ∧ same_flags (m_buckets m) (m_buckets r.1) ∧
  same_settings m r.1 ∧ m_nb_elements r.1 = m_nb_elements m + 1 ∧
  bucket_elements (m_buckets r.1) ≡ₚ kv :: bucket_elements (m_buckets m) ∧
  r.2 = e ∧ occupant (m_buckets r.1) e = Some kv.
Proof.
  intros Hinv Hnone Hi Hle Hlt (He & _ & Hr & Hbs & Hov & Hn & Hml & Hth)%insert_in_bucket_Ok.
  pose proof (inv_wf _ Hinv) as Hwf.
  rewrite Hbs. split_and!; try done.
  - by apply buckets_inv_insert_in_bucket.
  - split; [by rewrite !length_alter|].
    intros j b b' Hb Hb'.
    destruct (insert_in_bucket_lookup _ kv e i j b Hwf Hlt Hb) as (b'' & Hb'' & _ & _ & Hbit).
    assert (b'' = b') as -> by congruence. rewrite Hbit.
    rewrite !bool_decide_eq_false_2 by lia. by rewrite orb_false_r, xorb_false_r.
  - apply (bucket_elements_add _ _ e kv); [by rewrite !length_alter|done| |done|].
    + intros j Hj. rewrite insert_in_bucket_occupant by done. by rewrite decide_False.
    + rewrite insert_in_bucket_occupant by done. by rewrite decide_True.
  - rewrite insert_in_bucket_occupant by done. by rewrite decide_True.
Qed.

Lemma find_empty_bucket_loop_spec (bs : list hopscotch_bucket) : ∀ steps i,
  find_empty_bucket_loop bs steps i = length bs ∨
  (i ≤ find_empty_bucket_loop bs steps i ∧ find_empty_bucket_loop bs steps i < i + steps ∧
   (∃ b, bs !! find_empty_bucket_loop bs steps i = Some b ∧ is_empty b = true) ∧
   ∀ j b', i ≤ j → j < find_empty_bucket_loop bs steps i → bs !! j = Some b' →
           is_empty b' = false).
Proof.
  induction steps as [|steps IH]; intros i; simpl; [by left|].
  destruct (bs !! i) as [b|] eqn:Hb; [|by left].
  destruct (is_empty b) eqn:He.
  - right. split_and!; [lia..|by eauto|]. intros; lia.
  - destruct (IH (S i)) as [->|(H1 & H2 & H3 & H4)]; [by left|right].
    split_and!; [lia..|done|].
    intros j b' Hj1 Hj2 Hb'. destruct (decide (j = i)) as [->|]; [congruence|].
    apply (H4 j); [lia|done..].
Qed.

Lemma find_empty_bucket_spec m i :
  find_empty_bucket m i < length (m_buckets m) →
  i ≤ find_empty_bucket m i ∧
  find_empty_bucket m i < i + MAX_LINEAR_PROBE_SEARCH_EMPTY_BUCKET ∧
  (∃ b, m_buckets m !! find_empty_bucket m i = Some b ∧ is_empty b = true) ∧
  ∀ j b', i ≤ j → j < find_empty_bucket m i → m_buckets m !! j = Some b' →
          is_empty b' = false.
Proof.
  unfold find_empty_bucket. cbv zeta.
  set (steps := _ - i). assert (steps ≤ MAX_LINEAR_PROBE_SEARCH_EMPTY_BUCKET) by lia.
  clearbody steps. intros Hlt.
  destruct (find_empty_bucket_loop_spec (m_buckets m) steps i)
    as [Heq|(H1 & H2 & H3 & H4)]; [lia|].
  split_and!; [done|lia|done..].
Qed.

Lemma insert_do_while_inv kv i : ∀ gas m e r,
  buckets_inv (m_buckets m) → occupant (m_buckets m) e = None → e < length (m_buckets m) →
  i = home_in (m_buckets m) kv.1 → i ≤ e →
  insert_do_while gas m kv e i = Ok r →
  buckets_inv (m_buckets r.1) ∧ same_flags (m_buckets m) (m_buckets r.1) ∧
  same_settings m r.1 ∧
  match r.2 with
  | Some it =>
      m_nb_elements r.1 = m_nb_elements m + 1 ∧
      bucket_elements (m_buckets r.1) ≡ₚ kv :: bucket_elements (m_buckets m) ∧
      m_buckets_end_iterator it = length (m_buckets r.1) ∧
      m_overflow_iterator it = 0 ∧
      i ≤ m_buckets_iterator it ∧ m_buckets_iterator it < i + NeighborhoodSize ∧
      occupant (m_buckets r.1) (m_buckets_iterator it) = Some kv
  | None =>
      m_nb_elements r.1 = m_nb_elements m ∧
      bucket_elements (m_buckets r.1) ≡ₚ bucket_elements (m_buckets m)
  end.
Proof.
  induction gas as [|gas IH]; intros m e r Hinv Hnone He Hi Hle; simpl; [done|].
  destruct (Nat.ltb_spec (e - i) NeighborhoodSize) as [Hlt|Hge].
  - intros (r' & Hins & [= <-])%bind_Ok. simpl.
    destruct (insert_in_bucket_inv m kv e i r') as (? & ? & ? & ? & ? & -> & ?); try done.
    split_and!; try done; lia.
  - intros ([[m' e'] swapped] & Hswap & H)%bind_Ok.
    destruct (swap_empty_bucket_closer_inv m e m' e' swapped)
      as (Hinv' & Hflags & Hset & Hn & Hperm & Hsw); try done; [lia|].
    destruct swapped.
    + destruct Hsw as (He'1 & He'2 & Hnone' & _ & _).
      pose proof (proj1 Hflags) as Hlen.
      assert (e' < length (m_buckets m')) as He' by lia.
      assert (i = home_in (m_buckets m') kv.1) as Hi'
        by (by rewrite (home_in_length (m_buckets m))).
      assert (i ≤ e') as Hle' by lia.
      destruct (IH m' e' r Hinv' Hnone' He' Hi' Hle' H) as (Hinv'' & Hflags'' & Hset'' & Hres).
      split; [done|]. split; [by eapply same_flags_trans|]. split.
      { destruct Hset as (? & ? & ?), Hset'' as (? & ? & ?). split_and!; congruence. }
      destruct (r.2); by rewrite <-Hn, <-Hperm.
    + destruct Hsw as [-> ->]. injection H as <-. simpl.
      split; [done|]. split; [apply same_flags_refl|]. done.
Qed.

(** ** The container *)

Lemma home_home_in m key : home m key = home_in (m_buckets m) key.
Proof. done. Qed.

(** A change of overflow flags only. *)
Lemma buckets_inv_flags (bs bs' : list hopscotch_bucket) :
  length bs' = length bs →
  (∀ j b, bs !! j = Some b → ∃ b', bs' !! j = Some b' ∧ bucket_wf b' ∧
     m_key_value b' = m_key_value b ∧ ∀ t, t ≠ 1 → bit b' t = bit b t) →
  buckets_inv bs →
  buckets_inv bs' ∧ (∀ j, occupant bs' j = occupant bs j) ∧
  bucket_elements bs' = bucket_elements bs.
Proof.
  intros Hlen Hlook Hinv.
  assert (∀ j, occupant bs' j = occupant bs j) as Hocc.
  { intros j. unfold occupant. destruct (bs !! j) as [b|] eqn:Hb.
    - destruct (Hlook j b Hb) as (b' & -> & _ & Hkv & _). done.
    - by rewrite (lookup_same_length bs bs'). }
  split_and!; [split|done|by apply bucket_elements_ext].
  - rewrite Hlen. apply Hinv.
  - intros j b' Hb'. destruct (lookup_same_length_Some bs bs' j b' Hlen Hb') as [b Hb].
    destruct (Hlook j b Hb) as (b'' & Hb'' & Hwf & _). congruence.
  - intros i b' k Hb'. destruct (lookup_same_length_Some bs bs' i b' Hlen Hb') as [b Hb].
    destruct (Hlook i b Hb) as (b'' & Hb'' & _ & _ & Hbit).
    assert (b'' = b') as -> by congruence.
    rewrite Hbit by lia. rewrite Hocc. unfold home_in. rewrite Hlen.
    apply (inv_neighborhood _ Hinv i b k Hb).
  - intros j kv. rewrite Hocc, (home_in_length bs bs') by done. apply Hinv.
Qed.

Lemma set_overflow_lookup (bs : list hopscotch_bucket) o i j b :
  bucket_wf b → bs !! j = Some b →
  ∃ b', alter (set_overflow o) i bs !! j = Some b' ∧ bucket_wf b' ∧
    m_key_value b' = m_key_value b ∧
    (∀ t, t ≠ 1 → bit b' t = bit b t) ∧
    bit b' 1 = if decide (i = j) then o else bit b 1.
Proof.
  intros Hwf Hb. rewrite lookup_alter_case, Hb. simpl. eexists. split; [done|].
  case_decide; simpl; [|done].
  split_and!.
  - by apply bucket_wf_set_overflow.
  - apply key_value_set_overflow.
  - intros t Ht. rewrite bit_set_overflow by apply Hwf.
    apply Nat.eqb_neq in Ht. rewrite Ht. destruct o; simpl;
      [apply orb_false_r|apply andb_true_r].
  - rewrite bit_set_overflow by apply Hwf. destruct o; simpl;
      [apply orb_true_r|apply andb_false_r].
Qed.

Lemma buckets_inv_set_overflow (bs : list hopscotch_bucket) o i :
  buckets_inv bs →
  buckets_inv (alter (set_overflow o) i bs) ∧
  (∀ j, occupant (alter (set_overflow o) i bs) j = occupant bs j) ∧
  bucket_elements (alter (set_overflow o) i bs) = bucket_elements bs.
Proof.
  intros Hinv. apply buckets_inv_flags; [by rewrite length_alter| |done].
  intros j b Hb.
  destruct (set_overflow_lookup bs o i j b (inv_wf _ Hinv _ _ Hb) Hb)
    as (b' & ? & ? & ? & ? & _). eauto.
Qed.

(** *** The constructor *)

Lemma round_up_loop_pow2 : ∀ fuel power value,
  (∃ p, power = 2 ^ p) → ∃ p, round_up_loop fuel power value = 2 ^ p.
Proof.
  induction fuel as [|fuel IH]; intros power value [p ->]; simpl; [by eauto|].
  destruct (2 ^ p <? value); [|by eauto].
  apply IH. exists (S p). rewrite Nat.pow_succ_r'. lia.
Qed.

Lemma round_up_to_power_of_two_pow2 value : ∃ p, round_up_to_power_of_two value = 2 ^ p.
Proof. apply round_up_loop_pow2. by exists 0. Qed.

Lemma round_up_loop_ge : ∀ fuel power value,
  0 < power → value ≤ power + fuel → value ≤ round_up_loop fuel power value.
Proof.
  induction fuel as [|fuel IH]; intros power value Hpos Hle; simpl; [lia|].
  destruct (Nat.ltb_spec power value); [|done].
  apply IH; lia.
Qed.

Lemma round_up_to_power_of_two_ge value : value ≤ round_up_to_power_of_two value.
Proof. apply round_up_loop_ge; lia. Qed.

Lemma occupant_replicate n j : occupant (replicate n empty_bucket) j = None.
Proof.
  unfold occupant. destruct (replicate n empty_bucket !! j) as [b|] eqn:Hb; [|done].
  by apply lookup_replicate in Hb as [-> _].
Qed.

Lemma bucket_elements_replicate n : bucket_elements (replicate n empty_bucket) = [].
Proof. unfold bucket_elements. induction n; simpl; done. Qed.

Lemma buckets_inv_replicate p :
  buckets_inv (replicate (2 ^ p + NeighborhoodSize - 1) empty_bucket).
Proof.
  split.
  - exists p. by rewrite length_replicate.
  - intros j b [-> _]%lookup_replicate. apply bucket_wf_empty_bucket.
  - intros i b k [-> _]%lookup_replicate. rewrite occupant_replicate.
    unfold bit. simpl. rewrite Z.bits_0. split; [done|]. by intros (? & ? & _).
  - intros j kv. by rewrite occupant_replicate.
Qed.

Lemma hopscotch_map_new_inv cnt ml :
  map_inv (hopscotch_map_new cnt ml) ∧
  elements (hopscotch_map_new cnt ml) = [] ∧
  m_nb_elements (hopscotch_map_new cnt ml) = 0 ∧
  m_max_load_factor (hopscotch_map_new cnt ml) = ml ∧
  round_up_to_power_of_two cnt ≤ bucket_count (hopscotch_map_new cnt ml).
Proof.
  unfold hopscotch_map_new, USE_POWER_OF_TWO_MOD, map_inv, elements, overflow_flagged,
    bucket_count.
  destruct (round_up_to_power_of_two_pow2 cnt) as [p ->]. simpl.
  rewrite bucket_elements_replicate, length_replicate. simpl.
  split_and!; try done.
  - apply buckets_inv_replicate.
  - intros kv Hkv. by apply elem_of_nil in Hkv.
  - lia.
Qed.

(** *** Placing a new pair *)

Lemma overflow_flagged_same_flags m m' :
  overflow_flagged m → same_flags (m_buckets m) (m_buckets m') →
  m_overflow_elements m' = m_overflow_elements m → overflow_flagged m'.
Proof.
  intros Hfl [Hlen Hflags] Hov kv Hkv. rewrite Hov in Hkv.
  destruct (Hfl kv Hkv) as (b & Hb & Hbit).
  rewrite home_home_in, (home_in_length (m_buckets m)) by done.
  rewrite home_home_in in Hb.
  destruct (lookup_lt_is_Some_2 (m_buckets m') (home_in (m_buckets m) kv.1)) as [b' Hb'].
  { apply lookup_lt_Some in Hb. lia. }
  exists b'. split; [done|]. rewrite has_overflow_bit in *.
  by rewrite (Hflags _ _ _ Hb Hb').
Qed.

Lemma deref_bucket m it kv :
  m_buckets_end_iterator it = length (m_buckets m) →
  occupant (m_buckets m) (m_buckets_iterator it) = Some kv →
  deref m it = Ok kv.
Proof.
  intros Hend Hocc. pose proof (occupant_lt _ _ _ Hocc) as Hlt.
  apply occupant_Some in Hocc as (b & Hb & Hkv).
  unfold deref. rewrite Hend. destruct (Nat.eqb_spec (m_buckets_iterator it)
    (length (m_buckets m))); [lia|]. simpl.
  unfold bucket_at. rewrite Hb. simpl. unfold get_key_value. by rewrite Hkv.
Qed.

Lemma length_elements m :
  length (elements m) =
  length (bucket_elements (m_buckets m)) + length (m_overflow_elements m).
Proof. unfold elements. apply length_app. Qed.

Lemma insert_internal_place_inv m kv i r :
  map_inv m → i = home m kv.1 →
  insert_internal_place m kv i = Ok r →
  match r with
  | inl done =>
      map_inv done.1 ∧ elements done.1 ≡ₚ kv :: elements m ∧
      m_nb_elements done.1 = m_nb_elements m + 1 ∧
      done.2.2 = true ∧ deref done.1 done.2.1 = Ok kv ∧
      length (m_buckets done.1) = length (m_buckets m) ∧
      m_max_load_factor done.1 = m_max_load_factor m ∧
      m_load_threshold done.1 = m_load_threshold m
  | inr m' =>
      map_inv m' ∧ elements m' ≡ₚ elements m ∧
      m_nb_elements m' = m_nb_elements m ∧
      length (m_buckets m') = length (m_buckets m) ∧
      m_max_load_factor m' = m_max_load_factor m ∧
      m_load_threshold m' = m_load_threshold m
  end.
Proof.
  intros (Hinv & Hfl & Hcount) Hi. unfold insert_internal_place.
  destruct (Nat.ltb_spec (find_empty_bucket m i) (length (m_buckets m))) as [He|_];
    [|by intros [= <-]].
  destruct (find_empty_bucket_spec m i He) as (Hle & _ & (b_e & Hbe & Hempty) & _).
  assert (occupant (m_buckets m) (find_empty_bucket m i) = None) as Hnone.
  { rewrite (occupant_lookup _ _ _ Hbe). by apply bucket_wf_empty; [eapply inv_wf|]. }
  intros ([m1 [it|]] & Hloop & H)%bind_Ok.
  - injection H as <-.
    destruct (insert_do_while_inv kv i _ _ _ _ Hinv Hnone He Hi Hle Hloop)
      as (Hinv1 & Hflags1 & Hset1 & Hn & Hperm & Hend & Hov & _ & _ & Hocc).
    simpl in *. pose proof Hset1 as (Hov1 & Hml1 & Hth1).
    pose proof (Permutation_length Hperm) as Hplen. simpl in Hplen.
    split_and!; try done.
    + split_and!; [done|by eapply overflow_flagged_same_flags|].
      rewrite length_elements in *. rewrite Hov1. lia.
    + unfold elements. by rewrite Hperm, Hov1.
    + by apply deref_bucket.
    + apply Hflags1.
  - destruct (insert_do_while_inv kv i _ _ _ _ Hinv Hnone He Hi Hle Hloop)
      as (Hinv1 & Hflags1 & Hset1 & Hn & Hperm).
    simpl in *. pose proof Hset1 as (Hov1 & Hml1 & Hth1).
    pose proof (proj1 Hflags1) as Hlen1.
    pose proof (Permutation_length Hperm) as Hplen.
    assert (map_inv m1) as Hmap1.
    { split_and!; [done|by eapply overflow_flagged_same_flags|].
      rewrite length_elements in *. rewrite Hov1. lia. }
    assert (elements m1 ≡ₚ elements m) as Hel1.
    { unfold elements. by rewrite Hperm, Hov1. }
    apply bind_Ok in H as (change & _ & H).
    destruct change; simpl in H; [by injection H as <-|].
    apply bind_Ok in H as (bs & [Hilt ->]%modify_bucket_Ok & [= <-]). simpl.
    destruct (buckets_inv_set_overflow (m_buckets m1) true i Hinv1) as (Hinv2 & Hocc2 & Hel2).
    split_and!; try done.
    + split_and!; [done| |].
      * intros kv' Hkv'. simpl in Hkv'. unfold home, bucket_for_hash, bucket_count. simpl.
        rewrite length_alter.
        assert (∃ b, m_buckets m1 !! home m1 kv'.1 = Some b ∧
                  (has_overflow b = true ∨ home m1 kv'.1 = i)) as (b & Hb & Hor).
        { apply elem_of_app in Hkv' as [Hkv' | ->%list_elem_of_singleton].
          - destruct Hmap1 as (_ & Hfl1 & _). destruct (Hfl1 kv' Hkv') as (b & ? & ?). eauto.
          - assert (home m1 kv.1 = i) as ->.
            { rewrite Hi, !home_home_in. by apply home_in_length. }
            destruct (lookup_lt_is_Some_2 _ _ Hilt) as [b Hb]. eauto. }
        destruct (set_overflow_lookup (m_buckets m1) true i _ b
          (inv_wf _ Hinv1 _ _ Hb) Hb) as (b' & Hb' & _ & _ & _ & Hbit).
        exists b'. split; [done|]. rewrite has_overflow_bit in *. rewrite Hbit.
        case_decide; [done|]. by destruct Hor.
      * rewrite length_elements in *. simpl. rewrite Hel2, length_app. simpl.
        rewrite Hov1. lia.
    + unfold elements in *. simpl. rewrite Hel2. rewrite Hperm, Hov1.
      rewrite (assoc_L (++)). by rewrite <-Permutation_cons_append.
    + lia.
    + unfold deref. simpl. rewrite Nat.eqb_refl. simpl.
      rewrite length_app. simpl.
      replace (length (m_overflow_elements m1) + 1 - 1) with
        (length (m_overflow_elements m1) + 0) by lia.
      by rewrite lookup_app_r, Nat.add_0_r, Nat.sub_diag by lia.
    + rewrite length_alter. done.
Qed.

(** *** Rehash *)

Lemma rehash_buckets_inv ins :
  insert_ok ins → ∀ bs tmp tmp',
  map_inv tmp → rehash_buckets ins tmp bs = Ok tmp' →
  map_inv tmp' ∧ elements tmp' ⊆+ bucket_elements bs ++ elements tmp ∧
  m_max_load_factor tmp' = m_max_load_factor tmp ∧
  length (m_buckets tmp) ≤ length (m_buckets tmp').
Proof.
  intros Hins. induction bs as [|b bs IH]; intros tmp tmp' Hinv; simpl.
  - intros [= <-]. done.
  - destruct (is_empty b).
    + intros (? & Hsub & ? & ?)%IH; [|done]. split_and!; [done| |done..].
      etrans; [done|]. unfold bucket_elements. simpl.
      destruct (m_key_value b); [|done]. by apply submseteq_cons.
    + intros (kv & Hkv%of_option_Ok & H)%bind_Ok.
      apply bind_Ok in H as (r & Hr & H).
      destruct (Hins tmp kv r Hinv Hr) as (Hinv' & Hsub' & Hml' & Hlen' & _).
      apply IH in H as (? & Hsub & ? & ?); [|done].
      split_and!; [done| |congruence|lia].
      etrans; [done|]. unfold bucket_elements. simpl. rewrite Hkv. simpl.
      fold (bucket_elements bs).
      rewrite (Permutation_middle (bucket_elements bs) (elements tmp) kv).
      by apply submseteq_app.
Qed.

Lemma rehash_overflow_inv ins :
  insert_ok ins → ∀ l tmp tmp',
  map_inv tmp → rehash_overflow ins tmp l = Ok tmp' →
  map_inv tmp' ∧ elements tmp' ⊆+ l ++ elements tmp ∧
  m_max_load_factor tmp' = m_max_load_factor tmp ∧
  length (m_buckets tmp) ≤ length (m_buckets tmp').
Proof.
  intros Hins. induction l as [|kv l IH]; intros tmp tmp' Hinv; simpl.
  - intros [= <-]. done.
  - intros (r & Hr & H)%bind_Ok.
    destruct (Hins tmp kv r Hinv Hr) as (Hinv' & Hsub' & Hml' & Hlen' & _).
    apply IH in H as (? & Hsub & ? & ?); [|done].
    split_and!; [done| |congruence|lia].
    etrans; [done|]. rewrite (Permutation_middle l (elements tmp) kv).
    by apply submseteq_app.
Qed.

Lemma set_overflow_flags_inv : ∀ l tmp tmp',
  buckets_inv (m_buckets tmp) → set_overflow_flags tmp l = Ok tmp' →
  buckets_inv (m_buckets tmp') ∧
  bucket_elements (m_buckets tmp') = bucket_elements (m_buckets tmp) ∧
  length (m_buckets tmp') = length (m_buckets tmp) ∧
  m_overflow_elements tmp' = m_overflow_elements tmp ∧
  m_nb_elements tmp' = m_nb_elements tmp ∧
  m_max_load_factor tmp' = m_max_load_factor tmp ∧
  m_load_threshold tmp' = m_load_threshold tmp ∧
  (∀ j b, m_buckets tmp !! j = Some b → has_overflow b = true →
     ∃ b', m_buckets tmp' !! j = Some b' ∧ has_overflow b' = true) ∧
  (∀ kv, kv ∈ l → ∃ b, m_buckets tmp' !! home tmp kv.1 = Some b ∧ has_overflow b = true).
Proof.
  induction l as [|kv l IH]; intros tmp tmp' Hinv; simpl.
  - intros [= <-]. split_and!; try done; [by eauto|]. intros kv Hkv. by apply elem_of_nil in Hkv.
  - intros (bs & [Hlt ->]%modify_bucket_Ok & H)%bind_Ok.
    destruct (buckets_inv_set_overflow (m_buckets tmp) true
      (bucket_for_hash tmp (hash_of kv.1)) Hinv) as (Hinv1 & _ & Hel1).
    apply IH in H as (Hinv' & Hel' & Hlen' & Hov' & Hn' & Hml' & Hth' & Hmono & Hset);
      [|done].
    simpl in *. rewrite length_alter in Hlen'.
    assert (∀ j b, m_buckets tmp !! j = Some b →
      (has_overflow b = true ∨ j = bucket_for_hash tmp (hash_of kv.1)) →
      ∃ b', m_buckets tmp' !! j = Some b' ∧ has_overflow b' = true) as Hstep.
    { intros j b Hb Hor.
      destruct (set_overflow_lookup (m_buckets tmp) true
        (bucket_for_hash tmp (hash_of kv.1)) j b (inv_wf _ Hinv _ _ Hb) Hb)
        as (b1 & Hb1 & _ & _ & _ & Hbit).
      apply (Hmono j b1 Hb1). rewrite has_overflow_bit in *. rewrite Hbit.
      case_decide; [done|]. destruct Hor; [done|congruence]. }
    split_and!; try done; [congruence| |].
    + intros j b Hb Hfl. apply (Hstep j b Hb). by left.
    + intros kv' [->|Hkv']%elem_of_cons.
      * destruct (lookup_lt_is_Some_2 _ _ Hlt) as [b Hb].
        apply (Hstep _ b Hb). by right.
      * destruct (Hset kv' Hkv') as (b & Hb & ?). exists b. split; [|done].
        rewrite <-Hb. unfold home, bucket_for_hash, bucket_count. simpl.
        by rewrite length_alter.
Qed.

Lemma rehash_internal_with_inv ins m cnt m' :
  insert_ok ins →
  rehash_internal_with ins m cnt = Ok m' →
  map_inv m' ∧ elements m' ⊆+ elements m ∧
  m_max_load_factor m' = m_max_load_factor m ∧
  round_up_to_power_of_two cnt + NeighborhoodSize - 1 ≤ length (m_buckets m').
Proof.
  intros Hins. unfold rehash_internal_with.
  destruct (hopscotch_map_new_inv cnt (m_max_load_factor m))
    as (Hnew & Helnew & _ & Hmlnew & _).
  assert (length (m_buckets (hopscotch_map_new cnt (m_max_load_factor m))) =
          round_up_to_power_of_two cnt + NeighborhoodSize - 1) as Hlennew.
  { unfold hopscotch_map_new. simpl. by rewrite length_replicate. }
  destruct nothrow_move_constructible.
  - intros (tmp & Htmp & H)%bind_Ok.
    apply rehash_buckets_inv in Htmp as (Hinv & Hsub & Hml & Hlen); [|done..].
    rewrite Helnew, app_nil_r in Hsub.
    destruct (m_overflow_elements m) as [|kv0 ov] eqn:Hov.
    + injection H as <-. unfold elements at 2. rewrite Hov, app_nil_r.
      split_and!; [done..|congruence|lia].
    + destruct Hinv as (Hbinv & _ & Hcount).
      apply set_overflow_flags_inv in H
        as (Hinv' & Hel' & Hlen' & Hov' & Hn' & Hml' & Hth' & _ & Hset); [|done].
      simpl in *.
      assert (bucket_elements (m_buckets tmp) ⊆+ bucket_elements (m_buckets m)) as Hsub'.
      { etrans; [|done]. unfold elements. by apply submseteq_inserts_r. }
      split_and!; [split_and!| |congruence|lia].
      * done.
      * intros kv Hkv. rewrite Hov' in Hkv. destruct (Hset kv Hkv) as (b & Hb & ?).
        exists b. split; [|done]. rewrite <-Hb. unfold home, bucket_for_hash, bucket_count.
        simpl. by rewrite Hlen'.
      * rewrite length_elements in *. rewrite Hel', Hov', Hn'. simpl in *. lia.
      * unfold elements. rewrite Hel', Hov', Hov. by apply submseteq_app.
  - intros (tmp & Htmp & H)%bind_Ok.
    apply rehash_buckets_inv in Htmp as (Hinv & Hsub & Hml & Hlen); [|done..].
    rewrite Helnew, app_nil_r in Hsub.
    apply rehash_overflow_inv in H as (Hinv' & Hsub' & Hml' & Hlen'); [|done..].
    split_and!; [done| |congruence|lia].
    etrans; [done|]. unfold elements at 2.
    rewrite (comm (++) (m_overflow_elements m)). by apply submseteq_app.
Qed.

(** *** [insert_internal] keeps the invariant *)

Lemma insert_internal_ok fuel : insert_ok (insert_internal fuel).
Proof.
  induction fuel as [|fuel IH]; intros m kv r Hinv; simpl; [done|].
  intros ([m1 i1] & H1 & H)%bind_Ok.
  assert (map_inv m1 ∧ elements m1 ⊆+ elements m ∧
          m_max_load_factor m1 = m_max_load_factor m ∧
          length (m_buckets m) ≤ length (m_buckets m1) ∧ i1 = home m1 kv.1)
    as (Hinv1 & Hsub1 & Hml1 & Hlen1 & Hi1).
  { destruct (m_load_threshold m <? m_nb_elements m + 1).
    - apply bind_Ok in H1 as (m' & Hre & [= <- <-]).
      apply rehash_internal_with_inv in Hre as (? & ? & ? & Hlen); [|done].
      split_and!; try done. unfold get_expand_size, bucket_count,
        REHASH_SIZE_MULTIPLICATION_FACTOR in Hlen.
      pose proof (round_up_to_power_of_two_ge ((length (m_buckets m) - NeighborhoodSize + 1) * 2)).
      lia.
    - injection H1 as <- <-. done. }
  apply bind_Ok in H as (r2 & H2 & H).
  apply insert_internal_place_inv in H2; [|done..].
  destruct r2 as [done|m2].
  - injection H as <-.
    destruct H2 as (? & Hperm & ? & ? & ? & Hlen & ? & ?).
    split_and!; [done| |congruence|lia|done..].
    rewrite Hperm. by apply submseteq_skip.
  - destruct H2 as (Hinv2 & Hperm2 & _ & Hlen2 & Hml2 & _).
    apply bind_Ok in H as (m3 & Hre & H).
    apply rehash_internal_with_inv in Hre as (Hinv3 & Hsub3 & Hml3 & Hlen3); [|done].
    apply IH in H as (? & Hsub4 & ? & ? & ? & ?); [|done].
    split_and!; [done| |congruence| |done..].
    + etrans; [done|]. apply submseteq_skip. etrans; [done|]. by rewrite Hperm2.
    + unfold get_expand_size, bucket_count, REHASH_SIZE_MULTIPLICATION_FACTOR in Hlen3.
      pose proof (round_up_to_power_of_two_ge
        ((length (m_buckets m2) - NeighborhoodSize + 1) * 2)).
      lia.
Qed.

(** *** Erasure *)

Lemma erase_from_bucket_lookup (bs : list hopscotch_bucket) pos i j b :
  (∀ j b, bs !! j = Some b → bucket_wf b) →
  pos - i < NeighborhoodSize →
  bs !! j = Some b →
  ∃ b', alter (toggle_neighbor_presence (pos - i)) i (alter remove_key_value pos bs) !! j
          = Some b' ∧
    bucket_wf b' ∧
    m_key_value b' = (if decide (pos = j) then None else m_key_value b) ∧
    ∀ t, bit b' t = xorb (bit b t && negb (bool_decide (pos = j ∧ t = 0)))
                         (bool_decide (i = j ∧ t = pos - i + 2)).
Proof.
  intros Hwf Hlt Hb. specialize (Hwf _ _ Hb).
  assert (∃ b1, alter remove_key_value pos bs !! j = Some b1 ∧ bucket_wf b1 ∧
    m_key_value b1 = (if decide (pos = j) then None else m_key_value b) ∧
    ∀ t, bit b1 t = bit b t && negb (bool_decide (pos = j ∧ t = 0)))
    as (b1 & Hb1 & Hwf1 & Hkv1 & Hbit1).
  { rewrite lookup_alter_case, Hb. simpl. eexists. split; [done|].
    case_decide; simpl.
    - split_and!; [by apply bucket_wf_remove_key_value|by apply key_value_remove_key_value|].
      intros t. rewrite bit_remove_key_value by apply Hwf. f_equal. f_equal. bool_eq.
    - split_and!; [done..|]. intros t.
      rewrite bool_decide_eq_false_2 by (intros [? _]; done). by rewrite andb_true_r. }
  destruct (toggle_lookup _ (pos - i) i j b1 Hwf1 Hlt Hb1) as (b2 & Hb2 & Hwf2 & Hkv2 & Hbit2).
  exists b2. split_and!; [done..|congruence|].
  intros t. by rewrite Hbit2, Hbit1.
Qed.

Lemma buckets_inv_erase_from_bucket (bs : list hopscotch_bucket) pos kv :
  buckets_inv bs → occupant bs pos = Some kv →
  let i := home_in bs kv.1 in
  let bs' := alter (toggle_neighbor_presence (pos - i)) i (alter remove_key_value pos bs) in
  buckets_inv bs' ∧ same_flags bs bs' ∧
  (∀ j, occupant bs' j = if decide (pos = j) then None else occupant bs j) ∧
  bucket_elements bs ≡ₚ kv :: bucket_elements bs'.
Proof.
  intros Hinv Hkv i bs'.
  pose proof (inv_wf _ Hinv) as Hwf.
  pose proof (inv_range _ Hinv _ _ Hkv) as Hrange. fold i in Hrange.
  pose proof (occupant_lt _ _ _ Hkv) as Hpos.
  assert (pos - i < NeighborhoodSize) as Hlt by lia.
  assert (length bs' = length bs) as Hlen by (unfold bs'; by rewrite !length_alter).
  assert (Hocc : ∀ j, occupant bs' j = if decide (pos = j) then None else occupant bs j).
  { intros j. unfold occupant at 1. destruct (bs !! j) as [b|] eqn:Hb.
    - destruct (erase_from_bucket_lookup bs pos i j b Hwf Hlt Hb) as (b' & Hb' & _ & Hkv' & _).
      unfold bs'. rewrite Hb'. simpl. rewrite Hkv'. by rewrite (occupant_lookup _ _ _ Hb).
    - rewrite (lookup_same_length bs) by done. simpl.
      apply lookup_ge_None in Hb. rewrite decide_False by lia.
      unfold occupant. by rewrite (proj2 (lookup_ge_None _ _) Hb). }
  split_and!; [split| |done|].
  - rewrite Hlen. apply Hinv.
  - intros j b' Hb'. destruct (lookup_same_length_Some bs bs' j b' Hlen Hb') as [b Hb].
    destruct (erase_from_bucket_lookup bs pos i j b Hwf Hlt Hb) as (b'' & Hb'' & Hwf' & _).
    unfold bs' in Hb'. congruence.
  - intros i' b' k Hb'. destruct (lookup_same_length_Some bs bs' i' b' Hlen Hb') as [b Hb].
    destruct (erase_from_bucket_lookup bs pos i i' b Hwf Hlt Hb) as (b'' & Hb'' & _ & _ & Hbit).
    unfold bs' in Hb'. assert (b'' = b') as -> by congruence.
    rewrite Hbit, Hocc. clear Hbit Hb' Hb''.
    rewrite (bool_decide_eq_false_2 (_ ∧ k + 2 = 0)) by lia. simpl. rewrite andb_true_r.
    pose proof (inv_neighborhood _ Hinv i' b k Hb) as Hold.
    unfold home_in in Hold, i |- *. rewrite Hlen. fold (home_in bs kv.1) in *. fold i.
    case_bool_decide as Hc.
    + destruct Hc as [<- Hk]. assert (k = pos - i) as -> by lia.
      replace (i + (pos - i)) with pos in * by lia.
      rewrite decide_True by done.
      assert (bit b (pos - i + 2) = true) as -> by (apply Hold; eauto).
      simpl. split; [done|]. by intros (? & ? & _).
    + rewrite xorb_false_r, Hold.
      destruct (decide (pos = i' + k)) as [->|]; [|reflexivity].
      rewrite Hkv. split; [|by intros (? & ? & _)].
      intros (? & [= <-] & Hh). exfalso. apply Hc.
      assert (i = i') as Hii by (unfold i, home_in; done). split; [done|]. lia.
  - intros j kv'. rewrite Hocc, (home_in_length bs bs') by done.
    case_decide; [done|]. apply Hinv.
  - split; [done|]. intros j b b' Hb Hb'.
    destruct (erase_from_bucket_lookup bs pos i j b Hwf Hlt Hb) as (b'' & Hb'' & _ & _ & Hbit).
    unfold bs' in Hb'. assert (b'' = b') as -> by congruence.
    rewrite Hbit. rewrite !bool_decide_eq_false_2 by lia. simpl.
    by rewrite andb_true_r, xorb_false_r.
  - apply (bucket_elements_remove bs bs' pos kv); [done..| |done|].
    + intros j Hj. rewrite Hocc. by rewrite decide_False.
    + rewrite Hocc. by rewrite decide_True.
Qed.

Lemma erase_from_bucket_inv m pos kv m' :
  map_inv m → occupant (m_buckets m) pos = Some kv →
  erase_from_bucket m pos (home m kv.1) = Ok m' →
  map_inv m' ∧ elements m ≡ₚ kv :: elements m' ∧
  S (m_nb_elements m') = m_nb_elements m ∧
  (∀ j, occupant (m_buckets m') j = if decide (pos = j) then None else occupant (m_buckets m) j) ∧
  m_overflow_elements m' = m_overflow_elements m ∧
  same_flags (m_buckets m) (m_buckets m') ∧
  m_max_load_factor m' = m_max_load_factor m ∧
  m_load_threshold m' = m_load_threshold m.
Proof.
  intros (Hinv & Hfl & Hcount) Hkv. unfold erase_from_bucket.
  intros (bs1 & [Hpos ->]%modify_bucket_Ok & H)%bind_Ok.
  apply bind_Ok in H as (bs2 & [Hi ->]%modify_bucket_Ok & [= <-]).
  destruct (buckets_inv_erase_from_bucket (m_buckets m) pos kv Hinv Hkv)
    as (Hinv' & Hflags & Hocc & Hperm).
  rewrite home_home_in.
  pose proof (Permutation_length Hperm) as Hplen. simpl in Hplen.
  rewrite length_elements in Hcount.
  split_and!; try done.
  - split_and!; [done| |].
    + by eapply (overflow_flagged_same_flags m).
    + rewrite length_elements. simpl. lia.
  - unfold elements. simpl. by rewrite Hperm.
  - simpl. lia.
Qed.

Lemma find_in_overflow_from_bucket_loop_spec m i : ∀ l it,
  (find_in_overflow_from_bucket_loop m l it i = it + length l ↔
   ∀ kv, kv ∈ l → home m kv.1 ≠ i) ∧
  find_in_overflow_from_bucket_loop m l it i ≤ it + length l.
Proof.
  induction l as [|kv l IH]; intros it; simpl.
  - split; [|lia]. split; [|lia]. intros _ kv Hkv. by apply elem_of_nil in Hkv.
  - fold (home m kv.1). destruct (Nat.eqb_spec (home m kv.1) i) as [Heq|Hne].
    + split; [|lia]. split; [lia|]. intros H. exfalso. apply (H kv); [left|done].
    + destruct (IH (S it)) as [Hiff Hle]. split; [|lia].
      rewrite Nat.add_succ_r, <-Nat.add_succ_l, Hiff. split.
      * intros H kv' [->|?]%elem_of_cons; eauto.
      * intros H kv' ?. apply H. by right.
Qed.

Lemma erase_from_overflow_inv m pos i kv r :
  map_inv m → m_overflow_elements m !! pos = Some kv →
  erase_from_overflow m pos i = Ok r →
  map_inv r.1 ∧ elements m ≡ₚ kv :: elements r.1 ∧
  S (m_nb_elements r.1) = m_nb_elements m ∧
  (∀ j, occupant (m_buckets r.1) j = occupant (m_buckets m) j) ∧
  m_overflow_elements r.1 = delete pos (m_overflow_elements m) ∧
  length (m_buckets r.1) = length (m_buckets m) ∧
  m_max_load_factor r.1 = m_max_load_factor m ∧
  m_load_threshold r.1 = m_load_threshold m ∧
  (∀ j b b', m_buckets m !! j = Some b → m_buckets r.1 !! j = Some b' → j ≠ i →
     has_overflow b' = has_overflow b) ∧
  (∀ b b', m_buckets m !! i = Some b → m_buckets r.1 !! i = Some b' →
     (has_overflow b' = true ↔
      has_overflow b = true ∧
      ∃ kv', kv' ∈ delete pos (m_overflow_elements m) ∧ home m kv'.1 = i)).
Proof.
  intros (Hinv & Hfl & Hcount) Hkv. unfold erase_from_overflow.
  pose proof (lookup_lt_Some _ _ _ Hkv) as Hpos.
  destruct (Nat.ltb_spec pos (length (m_overflow_elements m))); [|lia]. simpl.
  set (m1 := {| m_buckets := m_buckets m;
                m_overflow_elements := delete pos (m_overflow_elements m);
                m_nb_elements := m_nb_elements m - 1;
                m_max_load_factor := m_max_load_factor m;
                m_load_threshold := m_load_threshold m |}).
  assert (m_overflow_elements m ≡ₚ kv :: delete pos (m_overflow_elements m)) as Hperm.
  { by apply delete_Permutation. }
  pose proof (Permutation_length Hperm) as Hplen. simpl in Hplen.
  rewrite length_elements in Hcount.
  assert (elements m ≡ₚ kv :: elements m1) as Helem.
  { unfold elements. simpl. rewrite Hperm at 1. by rewrite Permutation_middle. }
  assert (overflow_flagged m1) as Hfl1.
  { intros kv' Hkv'. simpl in Hkv'. apply (Hfl kv'). rewrite Hperm. by right. }
  unfold find_in_overflow_from_bucket. rewrite drop_0.
  destruct (find_in_overflow_from_bucket_loop_spec m1 i (m_overflow_elements m1) 0)
    as [Hiff _]. simpl in Hiff.
  match goal with
  | |- context [?a =? ?b] => destruct (Nat.eqb_spec a b) as [Heq|Hne]
  end.
  - intros (bs & [Hi ->]%modify_bucket_Ok & [= <-])%bind_Ok. simpl.
    destruct (buckets_inv_set_overflow (m_buckets m) false i Hinv) as (Hinv' & Hocc' & Hel').
    pose proof (proj1 Hiff Heq) as Hnone.
    split_and!; try done.
    + split_and!; [done| |].
      * intros kv' Hkv'. simpl in Hkv'.
        destruct (Hfl1 kv' Hkv') as (b & Hb & Hbit). simpl in Hb.
        unfold home, bucket_for_hash, bucket_count in *. simpl in *.
        rewrite length_alter.
        destruct (set_overflow_lookup (m_buckets m) false i _ b
          (inv_wf _ Hinv _ _ Hb) Hb) as (b' & Hb' & _ & _ & _ & Hbit').
        exists b'. split; [done|]. rewrite has_overflow_bit in *. rewrite Hbit'.
        rewrite decide_False; [done|]. intros ->. by apply (Hnone kv').
      * rewrite length_elements. simpl. rewrite Hel'. lia.
    + unfold elements in *. simpl in *. by rewrite Hel'.
    + simpl. lia.
    + by rewrite length_alter.
    + intros j b b' Hb Hb' Hj.
      destruct (set_overflow_lookup (m_buckets m) false i j b
        (inv_wf _ Hinv _ _ Hb) Hb) as (b'' & Hb'' & _ & _ & _ & Hbit').
      assert (b'' = b') as -> by congruence. rewrite !has_overflow_bit, Hbit'.
      by rewrite decide_False.
    + intros b b' Hb Hb'.
      destruct (set_overflow_lookup (m_buckets m) false i i b
        (inv_wf _ Hinv _ _ Hb) Hb) as (b'' & Hb'' & _ & _ & _ & Hbit').
      assert (b'' = b') as -> by congruence. rewrite !has_overflow_bit, Hbit'.
      rewrite decide_True by done. split; [done|].
      intros (_ & kv' & Hkv' & Hh). by destruct (Hnone kv').
  - intros [= <-]. simpl. split_and!; try done.
    + split_and!; [done..|]. rewrite length_elements. simpl. lia.
    + simpl. lia.
    + intros j b b' Hb Hb' _. congruence.
    + intros b b' Hb Hb'. assert (b' = b) as -> by congruence.
      split; [|by intros [? _]]. intros Hb1. split; [done|].
      (* some remaining pair has home [i]: the scan stopped before the end *)
      clear -Hne. revert Hne. simpl.
      generalize (delete pos (m_overflow_elements m)). intros l.
      assert (∀ it, find_in_overflow_from_bucket_loop m1 l it i ≠ it + length l →
                ∃ kv', kv' ∈ l ∧ home m kv'.1 = i) as Hscan.
      { induction l as [|kv0 l IH]; intros it; simpl; [lia|].
        destruct (Nat.eqb_spec (bucket_for_hash m1 (hash_of kv0.1)) i) as [Heq|_].
        - intros _. exists kv0. split; [left|done].
        - intros Hne. destruct (IH (S it)) as (kv' & ? & ?); [lia|].
          exists kv'. split; [by right|done]. }
      apply (Hscan 0).
Qed.

(** *** Lookup *)

Lemma scan_neighborhood_None is_match : ∀ cnt b,
  (∀ x, b ≤ x → x < b + cnt → is_match x = false) →
  scan_neighborhood is_match b cnt = None.
Proof.
  intros cnt; induction cnt as [|cnt IH]; intros b Hall; simpl; [done|].
  rewrite Hall by lia. apply IH. intros x ??. apply Hall; lia.
Qed.

Lemma scan_neighborhood_Some is_match : ∀ cnt b x,
  scan_neighborhood is_match b cnt = Some x →
  b ≤ x ∧ x < b + cnt ∧ is_match x = true ∧ ∀ y, b ≤ y → y < x → is_match y = false.
Proof.
  intros cnt; induction cnt as [|cnt IH]; intros b x; simpl; [done|].
  destruct (is_match b) eqn:Hb.
  - intros [= <-]. split_and!; [lia..|done|]. intros; lia.
  - intros (? & ? & ? & Hmin)%IH. split_and!; [lia..|done|].
    intros y ??. destruct (decide (y = b)) as [->|]; [done|]. apply Hmin; lia.
Qed.

Lemma scan_neighborhood_None_inv is_match : ∀ cnt b,
  scan_neighborhood is_match b cnt = None →
  ∀ x, b ≤ x → x < b + cnt → is_match x = false.
Proof.
  intros cnt; induction cnt as [|cnt IH]; intros b; simpl; [intros; lia|].
  destruct (is_match b) eqn:Hb; [done|].
  intros Hnone x ??. destruct (decide (x = b)) as [->|]; [done|].
  apply (IH _ Hnone); lia.
Qed.

Lemma positive_has_bit p : ∃ t, Z.testbit (Zpos p) (Z.of_nat t) = true.
Proof.
  induction p as [p _|p [t Ht]|].
  - exists 0. by rewrite testbit_xI.
  - exists (S t). by rewrite testbit_xO.
  - by exists 0.
Qed.

(** The loop of [find_in_buckets] on the remaining bits [p] of the bitmap
    [infos] of bucket [i], [b] bits having been shifted out. *)
Lemma find_in_buckets_loop_scan (bs : list hopscotch_bucket) key infos i : ∀ p b cnt,
  (∀ t, Z.testbit (Zpos p) (Z.of_nat t) = Z.testbit infos (Z.of_nat (b + t))) →
  (∀ t, Z.testbit infos (Z.of_nat (b + t)) = true →
        t < cnt ∧ is_Some (occupant bs (i + (b + t)))) →
  find_in_buckets_loop bs key p (i + b) =
  Ok (match scan_neighborhood
              (λ b, Z.testbit infos (Z.of_nat b) &&
                    match occupant bs (i + b) with
                    | Some kv => m_key_equal kv.1 key
                    | None => false
                    end) b cnt with
      | Some b' => i + b'
      | None => length bs
      end).
Proof.
  induction p as [p IH|p IH|]; intros b cnt Hbits Hocc.
  - pose proof (Hbits 0) as Hb0. rewrite testbit_xI, Nat.add_0_r in Hb0.
    destruct (Hocc 0) as [Hcount [kv Hkv]]; [by rewrite Nat.add_0_r|].
    rewrite Nat.add_0_r in Hkv.
    destruct cnt as [|cnt]; [lia|]. simpl. rewrite <-Hb0, Hkv. simpl.
    apply occupant_Some in Hkv as (bk & Hbk & Hkv).
    unfold bucket_at. rewrite Hbk. simpl. unfold get_key_value. rewrite Hkv. simpl.
    destruct (m_key_equal kv.1 key); [done|].
    replace (S (i + b)) with (i + S b) by lia. apply IH.
    + intros t. specialize (Hbits (S t)). rewrite testbit_xI in Hbits.
      by replace (S b + t) with (b + S t) by lia.
    + intros t Ht. replace (S b + t) with (b + S t) in * by lia.
      destruct (Hocc (S t) Ht). split; [lia|done].
  - pose proof (Hbits 0) as Hb0. rewrite testbit_xO, Nat.add_0_r in Hb0.
    destruct cnt as [|cnt].
    { destruct (positive_has_bit p) as [t Ht].
      specialize (Hbits (S t)). rewrite testbit_xO, Ht in Hbits.
      destruct (Hocc (S t)); [done|lia]. }
    simpl. rewrite <-Hb0. simpl.
    replace (S (i + b)) with (i + S b) by lia. apply IH.
    + intros t. specialize (Hbits (S t)). rewrite testbit_xO in Hbits.
      by replace (S b + t) with (b + S t) by lia.
    + intros t Ht. replace (S b + t) with (b + S t) in * by lia.
      destruct (Hocc (S t) Ht). split; [lia|done].
  - pose proof (Hbits 0) as Hb0. rewrite Nat.add_0_r in Hb0. simpl in Hb0.
    destruct (Hocc 0) as [Hcount [kv Hkv]]; [by rewrite Nat.add_0_r|].
    rewrite Nat.add_0_r in Hkv.
    destruct cnt as [|cnt]; [lia|]. simpl. rewrite <-Hb0, Hkv. simpl.
    apply occupant_Some in Hkv as (bk & Hbk & Hkv).
    unfold bucket_at. rewrite Hbk. simpl. unfold get_key_value. rewrite Hkv. simpl.
    destruct (m_key_equal kv.1 key); [done|].
    rewrite scan_neighborhood_None; [done|].
    intros x Hx1 Hx2. replace x with (b + S (x - S b)) by lia.
    rewrite <-Hbits. change 1%Z with (Zpos 1). by rewrite testbit_1.
Qed.

Lemma find_in_buckets_scan m key i b_i :
  buckets_inv (m_buckets m) → m_buckets m !! i = Some b_i →
  find_in_buckets m key i =
  Ok (match scan_neighborhood
              (λ b, Z.testbit (get_neighborhood_infos b_i) (Z.of_nat b) &&
                    match occupant (m_buckets m) (i + b) with
                    | Some kv => m_key_equal kv.1 key
                    | None => false
                    end) 0 NeighborhoodSize with
      | Some b' => i + b'
      | None => length (m_buckets m)
      end).
Proof.
  intros Hinv Hb. unfold find_in_buckets, bucket_at. rewrite Hb. simpl.
  pose proof (get_neighborhood_infos_nonneg b_i) as Hnn.
  destruct (get_neighborhood_infos b_i) as [|p|p] eqn:Hinfos; [|clear Hnn|lia].
  - rewrite scan_neighborhood_None; [done|]. intros x _ _. by rewrite Z.bits_0.
  - rewrite <-(Nat.add_0_r i) at 1. apply find_in_buckets_loop_scan; [done|].
    intros t. simpl. rewrite <-Hinfos.
    rewrite testbit_get_neighborhood_infos by (eapply wf_fit, inv_wf; eauto).
    intros Hbit. split; [by eapply inv_neighborhood_lt|].
    apply (inv_neighborhood _ Hinv i b_i t Hb) in Hbit as (kv & -> & _). eauto.
Qed.

Lemma find_if_first_match {A} (p : A → bool) (l : list A) :
  find_if p l = match first_match p l with Some idx => idx | None => length l end.
Proof.
  induction l as [|x l IH]; simpl; [done|].
  destruct (p x); [done|]. rewrite IH. by destruct (first_match p l).
Qed.

Lemma first_match_Some {A} (p : A → bool) (l : list A) idx :
  first_match p l = Some idx →
  ∃ x, l !! idx = Some x ∧ p x = true ∧ ∀ j y, j < idx → l !! j = Some y → p y = false.
Proof.
  revert idx. induction l as [|x l IH]; intros idx; simpl; [done|].
  destruct (p x) eqn:Hx.
  - intros [= <-]. exists x. split_and!; [done..|]. intros; lia.
  - destruct (first_match p l) as [idx'|]; [|done]. intros [= <-].
    destruct (IH idx' eq_refl) as (y & ? & ? & Hmin). exists y. split_and!; [done..|].
    intros [|j] z Hj; simpl; [by intros [= <-]|]. apply Hmin. lia.
Qed.

Lemma first_match_None {A} (p : A → bool) (l : list A) :
  first_match p l = None → ∀ x, x ∈ l → p x = false.
Proof.
  induction l as [|x l IH]; simpl; [by intros _ ? ?%elem_of_nil|].
  destruct (p x) eqn:Hx; [done|].
  destruct (first_match p l); [done|]. intros _ y [->|?]%elem_of_cons; eauto.
Qed.

Lemma home_mod m key p :
  length (m_buckets m) = 2 ^ p + NeighborhoodSize - 1 →
  home m key = Z.to_nat (hash_of key mod Z.of_nat (bucket_count m)).
Proof.
  intros Hlen. unfold home, bucket_for_hash, bucket_count.
  rewrite (buckets_count _ _ Hlen), bucket_for_hash_nb_pow2 by apply hash_of_nonneg.
  by rewrite Nat2Z.inj_pow.
Qed.

Lemma find_find_spec m k : buckets_inv (m_buckets m) → find m k = Ok (find_spec m k).
Proof.
  intros Hinv. destruct (inv_length _ Hinv) as [p Hp].
  unfold find, find_spec, find_internal. rewrite <-(home_mod m k p Hp).
  fold (home m k).
  destruct (lookup_lt_is_Some_2 (m_buckets m) (home m k)) as [b_i Hb].
  { rewrite home_home_in. by apply home_in_lt_length. }
  rewrite Hb, (find_in_buckets_scan m k (home m k) b_i Hinv Hb). simpl.
  destruct (scan_neighborhood _ 0 NeighborhoodSize) as [b|] eqn:Hscan.
  - apply scan_neighborhood_Some in Hscan as (_ & _ & Hmatch & _).
    apply andb_true_iff in Hmatch as [_ Hmatch].
    destruct (occupant (m_buckets m) (home m k + b)) as [kv|] eqn:Hocc; [|done].
    apply occupant_lt in Hocc.
    destruct (Nat.eqb_spec (home m k + b) (length (m_buckets m))); [lia|done].
  - rewrite Nat.eqb_refl. simpl. unfold bucket_at. rewrite Hb. simpl.
    destruct (has_overflow b_i); simpl; [|done].
    rewrite find_if_first_match. by destruct (first_match _ _).
Qed.

(** ** Every operation keeps the invariant *)

Lemma find_in_buckets_found m key i pos :
  buckets_inv (m_buckets m) → i < length (m_buckets m) →
  find_in_buckets m key i = Ok pos → pos ≠ length (m_buckets m) →
  ∃ kv, occupant (m_buckets m) pos = Some kv ∧ m_key_equal kv.1 key = true ∧
        home m kv.1 = i.
Proof.
  intros Hinv Hi Hfind Hpos.
  destruct (lookup_lt_is_Some_2 _ _ Hi) as [b_i Hb].
  rewrite (find_in_buckets_scan m key i b_i Hinv Hb) in Hfind. injection Hfind as <-.
  destruct (scan_neighborhood _ 0 NeighborhoodSize) as [b|] eqn:Hscan; [|done].
  apply scan_neighborhood_Some in Hscan as (_ & _ & Hmatch & _).
  apply andb_true_iff in Hmatch as [Hbit Hmatch].
  destruct (occupant (m_buckets m) (i + b)) as [kv|] eqn:Hocc; [|done].
  exists kv. split_and!; [done..|].
  rewrite testbit_get_neighborhood_infos in Hbit by (eapply wf_fit, inv_wf; eauto).
  apply (inv_neighborhood _ Hinv i b_i b Hb) in Hbit as (kv' & Hkv' & Hhome).
  rewrite home_home_in. congruence.
Qed.

Lemma erase_overflow_scan_Some key : ∀ l it idx,
  erase_overflow_scan key l it = Some idx →
  ∃ kv, l !! (idx - it) = Some kv ∧ it ≤ idx ∧ m_key_equal key kv.1 = true ∧
        ∀ j kv', j < idx - it → l !! j = Some kv' → m_key_equal key kv'.1 = false.
Proof.
  induction l as [|kv l IH]; intros it idx; simpl; [done|].
  destruct (m_key_equal key kv.1) eqn:Heq.
  - intros [= <-]. exists kv. rewrite Nat.sub_diag. split_and!; [done..|]. intros; lia.
  - intros (kv' & Hkv' & Hle & ? & Hmin)%IH. exists kv'.
    replace (idx - it) with (S (idx - S it)) by lia. split_and!; [done|lia|done|].
    intros [|j] kv'' Hj; simpl; [by intros [= <-]|]. apply Hmin. lia.
Qed.

Lemma erase_overflow_scan_None key : ∀ l it,
  erase_overflow_scan key l it = None → ∀ kv, kv ∈ l → m_key_equal key kv.1 = false.
Proof.
  induction l as [|kv l IH]; intros it; simpl; [by intros _ ? ?%elem_of_nil|].
  destruct (m_key_equal key kv.1) eqn:Heq; [done|].
  intros Hnone kv' [->|?]%elem_of_cons; eauto.
Qed.

Lemma erase_inv m key r :
  map_inv m → erase m key = Ok r → map_inv r.1 ∧ elements r.1 ⊆+ elements m.
Proof.
  intros Hinv. pose proof Hinv as (Hbinv & _ & _). unfold erase.
  intros (pos & Hfind & H)%bind_Ok.
  assert (bucket_for_hash m (hash_of key) < length (m_buckets m)) as Hi.
  { apply (home_in_lt_length _ key Hbinv). }
  destruct (Nat.eqb_spec pos (length (m_buckets m))) as [->|Hpos]; simpl in H.
  - apply bind_Ok in H as (b & Hb & H).
    destruct (has_overflow b); [|by injection H as <-].
    destruct (erase_overflow_scan key (m_overflow_elements m) 0) as [idx|] eqn:Hscan;
      [|by injection H as <-].
    apply bind_Ok in H as (r' & Hr' & [= <-]).
    apply erase_overflow_scan_Some in Hscan as (kv & Hkv & _).
    rewrite Nat.sub_0_r in Hkv.
    destruct (erase_from_overflow_inv m idx _ kv r' Hinv Hkv Hr') as (? & Hperm & _).
    split; [done|]. rewrite Hperm. by apply submseteq_cons.
  - apply bind_Ok in H as (m' & Hm' & [= <-]).
    destruct (find_in_buckets_found m key _ pos Hbinv Hi Hfind Hpos) as (kv & Hkv & _ & Hhome).
    unfold home in Hhome. rewrite <-Hhome in Hm'.
    destruct (erase_from_bucket_inv m pos kv m' Hinv Hkv Hm') as (? & Hperm & _).
    split; [done|]. rewrite Hperm. by apply submseteq_cons.
Qed.

Lemma deref_Ok m it kv :
  deref m it = Ok kv →
  (m_buckets_iterator it ≠ m_buckets_end_iterator it ∧
   occupant (m_buckets m) (m_buckets_iterator it) = Some kv) ∨
  (m_buckets_iterator it = m_buckets_end_iterator it ∧
   m_overflow_elements m !! m_overflow_iterator it = Some kv).
Proof.
  unfold deref. destruct (Nat.eqb_spec (m_buckets_iterator it) (m_buckets_end_iterator it));
    simpl.
  - intros ?%of_option_Ok. by right.
  - intros (b & Hb%bucket_at_Ok & Hkv%of_option_Ok)%bind_Ok. left. split; [done|].
    apply occupant_Some. eauto.
Qed.

Lemma erase_iterator_inv m pos r :
  map_inv m → erase_iterator m pos = Ok r → map_inv r.1 ∧ elements r.1 ⊆+ elements m.
Proof.
  intros Hinv. unfold erase_iterator. intros (kv & Hderef & H)%bind_Ok.
  apply deref_Ok in Hderef as [[Hne Hocc]|[Heq Hov]].
  - apply Nat.eqb_neq in Hne. rewrite Hne in H. simpl in H.
    apply bind_Ok in H as (m' & Hm' & [= <-]).
    destruct (erase_from_bucket_inv m _ kv m' Hinv Hocc Hm') as (? & Hperm & _).
    split; [done|]. rewrite Hperm. by apply submseteq_cons.
  - apply Nat.eqb_eq in Heq. rewrite Heq in H. simpl in H.
    apply bind_Ok in H as (r' & Hr' & [= <-]).
    destruct (erase_from_overflow_inv m _ _ kv r' Hinv Hov Hr') as (? & Hperm & _).
    split; [done|]. rewrite Hperm. by apply submseteq_cons.
Qed.

Lemma insert_inv fuel m kv r : map_inv m → insert fuel m kv = Ok r → map_inv r.1.
Proof.
  intros Hinv. unfold insert. intros (it & _ & H)%bind_Ok.
  destruct (negb (iterator_eqb it (end_ m))); [by injection H as <-|].
  by apply insert_internal_ok in H as (? & _).
Qed.

Lemma try_emplace_inv fuel m key value r :
  map_inv m → try_emplace fuel m key value = Ok r → map_inv r.1.
Proof.
  intros Hinv. unfold try_emplace. intros (it & _ & H)%bind_Ok.
  destruct (negb (iterator_eqb it (end_ m))); [by injection H as <-|].
  by apply (insert_internal_ok fuel m (key, value)) in H as (? & _).
Qed.

Lemma subscript_inv fuel m key r : map_inv m → subscript fuel m key = Ok r → map_inv r.1.
Proof.
  intros Hinv. unfold subscript. intros (it & _ & H)%bind_Ok.
  destruct (iterator_eqb it (end_ m)); [|by injection H as <-].
  apply bind_Ok in H as (r' & Hr' & [= <-]). by eapply insert_inv.
Qed.

Lemma rehash_inv fuel m n m' :
  rehash fuel m n = Ok m' → map_inv m' ∧ elements m' ⊆+ elements m.
Proof.
  unfold rehash, rehash_internal. intros H.
  by apply rehash_internal_with_inv in H as (? & ? & _); [|apply insert_internal_ok].
Qed.

Lemma reserve_inv fuel m n m' :
  rehash fuel m n = Ok m' → map_inv m' ∧ elements m' ⊆+ elements m.
Proof. apply rehash_inv. Qed.

Lemma clear_buckets m :
  buckets_inv (m_buckets m) →
  m_buckets (clear m) = replicate (length (m_buckets m)) empty_bucket.
Proof.
  intros Hinv. simpl. pose proof (inv_wf _ Hinv) as Hwf. revert Hwf.
  generalize (m_buckets m). intros bs. induction bs as [|b bs IH]; intros Hwf; [done|].
  simpl. rewrite bucket_wf_bucket_clear by apply (Hwf 0 b eq_refl).
  f_equal. apply IH. intros j b'. apply (Hwf (S j) b').
Qed.

Lemma clear_inv m : map_inv m → map_inv (clear m).
Proof.
  intros (Hinv & _ & _). destruct (inv_length _ Hinv) as [p Hp].
  unfold map_inv, overflow_flagged, elements. rewrite clear_buckets by done.
  rewrite Hp, bucket_elements_replicate. simpl. split_and!; [|by intros ? ?%elem_of_nil|lia].
  apply buckets_inv_replicate.
Qed.

Lemma set_max_load_factor_inv ml m : map_inv m → map_inv (set_max_load_factor ml m).
Proof. done. Qed.

Lemma step_inv m m' : map_inv m → step m m' → map_inv m'.
Proof.
  intros Hinv Hstep. destruct Hstep.
  - by eapply insert_inv.
  - by eapply try_emplace_inv.
  - by eapply subscript_inv.
  - by eapply erase_inv.
  - by eapply erase_iterator_inv.
  - by eapply rehash_inv.
  - by eapply rehash_inv.
  - by apply clear_inv.
  - by apply set_max_load_factor_inv.
Qed.

Lemma reachable_inv m : reachable m → map_inv m.
Proof.
  induction 1 as [bucket_count|m m' _ IH Hstep].
  - apply hopscotch_map_new_inv.
  - by eapply step_inv.
Qed.

Lemma reachable_insert_range fuel : ∀ l m m',
  reachable m → insert_range fuel m l = Ok m' → reachable m'.
Proof.
  induction l as [|kv l IH]; intros m m' Hm; simpl.
  - by intros [= <-].
  - intros (r & Hr & H)%bind_Ok. apply (IH r.1); [|done].
    eapply reachable_step; [done|]. by eapply step_insert.
Qed.

(** C1. In every state reached by the public operations, bit [b] of the
    neighborhood bitmap of bucket [i] is set exactly when bucket [i + b]
    is occupied by a pair whose home bucket, [h(key) mod B], is [i]; and
    every occupied bucket [j] lies in the neighborhood of the home [i]
    of its pair: [0 <= j - i < NeighborhoodSize]. *)
Theorem neighborhood_consistency m :
  reachable m →
  (∀ key, bucket_for_hash m (hash_of key) =
          Z.to_nat (hash_of key mod Z.of_nat (bucket_count m))) ∧
  (∀ i bucket_i b, m_buckets m !! i = Some bucket_i →
     (Z.testbit (get_neighborhood_infos bucket_i) (Z.of_nat b) = true ↔
      ∃ bucket_j key_value,
        m_buckets m !! (i + b) = Some bucket_j ∧ is_empty bucket_j = false ∧
        m_key_value bucket_j = Some key_value ∧
        bucket_for_hash m (hash_of key_value.1) = i)) ∧
  (∀ j bucket_j, m_buckets m !! j = Some bucket_j → is_empty bucket_j = false →
     ∃ key_value, m_key_value bucket_j = Some key_value ∧
       bucket_for_hash m (hash_of key_value.1) ≤ j ∧
       j < bucket_for_hash m (hash_of key_value.1) + NeighborhoodSize).
Proof.
  intros (Hinv & _ & _)%reachable_inv. destruct (inv_length _ Hinv) as [p Hp].
  split_and!.
  - intros key. apply (home_mod m key p Hp).
  - intros i bucket_i b Hi.
    rewrite testbit_get_neighborhood_infos by (eapply wf_fit, inv_wf; eauto).
    rewrite (inv_neighborhood _ Hinv i bucket_i b Hi). split.
    + intros (kv & (bucket_j & Hj & Hkv)%occupant_Some & Hhome).
      exists bucket_j, kv. split_and!; [done| |done..].
      apply not_true_iff_false. rewrite bucket_wf_empty by (eapply inv_wf; eauto).
      congruence.
    + intros (bucket_j & kv & Hj & _ & Hkv & Hhome). exists kv. split; [|done].
      apply occupant_Some. eauto.
  - intros j bucket_j Hj Hne.
    destruct (m_key_value bucket_j) as [kv|] eqn:Hkv.
    + exists kv. split; [done|]. apply (inv_range _ Hinv j kv). apply occupant_Some. eauto.
    + apply (bucket_wf_empty bucket_j) in Hkv; [congruence|]. eapply inv_wf; eauto.
Qed.

(** C2. [find(k)] is the lookup of the specification: home bucket
    [h(k) mod B], the set bits of its bitmap from the least significant
    one, the first match; then end if the overflow flag is clear, else
    the first match of a linear scan of the overflow list, or end.  [find]
    returns an iterator only: the function of the source is [const] and
    has no effect on the container. *)
Theorem lookup_correctness m k : reachable m → find m k = Ok (find_spec m k).
Proof. intros (Hinv & _ & _)%reachable_inv. by apply find_find_spec. Qed.

(** C10. [clear()] leaves no entry, a zero metadata word in every bucket
    and an empty overflow list, and keeps the bucket array as long as it
    was: [bucket_count()] and the home of every key are unchanged. *)
Theorem clear_frame m :
  reachable m →
  m_nb_elements (clear m) = 0 ∧
  m_overflow_elements (clear m) = [] ∧
  elements (clear m) = [] ∧
  (∀ j b, m_buckets (clear m) !! j = Some b →
     m_neighborhood_infos b = 0%Z ∧ m_key_value b = None ∧ is_empty b = true ∧
     has_overflow b = false ∧ get_neighborhood_infos b = 0%Z) ∧
  length (m_buckets (clear m)) = length (m_buckets m) ∧
  bucket_count (clear m) = bucket_count m ∧
  (∀ key, bucket_for_hash (clear m) (hash_of key) = bucket_for_hash m (hash_of key)).
Proof.
  intros (Hinv & _ & _)%reachable_inv.
  assert (length (m_buckets (clear m)) = length (m_buckets m)) as Hlen
    by (simpl; apply length_fmap).
  split; [done|]. split; [done|]. split.
  { unfold elements. rewrite clear_buckets by done.
    by rewrite bucket_elements_replicate. }
  split.
  { intros j b. rewrite clear_buckets by done. intros [-> _]%lookup_replicate.
    do 4 (split; [done|]). unfold get_neighborhood_infos, to_bitmap. simpl.
    apply Z.mod_0_l. pose proof bitmap_bits_nonneg. lia. }
  split; [done|]. split.
  { unfold bucket_count. by rewrite Hlen. }
  intros key. unfold bucket_for_hash, bucket_count. by rewrite Hlen.
Qed.

(** ** Keys

    [KeyEqual] is an equivalence and [Hash] maps equal keys to equal
    hashes, as the containers of the standard library require. *)

Hypothesis key_equal_sym : ∀ k1 k2, m_key_equal k1 k2 = m_key_equal k2 k1.
Hypothesis key_equal_trans : ∀ k1 k2 k3,
  m_key_equal k1 k2 = true → m_key_equal k2 k3 = true → m_key_equal k1 k3 = true.
Hypothesis hash_key_equal : ∀ k1 k2, m_key_equal k1 k2 = true → m_hash k1 = m_hash k2.

Lemma home_key_equal m k1 k2 : m_key_equal k1 k2 = true → home m k1 = home m k2.
Proof. intros Heq. unfold home, hash_of. by rewrite (hash_key_equal k1 k2). Qed.

Lemma distinct_keys_submseteq l1 l2 : l1 ⊆+ l2 → distinct_keys l2 → distinct_keys l1.
Proof.
  induction 1 as [|x l1 l2 Hsub IH|x y l|x l1 l2 Hsub IH|l1 l2 l3 _ IH1 _ IH2]; simpl.
  - done.
  - intros [Hx Hd]. split; [|by apply IH]. intros kv' Hkv'. apply Hx.
    by eapply elem_of_submseteq.
  - intros (Hx & Hy & Hd). split_and!; [|by intros; apply Hx; right|done].
    intros kv' [->|Hkv']%elem_of_cons; [|by apply Hy].
    rewrite key_equal_sym. apply Hx. by left.
  - intros [_ Hd]. by apply IH.
  - intros Hd. by apply IH1, IH2.
Qed.

Lemma filter_matching_nil k (l : list value_type) :
  (∀ kv, kv ∈ l → m_key_equal k kv.1 = false) →
  filter (λ kv, m_key_equal k kv.1 = true) l = [].
Proof.
  induction l as [|kv l IH]; intros Hnone; [done|].
  rewrite filter_cons_False; [|rewrite (Hnone kv); [done|by left]].
  apply IH. intros kv' ?. apply Hnone. by right.
Qed.

Lemma distinct_keys_matching l k kv :
  distinct_keys l → kv ∈ l → m_key_equal k kv.1 = true →
  filter (λ kv, m_key_equal k kv.1 = true) l = [kv].
Proof.
  induction l as [|kv0 l IH]; simpl; [by intros _ ?%elem_of_nil|].
  intros [Hkv0 Hd] Hin Heq.
  assert (∀ kv', kv' ∈ l → m_key_equal k kv0.1 = true → m_key_equal k kv'.1 = false) as Hother.
  { intros kv' Hkv' Heq0. apply not_true_iff_false. intros Heq'.
    specialize (Hkv0 kv' Hkv'). rewrite (key_equal_trans kv0.1 k kv'.1) in Hkv0; [done| |done].
    by rewrite key_equal_sym. }
  rewrite filter_cons. destruct (decide (m_key_equal k kv0.1 = true)) as [Heq0|Hne0].
  - f_equal.
    + apply elem_of_cons in Hin as [->|Hin]; [done|].
      specialize (Hother kv Hin Heq0). congruence.
    + apply filter_matching_nil. intros kv' Hkv'. by apply Hother.
  - apply elem_of_cons in Hin as [->|Hin]; [done|]. by apply IH.
Qed.

Lemma elem_of_bucket_elements (bs : list hopscotch_bucket) kv :
  kv ∈ bucket_elements bs ↔ ∃ j, occupant bs j = Some kv.
Proof.
  unfold bucket_elements. rewrite list_elem_of_omap. split.
  - intros (b & (j & Hj)%list_elem_of_lookup & Hkv). exists j. apply occupant_Some. eauto.
  - intros (j & (b & Hb & Hkv)%occupant_Some). exists b. split; [|done].
    apply list_elem_of_lookup. eauto.
Qed.

(** What [find] returns, in terms of the pairs of the container. *)
Lemma find_semantics m k :
  map_inv m →
  ((∀ kv, kv ∈ elements m → m_key_equal k kv.1 = false) ∧ find m k = Ok (end_ m)) ∨
  (∃ kv it, kv ∈ elements m ∧ m_key_equal k kv.1 = true ∧ find m k = Ok it ∧
            iterator_eqb it (end_ m) = false ∧ deref m it = Ok kv).
Proof.
  intros (Hinv & Hfl & _). rewrite (find_find_spec m k Hinv).
  destruct (inv_length _ Hinv) as [p Hp].
  unfold find_spec. rewrite <-(home_mod m k p Hp).
  destruct (lookup_lt_is_Some_2 (m_buckets m) (home m k)) as [b_i Hb].
  { rewrite home_home_in. by apply home_in_lt_length. }
  rewrite Hb.
  destruct (scan_neighborhood _ 0 NeighborhoodSize) as [b|] eqn:Hscan.
  { apply scan_neighborhood_Some in Hscan as (_ & _ & Hmatch & _).
    apply andb_true_iff in Hmatch as [_ Hmatch].
    destruct (occupant (m_buckets m) (home m k + b)) as [kv|] eqn:Hocc; [|done].
    right. eexists kv, _. split_and!; [| |done| |].
    - apply elem_of_app. left. apply elem_of_bucket_elements. eauto.
    - by rewrite key_equal_sym.
    - unfold iterator_eqb, end_. simpl. apply occupant_lt in Hocc.
      destruct (Nat.eqb_spec (home m k + b) (length (m_buckets m))); [lia|done].
    - by apply deref_bucket. }
  assert (∀ kv, kv ∈ bucket_elements (m_buckets m) → m_key_equal k kv.1 = false) as Hbuckets.
  { intros kv (j & Hj)%elem_of_bucket_elements. apply not_true_iff_false. intros Heq.
    pose proof (inv_range _ Hinv j kv Hj) as Hrange.
    pose proof (inv_neighborhood_set _ j kv b_i Hinv Hj) as Hbit.
    rewrite <-!home_home_in, <-(home_key_equal m k kv.1 Heq) in *.
    specialize (Hbit Hb).
    pose proof (scan_neighborhood_None_inv _ _ _ Hscan (j - home m k) ltac:(lia) ltac:(lia))
      as Hno. simpl in Hno.
    rewrite testbit_get_neighborhood_infos, Hbit in Hno by (eapply wf_fit, inv_wf; eauto).
    replace (home m k + (j - home m k)) with j in Hno by lia.
    rewrite Hj, key_equal_sym, Heq in Hno. done. }
  destruct (has_overflow b_i) eqn:Hflag.
  - match goal with
    | |- context [first_match ?f ?l] => destruct (first_match f l) as [idx|] eqn:Hfirst
    end.
    + apply first_match_Some in Hfirst as (kv & Hkv & Heq & _).
      right. eexists kv, _. split_and!; [|done|done| |].
      * apply elem_of_app. right. apply list_elem_of_lookup. eauto.
      * unfold iterator_eqb, end_. simpl. rewrite !Nat.eqb_refl. simpl.
        apply lookup_lt_Some in Hkv. apply Nat.eqb_neq. intros ->.
        by apply Nat.lt_irrefl in Hkv.
      * unfold deref. simpl. rewrite Nat.eqb_refl. simpl. by apply of_option_Ok.
    + left. split; [|done]. intros kv [?|?]%elem_of_app; [by apply Hbuckets|].
      by apply (first_match_None _ _ Hfirst kv).
  - left. split; [|done]. intros kv [?|Hov]%elem_of_app; [by apply Hbuckets|].
    apply not_true_iff_false. intros Heq.
    destruct (Hfl kv Hov) as (b & Hb' & Hflag').
    rewrite <-(home_key_equal m k kv.1 Heq) in Hb'. congruence.
Qed.

Lemma matching_nil m k :
  (∀ kv, kv ∈ elements m → m_key_equal k kv.1 = false) → matching m k = [].
Proof.
  intros Hnone. unfold matching. by apply filter_matching_nil.
Qed.

Lemma matching_nil_inv m k kv : matching m k = [] → kv ∈ elements m → m_key_equal k kv.1 = false.
Proof.
  unfold matching. intros Hnil Hkv. apply not_true_iff_false. intros Heq.
  by apply (filter_nil_not_elem_of _ _ kv Hnil Heq).
Qed.

(** ** No key is stored twice *)

Lemma insert_unfold fuel m kv :
  insert fuel m kv =
  it_find ← find m kv.1;
  if negb (iterator_eqb it_find (end_ m)) then Ok (m, (it_find, false))
  else insert_internal fuel m kv (home m kv.1).
Proof. done. Qed.

Lemma iterator_eqb_refl it : iterator_eqb it it = true.
Proof. unfold iterator_eqb. by rewrite !Nat.eqb_refl. Qed.

Lemma insert_distinct fuel m kv r :
  map_inv m → distinct_keys (elements m) → insert fuel m kv = Ok r →
  distinct_keys (elements r.1).
Proof.
  intros Hinv Hd. rewrite insert_unfold.
  destruct (find_semantics m kv.1 Hinv) as [[Hnone ->]|(kv' & it & _ & _ & -> & Hit & _)];
    simpl.
  - rewrite iterator_eqb_refl.
    simpl. intros (_ & Hsub & _)%insert_internal_ok; [|done].
    apply (distinct_keys_submseteq _ _ Hsub). split; done.
  - rewrite Hit. simpl. by intros [= <-].
Qed.

Lemma step_distinct m m' :
  map_inv m → distinct_keys (elements m) → step m m' → distinct_keys (elements m').
Proof.
  intros Hinv Hd Hstep. destruct Hstep as [fuel m kv r H|fuel m k v r H|fuel m k r H|
    m k r H|m pos r H|fuel m n m' H|fuel m n m' H|m|m ml].
  - by eapply insert_distinct.
  - by apply (insert_distinct fuel m (k, v) r).
  - unfold subscript in H. apply bind_Ok in H as (it & _ & H).
    destruct (iterator_eqb it (end_ m)); [|by injection H as <-].
    apply bind_Ok in H as (r' & Hr' & [= <-]). by eapply insert_distinct.
  - apply erase_inv in H as [_ Hsub]; [|done]. by eapply distinct_keys_submseteq.
  - apply erase_iterator_inv in H as [_ Hsub]; [|done]. by eapply distinct_keys_submseteq.
  - apply rehash_inv in H as [_ Hsub]. by eapply distinct_keys_submseteq.
  - apply rehash_inv in H as [_ Hsub]. by eapply distinct_keys_submseteq.
  - unfold elements. rewrite clear_buckets by apply Hinv.
    by rewrite bucket_elements_replicate.
  - done.
Qed.

Lemma reachable_distinct m : reachable m → distinct_keys (elements m).
Proof.
  induction 1 as [bucket_count|m m' Hm IH Hstep].
  - unfold hopscotch_map_ctor.
    by destruct (hopscotch_map_new_inv bucket_count DEFAULT_MAX_LOAD_FACTOR) as (_ & -> & _).
  - eapply step_distinct; [by apply reachable_inv|done..].
Qed.

(** ** [erase] and [at] by key *)

Lemma erase_overflow_scan_first_match key (l : list value_type) : ∀ it,
  erase_overflow_scan key l it =
  (λ idx, it + idx) <$> first_match (λ kv, m_key_equal key kv.1) l.
Proof.
  induction l as [|kv l IH]; intros it; simpl; [done|].
  destruct (m_key_equal key kv.1); simpl; [by rewrite Nat.add_0_r|].
  rewrite IH.
  match goal with |- context [first_match ?f l] => destruct (first_match f l) end;
    simpl; [|done].
  f_equal. lia.
Qed.

Lemma erase_from_bucket_total m pos i :
  pos < length (m_buckets m) → i < length (m_buckets m) →
  ∃ m', erase_from_bucket m pos i = Ok m'.
Proof.
  intros Hpos Hi. unfold erase_from_bucket, modify_bucket.
  destruct (Nat.ltb_spec pos (length (m_buckets m))); [|lia]. simpl.
  rewrite length_alter. destruct (Nat.ltb_spec i (length (m_buckets m))); [|lia]. simpl.
  eauto.
Qed.

Lemma erase_from_overflow_total m pos i :
  pos < length (m_overflow_elements m) → i < length (m_buckets m) →
  ∃ r, erase_from_overflow m pos i = Ok r.
Proof.
  intros Hpos Hi. unfold erase_from_overflow, modify_bucket.
  destruct (Nat.ltb_spec pos (length (m_overflow_elements m))); [|lia]. simpl.
  destruct (_ =? _); [|by eauto].
  destruct (Nat.ltb_spec i (length (m_buckets m))); [|lia]. simpl. eauto.
Qed.

(** [erase(key)] erases what [find(key)] finds. *)
Lemma erase_find_spec m k :
  buckets_inv (m_buckets m) →
  erase m k =
  let it := find_spec m k in
  if iterator_eqb it (end_ m) then Ok (m, 0)
  else if m_buckets_iterator it =? length (m_buckets m) then
    r ← erase_from_overflow m (m_overflow_iterator it) (home m k); Ok (r.1, 1)
  else
    m' ← erase_from_bucket m (m_buckets_iterator it) (home m k); Ok (m', 1).
Proof.
  intros Hinv. destruct (inv_length _ Hinv) as [p Hp].
  unfold erase, find_spec. rewrite <-(home_mod m k p Hp). fold (home m k).
  destruct (lookup_lt_is_Some_2 (m_buckets m) (home m k)) as [b_i Hb].
  { rewrite home_home_in. by apply home_in_lt_length. }
  rewrite Hb, (find_in_buckets_scan m k (home m k) b_i Hinv Hb). simpl.
  destruct (scan_neighborhood _ 0 NeighborhoodSize) as [b|] eqn:Hscan.
  - apply scan_neighborhood_Some in Hscan as (_ & _ & Hmatch & _).
    apply andb_true_iff in Hmatch as [_ Hmatch].
    destruct (occupant (m_buckets m) (home m k + b)) as [kv|] eqn:Hocc; [|done].
    apply occupant_lt in Hocc. unfold iterator_eqb. simpl.
    destruct (Nat.eqb_spec (home m k + b) (length (m_buckets m))); [lia|done].
  - rewrite Nat.eqb_refl. simpl. unfold bucket_at. rewrite Hb. simpl.
    destruct (has_overflow b_i); simpl; [|by rewrite iterator_eqb_refl].
    rewrite erase_overflow_scan_first_match.
    match goal with
    | |- context [first_match ?f ?l] => destruct (first_match f l) as [idx|] eqn:Hfirst
    end; simpl; [|by rewrite iterator_eqb_refl].
    apply first_match_Some in Hfirst as (kv & Hkv%lookup_lt_Some & _).
    unfold iterator_eqb. simpl. rewrite !Nat.eqb_refl. simpl.
    destruct (Nat.eqb_spec idx (length (m_overflow_elements m))) as [->|_]; [|done].
    by apply Nat.lt_irrefl in Hkv.
Qed.

Lemma find_spec_end m k :
  m_buckets_end_iterator (find_spec m k) = length (m_buckets m).
Proof.
  unfold find_spec. destruct (m_buckets m !! _); [|done].
  destruct (scan_neighborhood _ _ _); [done|].
  destruct (has_overflow _); [|done]. by destruct (first_match _ _).
Qed.

Lemma erase_semantics m k :
  map_inv m → distinct_keys (elements m) →
  (matching m k = [] ∧ erase m k = Ok (m, 0)) ∨
  (∃ kv m', matching m k = [kv] ∧ erase m k = Ok (m', 1) ∧ map_inv m' ∧
     elements m ≡ₚ kv :: elements m' ∧ S (m_nb_elements m') = m_nb_elements m).
Proof.
  intros Hinv Hd. pose proof Hinv as (Hbinv & _ & _).
  rewrite (erase_find_spec m k Hbinv). pose proof (find_spec_end m k) as Hend.
  assert (home m k < length (m_buckets m)) as Hi.
  { rewrite home_home_in. by apply home_in_lt_length. }
  destruct (find_semantics m k Hinv) as [[Hnone Hfind]|(kv & it & Hin & Heq & Hfind & Hit & Hderef)];
    rewrite (find_find_spec m k Hbinv) in Hfind; injection Hfind as Hfind; simpl.
  - left. rewrite Hfind, iterator_eqb_refl. split; [by apply matching_nil|done].
  - right. rewrite Hfind in *. rewrite Hit.
    pose proof (distinct_keys_matching _ k kv Hd Hin Heq) as Hmatch.
    rewrite (home_key_equal m k kv.1 Heq).
    apply deref_Ok in Hderef as [[Hne Hocc]|[Heq' Hov]]; rewrite Hend in *.
    + apply Nat.eqb_neq in Hne. rewrite Hne.
      destruct (erase_from_bucket_total m (m_buckets_iterator it) (home m kv.1))
        as [m' Hm']; [by eapply occupant_lt|by rewrite <-(home_key_equal m k kv.1 Heq)|].
      rewrite Hm'. simpl.
      destruct (erase_from_bucket_inv m _ kv m' Hinv Hocc Hm') as (? & ? & ? & _).
      exists kv, m'. done.
    + rewrite Heq', Nat.eqb_refl.
      destruct (erase_from_overflow_total m (m_overflow_iterator it) (home m kv.1))
        as [r Hr]; [by eapply lookup_lt_Some|by rewrite <-(home_key_equal m k kv.1 Heq)|].
      rewrite Hr. simpl.
      destruct (erase_from_overflow_inv m _ _ kv r Hinv Hov Hr) as (? & ? & ? & _).
      exists kv, r.1. done.
Qed.

(** C8. [erase(k)] returns 0 and changes nothing when no pair has a key
    equal to [k]; otherwise it returns 1, removes the one pair whose key
    is equal to [k] (from its bucket or from the overflow list), lowers
    the size by one, and [find(k)] returns end afterwards. *)
Theorem erase_by_key m k :
  reachable m →
  (matching m k = [] → erase m k = Ok (m, 0)) ∧
  (matching m k ≠ [] →
   ∃ kv m', matching m k = [kv] ∧ erase m k = Ok (m', 1) ∧
     elements m ≡ₚ kv :: elements m' ∧
     S (m_nb_elements m') = m_nb_elements m ∧
     matching m' k = [] ∧ find m' k = Ok (end_ m')).
Proof.
  intros Hreach. pose proof (reachable_inv m Hreach) as Hinv.
  pose proof (reachable_distinct m Hreach) as Hd.
  destruct (erase_semantics m k Hinv Hd) as [[Hnil Herase]|(kv & m' & Hm & He & Hinv' & Hperm & Hn)].
  - split; [done|]. by intros [].
  - split; [by rewrite Hm|]. intros _. exists kv, m'. split_and!; try done.
    + assert (∀ kv', kv' ∈ elements m' → m_key_equal k kv'.1 = false) as Hnone.
      { assert (kv ∈ matching m k) as [Heq _]%list_elem_of_filter by (rewrite Hm; left).
        assert (distinct_keys (kv :: elements m')) as [Hkv _].
        { eapply distinct_keys_submseteq; [|done]. by rewrite Hperm. }
        intros kv' Hkv'. apply not_true_iff_false. intros Heq'.
        specialize (Hkv kv' Hkv').
        rewrite (key_equal_trans kv.1 k kv'.1) in Hkv; [done| |done].
        by rewrite key_equal_sym. }
      by apply matching_nil.
    + destruct (find_semantics m' k Hinv') as [[_ ?]|(kv' & it & Hin & Heq' & _)]; [done|].
      assert (kv ∈ matching m k) as [Heq _]%list_elem_of_filter by (rewrite Hm; left).
      assert (distinct_keys (kv :: elements m')) as [Hkv _].
      { eapply distinct_keys_submseteq; [|done]. by rewrite Hperm. }
      specialize (Hkv kv' Hin).
      rewrite (key_equal_trans kv.1 k kv'.1) in Hkv; [done| |done].
      by rewrite key_equal_sym.
Qed.

(** C9. [at(k)] throws [std::out_of_range] exactly when no pair has a key
    equal to [k]; otherwise there is one such pair and [at(k)] returns its
    mapped value.  [at] returns no container: it changes nothing. *)
Theorem at_raises_iff_absent m k :
  reachable m →
  (at_ m k = Fail out_of_range ↔ matching m k = []) ∧
  (matching m k ≠ [] → ∃ kv, matching m k = [kv] ∧ at_ m k = Ok kv.2).
Proof.
  intros Hreach. pose proof (reachable_inv m Hreach) as Hinv.
  pose proof (reachable_distinct m Hreach) as Hd. unfold at_.
  destruct (find_semantics m k Hinv) as [[Hnone ->]|(kv & it & Hin & Heq & -> & Hit & Hderef)];
    simpl.
  - rewrite iterator_eqb_refl, (matching_nil m k Hnone). split; [done|]. by intros [].
  - rewrite Hit, Hderef. simpl.
    rewrite (distinct_keys_matching _ k kv Hd Hin Heq : matching m k = [kv]).
    split; [done|]. intros _. by exists kv.
Qed.

(** ** The choices of an insertion *)

Lemma swap_empty_bucket_closer_choice m e m' e' swapped :
  NeighborhoodSize ≤ e →
  swap_empty_bucket_closer m e = Ok (m', e', swapped) →
  if swapped then
    ∃ c, hop_candidate (m_buckets m) (e - NeighborhoodSize + 1) e c e' ∧
         swap_into_empty m c e' e = Ok m'
  else m' = m ∧ e' = e ∧ no_hop_candidate (m_buckets m) (e - NeighborhoodSize + 1) e.
Proof.
  intros HN. unfold swap_empty_bucket_closer. intros Hloop.
  apply swap_empty_bucket_closer_loop_spec in Hloop; [|lia].
  destruct Hloop as [(c & s & Hcand & Hswap & Hs & Hsw)|[[= -> -> ->] Hno]]; simpl in *.
  - subst. eauto.
  - done.
Qed.

Lemma insert_do_while_None kv i : ∀ gas m e m1,
  insert_do_while gas m kv e i = Ok (m1, None) →
  ∃ e', NeighborhoodSize ≤ e' - i ∧ swap_empty_bucket_closer m1 e' = Ok (m1, e', false).
Proof.
  induction gas as [|gas IH]; intros m e m1; simpl; [done|].
  destruct (Nat.ltb_spec (e - i) NeighborhoodSize) as [Hlt|Hge].
  - by intros (r' & _ & [= _ ?])%bind_Ok.
  - intros ([[m' e'] swapped] & Hswap & H)%bind_Ok.
    destruct swapped; [by eapply IH|]. injection H as <-.
    assert (NeighborhoodSize ≤ e) as HN by lia.
    destruct (swap_empty_bucket_closer_choice m e m' e' false HN Hswap) as (-> & -> & _).
    eauto.
Qed.

Lemma will_neighborhood_change_on_rehash_loop_spec m i : ∀ steps ibucket change,
  i ≤ ibucket →
  will_neighborhood_change_on_rehash_loop m steps ibucket i = Ok change →
  (change = true ↔
   ∃ j kv, ibucket ≤ j ∧ j < ibucket + steps ∧ j < i + NeighborhoodSize ∧
     occupant (m_buckets m) j = Some kv ∧
     bucket_for_hash m (hash_of kv.1) ≠
       bucket_for_hash_nb (hash_of kv.1) (get_expand_size m)).
Proof.
  induction steps as [|steps IH]; intros ibucket change Hle; simpl.
  - intros [= <-]. split; [done|]. intros (j & _ & ? & ? & _). lia.
  - destruct (Nat.ltb_spec ibucket (length (m_buckets m))) as [Hlen|Hlen]; simpl.
    + destruct (Nat.ltb_spec (ibucket - i) NeighborhoodSize) as [HN|HN]; simpl.
      * intros (kv & (b & Hb%bucket_at_Ok & Hkv%of_option_Ok)%bind_Ok & H)%bind_Ok.
        assert (occupant (m_buckets m) ibucket = Some kv) as Hocc
          by (apply occupant_Some; eauto).
        destruct (Nat.eqb_spec (bucket_for_hash m (hash_of kv.1))
          (bucket_for_hash_nb (hash_of kv.1) (get_expand_size m))) as [Heq|Hne];
          simpl in H.
        -- apply IH in H; [|lia]. rewrite H. split.
           ++ intros (j & kv' & ? & ? & ? & ? & ?). exists j, kv'.
              split_and!; [lia..|done|done].
           ++ intros (j & kv' & ? & ? & ? & Hj & ?).
              destruct (decide (j = ibucket)) as [->|]; [congruence|].
              exists j, kv'. split_and!; [lia..|done|done].
        -- injection H as <-. split; [|done]. intros _.
           exists ibucket, kv. split_and!; [lia..|done|done].
      * intros [= <-]. split; [done|]. intros (j & _ & ? & ? & ? & _). lia.
    + intros [= <-]. split; [done|].
      intros (j & kv & ? & _ & _ & Hocc%occupant_lt & _). lia.
Qed.

Lemma will_neighborhood_change_on_rehash_spec m i change :
  will_neighborhood_change_on_rehash m i = Ok change →
  (change = true ↔
   ∃ j kv, i ≤ j ∧ j < i + NeighborhoodSize ∧
     occupant (m_buckets m) j = Some kv ∧
     bucket_for_hash m (hash_of kv.1) ≠
       bucket_for_hash_nb (hash_of kv.1) (get_expand_size m)).
Proof.
  intros H%will_neighborhood_change_on_rehash_loop_spec; [|done]. rewrite H.
  split; intros (j & kv & ?); exists j, kv; intuition lia.
Qed.

Lemma insert_internal_unfold fuel m kv i :
  insert_internal (S fuel) m kv i =
  r ← (if m_load_threshold m <? m_nb_elements m + 1 then
         m' ← rehash_internal_with (insert_internal fuel) m (get_expand_size m);
         Ok (m', bucket_for_hash m' (hash_of kv.1))
       else Ok (m, i));
  r ← insert_internal_place r.1 kv r.2;
  match r with
  | inl done => Ok done
  | inr m =>
      m' ← rehash_internal_with (insert_internal fuel) m (get_expand_size m);
      insert_internal fuel m' kv (bucket_for_hash m' (hash_of kv.1))
  end.
Proof.
  simpl. destruct (m_load_threshold m <? m_nb_elements m + 1); [|done].
  by destruct (rehash_internal_with _ _ _).
Qed.

Lemma insert_internal_overflow fuel m kv i m1 :
  map_inv m → i = home m kv.1 →
  m_nb_elements m + 1 ≤ m_load_threshold m →
  find_empty_bucket m i < length (m_buckets m) →
  insert_do_while (S (find_empty_bucket m i)) m kv (find_empty_bucket m i) i = Ok (m1, None) →
  will_neighborhood_change_on_rehash m1 i = Ok false →
  ∃ m', insert_internal (S fuel) m kv i =
          Ok (m', ({| m_buckets_iterator := length (m_buckets m');
                      m_buckets_end_iterator := length (m_buckets m');
                      m_overflow_iterator := length (m_overflow_elements m) |}, true)) ∧
    m_overflow_elements m' = m_overflow_elements m ++ [kv] ∧
    m_nb_elements m' = m_nb_elements m + 1 ∧
    (∃ b, m_buckets m' !! i = Some b ∧ has_overflow b = true) ∧
    bucket_elements (m_buckets m') ≡ₚ bucket_elements (m_buckets m).
Proof.
  intros Hinv Hi Hn He Hloop Hchange. pose proof Hinv as (Hbinv & _ & _).
  destruct (find_empty_bucket_spec m i He) as (Hle & _ & (b_e & Hbe & Hempty) & _).
  assert (occupant (m_buckets m) (find_empty_bucket m i) = None) as Hnone.
  { rewrite (occupant_lookup _ _ _ Hbe). by apply bucket_wf_empty; [eapply inv_wf|]. }
  destruct (insert_do_while_inv kv i _ _ _ _ Hbinv Hnone He Hi Hle Hloop)
    as (Hinv1 & [Hlen1 Hflags1] & (Hov1 & _ & _) & Hn1 & Hperm1).
  cbn [fst snd] in Hinv1, Hlen1, Hflags1, Hov1, Hn1, Hperm1.
  assert (i < length (m_buckets m1)) as Hilt.
  { rewrite Hlen1, Hi, home_home_in. by apply home_in_lt_length. }
  destruct (lookup_lt_is_Some_2 _ _ Hilt) as [b Hb].
  destruct (set_overflow_lookup (m_buckets m1) true i i b (inv_wf _ Hinv1 _ _ Hb) Hb)
    as (b' & Hb' & _ & _ & _ & Hbit).
  exists {| m_buckets := alter (set_overflow true) i (m_buckets m1);
            m_overflow_elements := m_overflow_elements m1 ++ [kv];
            m_nb_elements := m_nb_elements m1 + 1;
            m_max_load_factor := m_max_load_factor m1;
            m_load_threshold := m_load_threshold m1 |}.
  split_and!.
  - rewrite insert_internal_unfold.
    destruct (Nat.ltb_spec (m_load_threshold m) (m_nb_elements m + 1)); [lia|].
    rewrite bind_Ok_l. cbn [fst snd]. unfold insert_internal_place.
    destruct (Nat.ltb_spec (find_empty_bucket m i) (length (m_buckets m))); [|lia].
    rewrite Hloop, bind_Ok_l. cbn iota. rewrite Hchange, bind_Ok_l. cbn [negb].
    unfold modify_bucket.
    destruct (Nat.ltb_spec i (length (m_buckets m1))); [|lia].
    rewrite !bind_Ok_l. cbn iota.
    cbn [m_overflow_elements m_buckets]. rewrite length_app. cbn [length].
    rewrite Nat.add_sub. by rewrite <-Hov1.
  - simpl. by rewrite Hov1.
  - simpl. lia.
  - simpl. exists b'. split; [done|]. rewrite has_overflow_bit, Hbit.
    by rewrite decide_True.
  - simpl. destruct (buckets_inv_set_overflow (m_buckets m1) true i Hinv1) as (_ & _ & ->).
    done.
Qed.

(** When the loop of [insert_internal] gives up, every bucket of the
    neighborhood of the home bucket holds a pair. *)
Lemma insert_do_while_occupied kv i : ∀ gas m e m1,
  buckets_inv (m_buckets m) → occupant (m_buckets m) e = None → e < length (m_buckets m) →
  i ≤ e →
  (∀ j, i ≤ j → j < e → is_Some (occupant (m_buckets m) j)) →
  insert_do_while gas m kv e i = Ok (m1, None) →
  ∀ j, i ≤ j → j < i + NeighborhoodSize → is_Some (occupant (m_buckets m1) j).
Proof.
  induction gas as [|gas IH]; intros m e m1 Hinv Hnone He Hle Hfull; simpl; [done|].
  destruct (Nat.ltb_spec (e - i) NeighborhoodSize) as [Hlt|Hge].
  - by intros (r' & _ & [= _ ?])%bind_Ok.
  - intros ([[m' e'] swapped] & Hswap & H)%bind_Ok.
    assert (NeighborhoodSize ≤ e) as HN by lia.
    destruct (swap_empty_bucket_closer_inv m e m' e' swapped Hinv Hnone He HN Hswap)
      as (Hinv' & [Hlen _] & _ & _ & _ & Hcase).
    destruct swapped.
    + destruct Hcase as (Hlow & Hlt' & Hnone' & _ & Hsame).
      apply (IH m' e'); [done|done|lia|lia| |done].
      intros j ??. rewrite Hsame; [|lia..]. apply Hfull; lia.
    + destruct Hcase as [-> ->]. injection H as <-.
      intros j ??. apply Hfull; lia.
Qed.

Lemma will_neighborhood_change_on_rehash_loop_total m i : ∀ steps ibucket,
  (∀ j, ibucket ≤ j → j - i < NeighborhoodSize → j < length (m_buckets m) →
        is_Some (occupant (m_buckets m) j)) →
  ∃ change, will_neighborhood_change_on_rehash_loop m steps ibucket i = Ok change.
Proof.
  induction steps as [|steps IH]; intros ibucket Hfull; simpl; [by eexists|].
  destruct (Nat.ltb_spec ibucket (length (m_buckets m))) as [Hlen|Hlen]; simpl;
    [|by eexists].
  destruct (Nat.ltb_spec (ibucket - i) NeighborhoodSize) as [HN|HN]; simpl;
    [|by eexists].
  destruct (Hfull ibucket) as [kv Hkv]; [lia..|].
  apply occupant_Some in Hkv as (b & Hb & Hkv).
  apply bucket_at_Ok in Hb. rewrite Hb, bind_Ok_l.
  unfold get_key_value. rewrite Hkv. cbn [of_option]. rewrite bind_Ok_l.
  destruct (negb _); [by eexists|].
  apply IH. intros j ???. apply Hfull; lia.
Qed.

(** The decision of [insert_internal] between the overflow list and a
    rehash, for a map that needs no rehash for its load. *)
Lemma insert_internal_decision fuel m kv m1 :
  map_inv m →
  m_nb_elements m + 1 ≤ m_load_threshold m →
  find_empty_bucket m (home m kv.1) < length (m_buckets m) →
  insert_do_while (S (find_empty_bucket m (home m kv.1))) m kv
    (find_empty_bucket m (home m kv.1)) (home m kv.1) = Ok (m1, None) →
  ∃ change, will_neighborhood_change_on_rehash m1 (home m kv.1) = Ok change ∧
    (change = true ↔
     ∃ j kv', home m kv.1 ≤ j ∧ j < home m kv.1 + NeighborhoodSize ∧
       occupant (m_buckets m1) j = Some kv' ∧
       bucket_for_hash m1 (hash_of kv'.1) ≠
         bucket_for_hash_nb (hash_of kv'.1) (get_expand_size m1)) ∧
    (change = false →
     ∃ m', insert_internal (S fuel) m kv (home m kv.1) =
             Ok (m', ({| m_buckets_iterator := length (m_buckets m');
                         m_buckets_end_iterator := length (m_buckets m');
                         m_overflow_iterator := length (m_overflow_elements m) |}, true)) ∧
       m_overflow_elements m' = m_overflow_elements m ++ [kv] ∧
       m_nb_elements m' = m_nb_elements m + 1 ∧
       (∃ b, m_buckets m' !! home m kv.1 = Some b ∧ has_overflow b = true) ∧
       bucket_elements (m_buckets m') ≡ₚ bucket_elements (m_buckets m)).
Proof.
  intros Hinv Hn He Hloop. pose proof Hinv as (Hbinv & _ & _).
  destruct (find_empty_bucket_spec m (home m kv.1) He) as (Hle & _ & (b_e & Hbe & Hempty) & Hfull).
  assert (occupant (m_buckets m) (find_empty_bucket m (home m kv.1)) = None) as Hnone.
  { rewrite (occupant_lookup _ _ _ Hbe).
    destruct (m_key_value b_e) as [kv'|] eqn:Hkv'; [|done].
    assert (is_empty b_e = false) as Hne; [|congruence].
    rewrite is_empty_bit. apply negb_false_iff.
    apply (inv_wf _ Hbinv _ _ Hbe). by rewrite Hkv'. }
  assert (∀ j, home m kv.1 ≤ j → j < find_empty_bucket m (home m kv.1) →
               is_Some (occupant (m_buckets m) j)) as Hfull'.
  { intros j Hj1 Hj2.
    destruct (lookup_lt_is_Some_2 (m_buckets m) j) as [b Hb]; [lia|].
    rewrite (occupant_lookup _ _ _ Hb). apply (inv_wf _ Hbinv _ _ Hb).
    specialize (Hfull j b Hj1 Hj2 Hb). rewrite is_empty_bit in Hfull.
    by apply negb_false_iff in Hfull. }
  pose proof (insert_do_while_occupied kv _ _ m _ m1 Hbinv Hnone He Hle Hfull' Hloop) as Hocc.
  destruct (will_neighborhood_change_on_rehash_loop_total m1 (home m kv.1)
              NeighborhoodSize (home m kv.1)) as [change Hchange].
  { intros j ???. apply Hocc; lia. }
  exists change. split; [done|]. split.
  - by apply will_neighborhood_change_on_rehash_spec.
  - intros ->. by apply (insert_internal_overflow fuel m kv (home m kv.1) m1).
Qed.

Lemma swap_into_empty_total m c s e :
  c < length (m_buckets m) → s < length (m_buckets m) → e < length (m_buckets m) →
  ∃ m', swap_into_empty m c s e = Ok m'.
Proof.
  intros Hc Hs He. unfold swap_into_empty.
  destruct (lookup_lt_is_Some_2 (m_buckets m) s Hs) as [b_s Hbs].
  destruct (lookup_lt_is_Some_2 (m_buckets m) e He) as [b_e Hbe].
  apply bucket_at_Ok in Hbs, Hbe. rewrite Hbs, bind_Ok_l, Hbe, bind_Ok_l.
  destruct (swap_key_value_with_empty_bucket b_s b_e) as [b_s' b_e'].
  unfold modify_bucket. rewrite !length_insert.
  destruct (Nat.ltb_spec c (length (m_buckets m))) as [_|]; [|lia].
  rewrite bind_Ok_l, length_alter, !length_insert.
  destruct (Nat.ltb_spec c (length (m_buckets m))) as [_|]; [|lia].
  rewrite bind_Ok_l. by eexists.
Qed.

Lemma swap_empty_bucket_closer_loop_total m e : ∀ steps to_check,
  to_check + steps = e → e < length (m_buckets m) →
  ∃ r, swap_empty_bucket_closer_loop m steps to_check e = Ok r.
Proof.
  induction steps as [|steps IH]; intros to_check Hsteps He; simpl; [by eexists|].
  destruct (lookup_lt_is_Some_2 (m_buckets m) to_check) as [b Hb]; [lia|].
  apply bucket_at_Ok in Hb. rewrite Hb, bind_Ok_l.
  destruct (match get_neighborhood_infos b with
            | Zpos neighborhood_infos => first_to_swap neighborhood_infos to_check e
            | _ => None
            end) as [s|] eqn:Hfirst.
  - destruct (get_neighborhood_infos b) as [|p|p]; try done.
    apply first_to_swap_Some in Hfirst as (t & -> & Hlt & _).
    destruct (swap_into_empty_total m to_check (to_check + t) e) as [m' ->]; [lia..|].
    rewrite bind_Ok_l. by eexists.
  - apply IH; [lia|done].
Qed.

Lemma swap_empty_bucket_closer_total m e :
  NeighborhoodSize ≤ e → e < length (m_buckets m) →
  ∃ r, swap_empty_bucket_closer m e = Ok r.
Proof.
  intros HN He. unfold swap_empty_bucket_closer.
  apply swap_empty_bucket_closer_loop_total; [|done].
  pose proof NeighborhoodSize_pos. lia.
Qed.
(** * Further properties of the code *)

Hypothesis key_equal_refl : ∀ k, m_key_equal k k = true.

(** ** The constructor *)

Lemma round_up_loop_spec : ∀ fuel q value,
  value ≤ 2 ^ q + fuel → (∀ p, value ≤ 2 ^ p → 2 ^ q ≤ 2 ^ p) →
  ∃ r, round_up_loop fuel (2 ^ q) value = 2 ^ r ∧ value ≤ 2 ^ r ∧
       ∀ p, value ≤ 2 ^ p → 2 ^ r ≤ 2 ^ p.
Proof using Type.
  clear NeighborhoodSize_pos NeighborhoodSize_max.
  induction fuel as [|fuel IH]; intros q value Hfuel Hq; simpl.
  { exists q. split_and!; [done|lia|done]. }
  destruct (Nat.ltb_spec (2 ^ q) value) as [Hlt|Hge].
  - replace (2 ^ q * 2) with (2 ^ S q) by (rewrite Nat.pow_succ_r'; lia).
    pose proof (Nat.pow_nonzero 2 q).
    apply IH; [rewrite Nat.pow_succ_r'; lia|]. intros p Hp.
    apply Nat.pow_le_mono_r; [lia|].
    assert (2 ^ q < 2 ^ p) as Hpow by lia.
    apply Nat.pow_lt_mono_r_iff in Hpow; lia.
  - exists q. split_and!; [done|lia|done].
Qed.

(** X1.  For [value] up to [2^63], where the shifts of the loop stay within
    [std::size_t], [round_up_to_power_of_two(value)] is the least power of
    two that is at least [value]. *)
Theorem round_up_to_power_of_two_least (value : nat) :
  value ≤ 2 ^ 63 →
  ∃ r, r ≤ 63 ∧ round_up_to_power_of_two value = 2 ^ r ∧ value ≤ 2 ^ r ∧
       ∀ p, value ≤ 2 ^ p → 2 ^ r ≤ 2 ^ p.
Proof using Type.
  clear NeighborhoodSize_pos NeighborhoodSize_max. intros Hvalue.
  destruct (round_up_loop_spec value 0 value) as (r & Hr & Hge & Hle); [lia| |].
  { intros p _. apply Nat.pow_le_mono_r; lia. }
  exists r. split_and!; [|done..].
  specialize (Hle 63 Hvalue). apply Nat.pow_le_mono_r_iff in Hle; lia.
Qed.

Lemma round_up_to_power_of_two_id p : round_up_to_power_of_two (2 ^ p) = 2 ^ p.
Proof using Type.
  clear NeighborhoodSize_pos NeighborhoodSize_max.
  destruct (round_up_loop_spec (2 ^ p) 0 (2 ^ p)) as (r & Hr & Hge & Hle); [lia| |].
  { intros p' _. apply Nat.pow_le_mono_r; lia. }
  change (round_up_to_power_of_two (2 ^ p)) with (round_up_loop (2 ^ p) (2 ^ 0) (2 ^ p)).
  rewrite Hr. specialize (Hle p ltac:(lia)). lia.
Qed.






(** ** Lookups by key *)

Lemma lookup_present m k kv :
  map_inv m → distinct_keys (elements m) → kv ∈ elements m → m_key_equal k kv.1 = true →
  matching m k = [kv] ∧
  ∃ it, find m k = Ok it ∧ iterator_eqb it (end_ m) = false ∧ deref m it = Ok kv.
Proof.
  intros Hinv Hd Hin Heq.
  pose proof (distinct_keys_matching _ k kv Hd Hin Heq : matching m k = [kv]) as Hm.
  split; [done|].
  destruct (find_semantics m k Hinv) as [[Hnone _]|(kv' & it & Hin' & Heq' & Hfind & Hit & Hderef)].
  - by rewrite (Hnone kv Hin) in Heq.
  - pose proof (distinct_keys_matching _ k kv' Hd Hin' Heq' : matching m k = [kv']) as Hm'.
    assert (kv' = kv) as -> by congruence. eauto.
Qed.

Lemma lookup_absent m k :
  map_inv m → matching m k = [] → find m k = Ok (end_ m).
Proof.
  intros Hinv Hnil.
  destruct (find_semantics m k Hinv) as [[_ Hfind]|(kv' & it & Hin' & Heq' & _)]; [done|].
  by rewrite (matching_nil_inv m k kv' Hnil Hin') in Heq'.
Qed.

Lemma at_present m k kv it :
  find m k = Ok it → iterator_eqb it (end_ m) = false → deref m it = Ok kv →
  at_ m k = Ok kv.2 ∧ cnt m k = Ok 1.
Proof.
  intros Hfind Hit Hderef. unfold at_, cnt. rewrite Hfind. cbn. rewrite Hit, Hderef. done.
Qed.

(** X3.  [count(key)] is the number of stored pairs whose key is equal to
    [key], which is 0 or 1. *)
Theorem count_matching m k :
  reachable m → cnt m k = Ok (length (matching m k)) ∧ length (matching m k) ≤ 1.
Proof.
  intros Hreach. pose proof (reachable_inv m Hreach) as Hinv.
  pose proof (reachable_distinct m Hreach) as Hd.
  destruct (matching m k) as [|kv l] eqn:Hm.
  - split; [|simpl; lia]. unfold cnt. rewrite (lookup_absent m k Hinv Hm). cbn.
    by rewrite iterator_eqb_refl.
  - assert (kv ∈ matching m k) as Hkv by (rewrite Hm; left).
    apply list_elem_of_filter in Hkv as [Heq Hin].
    destruct (lookup_present m k kv Hinv Hd Hin Heq) as (Hm' & it & Hfind & Hit & Hderef).
    rewrite Hm in Hm'. injection Hm' as ->. split; [|simpl; lia].
    by destruct (at_present m k kv it Hfind Hit Hderef).
Qed.

(** ** Insertion *)

(** X4.  [insert] and [try_emplace] of a key that is present return the
    position of the stored pair and [false], and leave the map as it is:
    the mapped value is not replaced. *)
Theorem insert_present fuel m k v kv :
  reachable m → kv ∈ elements m → m_key_equal k kv.1 = true →
  ∃ it, insert fuel m (k, v) = Ok (m, (it, false)) ∧
        try_emplace fuel m k v = Ok (m, (it, false)) ∧
        find m k = Ok it ∧ deref m it = Ok kv ∧ at_ m k = Ok kv.2.
Proof.
  intros Hreach Hin Heq. pose proof (reachable_inv m Hreach) as Hinv.
  pose proof (reachable_distinct m Hreach) as Hd.
  destruct (lookup_present m k kv Hinv Hd Hin Heq) as (_ & it & Hfind & Hit & Hderef).
  exists it.
  assert (insert fuel m (k, v) = Ok (m, (it, false))) as Hins.
  { rewrite insert_unfold. cbn [fst]. rewrite Hfind, bind_Ok_l, Hit. done. }
  split_and!; try done. by destruct (at_present m k kv it Hfind Hit Hderef).
Qed.

(** X5.  When [insert] returns, it returns the position of a pair whose
    key is equal to the given key, and the key is found afterwards: with
    [true] the pair is the given one and the key was absent; with [false]
    the map is unchanged and the pair is the one stored before.  No bucket
    is given up, [max_load_factor()] is kept and no other pair is added. *)
Theorem insert_position fuel m k v m' it inserted :
  reachable m → insert fuel m (k, v) = Ok (m', (it, inserted)) →
  ∃ kv, deref m' it = Ok kv ∧ m_key_equal k kv.1 = true ∧
    matching m' k = [kv] ∧ at_ m' k = Ok kv.2 ∧ cnt m' k = Ok 1 ∧
    (if inserted then kv = (k, v) ∧ matching m k = []
     else m' = m ∧ kv ∈ elements m) ∧
    elements m' ⊆+ (k, v) :: elements m ∧
    length (m_buckets m) ≤ length (m_buckets m') ∧
    max_load_factor m' = max_load_factor m.
Proof.
  intros Hreach Hins. pose proof (reachable_inv m Hreach) as Hinv.
  assert (reachable m') as Hreach'.
  { eapply reachable_step; [done|]. by apply (step_insert fuel m (k, v) _ Hins). }
  pose proof (reachable_inv m' Hreach') as Hinv'.
  pose proof (reachable_distinct m' Hreach') as Hd'.
  rewrite insert_unfold in Hins. cbn [fst] in Hins.
  destruct (find_semantics m k Hinv) as [[Hnone Hfind]|(kv & it0 & Hin & Heq & Hfind & Hit & Hderef)];
    rewrite Hfind, bind_Ok_l in Hins.
  - rewrite iterator_eqb_refl in Hins. cbn [negb] in Hins.
    destruct (insert_internal_ok fuel m (k, v) _ Hinv Hins)
      as (_ & Hsub & Hml & Hlen & Htrue & Hderef). cbn [fst snd] in *. subst inserted.
    assert ((k, v) ∈ elements m') as Hin.
    { apply deref_Ok in Hderef as [[_ Hocc]|[_ Hov]]; apply elem_of_app.
      - left. apply elem_of_bucket_elements. eauto.
      - right. apply list_elem_of_lookup. eauto. }
    destruct (lookup_present m' k (k, v) Hinv' Hd' Hin (key_equal_refl k))
      as (Hm & it' & Hfind' & Hit' & Hderef').
    exists (k, v). split_and!; try done;
      try (by destruct (at_present m' k _ it' Hfind' Hit' Hderef')).
    by apply matching_nil.
  - rewrite Hit in Hins. cbn [negb] in Hins. injection Hins as <- <- <-.
    destruct (lookup_present m k kv Hinv Hd' Hin Heq) as (Hm & _).
    exists kv. split_and!; try done;
      try (by destruct (at_present m k kv it0 Hfind Hit Hderef)).
    by apply submseteq_cons.
Qed.

(** X6.  [operator[]] returns the position of a pair with an equal key:
    the stored pair, with the map unchanged, when the key is present, and
    the pair of the key and [T()] when it was absent.  For a present key
    it always returns. *)
Theorem subscript_position fuel m k :
  reachable m →
  (∀ kv, kv ∈ elements m → m_key_equal k kv.1 = true →
     ∃ it, subscript fuel m k = Ok (m, it) ∧ deref m it = Ok kv) ∧
  (∀ m' it, subscript fuel m k = Ok (m', it) →
     ∃ kv, deref m' it = Ok kv ∧ m_key_equal k kv.1 = true ∧ at_ m' k = Ok kv.2 ∧
       (matching m k = [] → kv = (k, T_default)) ∧
       (matching m k ≠ [] → m' = m ∧ matching m k = [kv])).
Proof.
  intros Hreach. pose proof (reachable_inv m Hreach) as Hinv.
  pose proof (reachable_distinct m Hreach) as Hd. split.
  - intros kv Hin Heq.
    destruct (lookup_present m k kv Hinv Hd Hin Heq) as (_ & it & Hfind & Hit & Hderef).
    exists it. unfold subscript. by rewrite Hfind, bind_Ok_l, Hit.
  - intros m' it. unfold subscript.
    destruct (find_semantics m k Hinv)
      as [[Hnone Hfind]|(kv & it0 & Hin & Heq & Hfind & Hit & Hderef)];
      rewrite Hfind, bind_Ok_l.
    + rewrite iterator_eqb_refl.
      intros ([m1 [it1 b]] & Hins & [= <- <-])%bind_Ok.
      assert (reachable m1) as Hreach1.
      { eapply reachable_step; [done|]. by apply (step_insert fuel m (k, T_default) _ Hins). }
      rewrite insert_unfold in Hins. cbn [fst] in Hins.
      rewrite Hfind, bind_Ok_l, iterator_eqb_refl in Hins. cbn [negb] in Hins.
      destruct (insert_internal_ok fuel m (k, T_default) _ Hinv Hins)
        as (_ & _ & _ & _ & _ & Hderef). cbn [fst snd] in *.
      assert ((k, T_default) ∈ elements m1) as Hin.
      { apply deref_Ok in Hderef as [[_ Hocc]|[_ Hov]]; apply elem_of_app.
        - left. apply elem_of_bucket_elements. eauto.
        - right. apply list_elem_of_lookup. eauto. }
      destruct (lookup_present m1 k (k, T_default) (reachable_inv m1 Hreach1)
                  (reachable_distinct m1 Hreach1) Hin (key_equal_refl k))
        as (_ & it' & Hfind' & Hit' & Hderef').
      exists (k, T_default). split_and!; try done;
        try (by destruct (at_present m1 k _ it' Hfind' Hit' Hderef')).
      intros Hne. by rewrite (matching_nil m k Hnone) in Hne.
    + rewrite Hit. intros [= <- <-].
      destruct (lookup_present m k kv Hinv Hd Hin Heq) as (Hm & _).
      exists kv. split_and!; try done;
        try (by destruct (at_present m k kv it0 Hfind Hit Hderef)).
      rewrite Hm. done.
Qed.

(** ** [is_power_of_two] *)

Lemma land_even_odd (x y : Z) : Z.land (2 * x) (2 * y + 1) = (2 * Z.land x y)%Z.
Proof using Type.
  clear NeighborhoodSize_pos NeighborhoodSize_max.
  apply Z.bits_inj'. intros n Hn. rewrite Z.land_spec.
  destruct (Z.eq_dec n 0%Z) as [->|Hne].
  - by rewrite !Z.testbit_even_0.
  - replace n with (Z.succ (n - 1)) by lia.
    rewrite !Z.testbit_even_succ, Z.testbit_odd_succ, Z.land_spec by lia. done.
Qed.

Lemma land_odd_even (x : Z) : Z.land (2 * x + 1) (2 * x) = (2 * x)%Z.
Proof using Type.
  clear NeighborhoodSize_pos NeighborhoodSize_max.
  apply Z.bits_inj'. intros n Hn. rewrite Z.land_spec.
  destruct (Z.eq_dec n 0%Z) as [->|Hne].
  - by rewrite Z.testbit_even_0, andb_false_r.
  - replace n with (Z.succ (n - 1)) by lia.
    rewrite !Z.testbit_even_succ, Z.testbit_odd_succ by lia. apply andb_diag.
Qed.

Lemma land_pred_pos p :
  Z.land (Zpos p) (Zpos p - 1) = 0%Z ↔ ∃ q : nat, Zpos p = (2 ^ Z.of_nat q)%Z.
Proof using Type.
  clear NeighborhoodSize_pos NeighborhoodSize_max.
  induction p as [p IH|p IH|].
  - replace (Zpos p~1 - 1)%Z with (2 * Zpos p)%Z by lia.
    replace (Zpos p~1) with (2 * Zpos p + 1)%Z by lia.
    rewrite land_odd_even. split; [lia|]. intros [[|q] Hq].
    + simpl in Hq. lia.
    + rewrite Nat2Z.inj_succ, Z.pow_succ_r in Hq by lia. lia.
  - replace (Zpos p~0 - 1)%Z with (2 * (Zpos p - 1) + 1)%Z by lia.
    replace (Zpos p~0) with (2 * Zpos p)%Z by lia.
    rewrite land_even_odd. split.
    + intros Hland. destruct (proj1 IH ltac:(lia)) as [q Hq].
      exists (S q). rewrite Nat2Z.inj_succ, Z.pow_succ_r by lia. lia.
    + intros [[|q] Hq].
      * simpl in Hq. lia.
      * rewrite Nat2Z.inj_succ, Z.pow_succ_r in Hq by lia.
        assert (Z.land (Zpos p) (Zpos p - 1) = 0%Z) as ->; [|done].
        apply IH. exists q. lia.
  - split; [|done]. intros _. by exists 0.
Qed.

Lemma is_power_of_two_pow2 (value : nat) :
  is_power_of_two (Z.of_nat value) = true ↔ ∃ q, value = 2 ^ q.
Proof using Type.
  clear NeighborhoodSize_pos NeighborhoodSize_max.
  unfold is_power_of_two. destruct value as [|n].
  - simpl. split; [done|]. intros [q Hq]. pose proof (Nat.pow_nonzero 2 q). lia.
  - rewrite andb_true_iff, negb_true_iff, !Z.eqb_eq, Z.eqb_neq.
    replace (Z.of_nat (S n)) with (Zpos (Pos.of_succ_nat n)) by lia.
    rewrite land_pred_pos. split.
    + intros [_ [q Hq]]. exists q. apply Nat2Z.inj.
      rewrite Nat2Z.inj_pow. simpl Z.of_nat at 2. lia.
    + intros [q Hq]. split; [lia|]. exists q.
      apply (f_equal Z.of_nat) in Hq. rewrite Nat2Z.inj_pow in Hq.
      simpl Z.of_nat at 2 in Hq. lia.
Qed.

(** X7.  On a [std::size_t], [is_power_of_two(value)] is true exactly when
    [value] is a power of two. *)
Theorem is_power_of_two_spec (value : Z) :
  (0 ≤ value < 2 ^ 64)%Z →
  is_power_of_two value = true ↔ ∃ q, q < 64 ∧ value = (2 ^ Z.of_nat q)%Z.
Proof using Type.
  clear NeighborhoodSize_pos NeighborhoodSize_max. intros Hvalue.
  rewrite <- (Z2Nat.id value) at 1 by lia. rewrite is_power_of_two_pow2. split.
  - intros [q Hq]. exists q.
    assert (value = (2 ^ Z.of_nat q)%Z) as ->.
    { apply (f_equal Z.of_nat) in Hq. rewrite Z2Nat.id, Nat2Z.inj_pow in Hq by lia.
      exact Hq. }
    split; [|done]. destruct (Nat.lt_ge_cases q 64) as [|Hq64]; [done|].
    assert (2 ^ 64 ≤ 2 ^ Z.of_nat q)%Z by (apply Z.pow_le_mono_r; lia). lia.
  - intros (q & _ & ->). exists q. apply Nat2Z.inj.
    rewrite Z2Nat.id by (apply Z.pow_nonneg; lia). by rewrite Nat2Z.inj_pow.
Qed.

(** ** Invariants of the reachable states *)

Lemma distinct_keys_lookup (l : list value_type) i j kv1 kv2 :
  distinct_keys l → l !! i = Some kv1 → l !! j = Some kv2 →
  m_key_equal kv1.1 kv2.1 = true → i = j.
Proof.
  revert i j. induction l as [|kv l IH]; intros i j Hd Hi Hj Heq; [done|].
  destruct Hd as [Hhead Hd].
  destruct i as [|i], j as [|j]; simpl in *; [done| | |f_equal; by apply IH].
  - injection Hi as ->. apply list_elem_of_lookup_2 in Hj.
    by rewrite (Hhead kv2 Hj) in Heq.
  - injection Hj as ->. apply list_elem_of_lookup_2 in Hi.
    rewrite key_equal_sym in Heq. by rewrite (Hhead kv1 Hi) in Heq.
Qed.

(** X8.  No key is stored twice: in every reachable state two stored
    pairs with equal keys are the same pair of the same bucket or of the
    same place of the overflow list. *)
Theorem keys_unique m i j kv1 kv2 :
  reachable m →
  elements m !! i = Some kv1 → elements m !! j = Some kv2 →
  m_key_equal kv1.1 kv2.1 = true → i = j ∧ kv1 = kv2.
Proof.
  intros Hreach Hi Hj Heq.
  assert (i = j) as -> by (by eapply distinct_keys_lookup; [apply reachable_distinct|..]).
  split; [done|congruence].
Qed.

(** *** The load threshold *)

Lemma load_ok_same m m' :
  length (m_buckets m') = length (m_buckets m) →
  m_max_load_factor m' = m_max_load_factor m →
  m_load_threshold m' = m_load_threshold m →
  load_ok m → load_ok m'.
Proof. unfold load_ok, bucket_count. by intros -> -> ->. Qed.

Lemma load_ok_new cnt0 ml : load_ok (hopscotch_map_new cnt0 ml).
Proof. done. Qed.

Lemma rehash_buckets_load ins :
  insert_ok ins →
  (∀ m kv r, map_inv m → load_ok m → ins m kv (home m kv.1) = Ok r → load_ok r.1) →
  ∀ bs tmp tmp',
  map_inv tmp → load_ok tmp → rehash_buckets ins tmp bs = Ok tmp' → load_ok tmp'.
Proof.
  intros Hins Hload. induction bs as [|b bs IH]; intros tmp tmp' Hinv Hok; simpl.
  - by intros [= <-].
  - destruct (is_empty b); [by apply IH|].
    intros (kv & _ & H)%bind_Ok. apply bind_Ok in H as (r & Hr & H).
    apply (IH r.1 tmp'); [|by eapply Hload|done].
    by destruct (Hins tmp kv r Hinv Hr).
Qed.

Lemma rehash_overflow_load ins :
  insert_ok ins →
  (∀ m kv r, map_inv m → load_ok m → ins m kv (home m kv.1) = Ok r → load_ok r.1) →
  ∀ l tmp tmp',
  map_inv tmp → load_ok tmp → rehash_overflow ins tmp l = Ok tmp' → load_ok tmp'.
Proof.
  intros Hins Hload. induction l as [|kv l IH]; intros tmp tmp' Hinv Hok; simpl.
  - by intros [= <-].
  - intros (r & Hr & H)%bind_Ok.
    apply (IH r.1 tmp'); [|by eapply Hload|done].
    by destruct (Hins tmp kv r Hinv Hr).
Qed.

Lemma rehash_internal_with_load ins m cnt0 m' :
  insert_ok ins →
  (∀ m kv r, map_inv m → load_ok m → ins m kv (home m kv.1) = Ok r → load_ok r.1) →
  rehash_internal_with ins m cnt0 = Ok m' → load_ok m'.
Proof.
  intros Hins Hload. unfold rehash_internal_with.
  destruct (hopscotch_map_new_inv cnt0 (m_max_load_factor m)) as (Hnew & _).
  pose proof (load_ok_new cnt0 (m_max_load_factor m)) as Hoknew.
  destruct nothrow_move_constructible.
  - intros (tmp & Htmp & H)%bind_Ok.
    pose proof (rehash_buckets_load ins Hins Hload _ _ _ Hnew Hoknew Htmp) as Hok.
    apply rehash_buckets_inv in Htmp as ((Hbinv & _) & _); [|done..].
    destruct (m_overflow_elements m) as [|kv0 ov]; [by injection H as <-|].
    apply set_overflow_flags_inv in H as (_ & _ & Hlen & _ & _ & Hml & Hth & _); [|done].
    by apply (load_ok_same tmp).
  - intros (tmp & Htmp & H)%bind_Ok.
    pose proof (rehash_buckets_load ins Hins Hload _ _ _ Hnew Hoknew Htmp) as Hok.
    apply rehash_buckets_inv in Htmp as (Hinv & _); [|done..].
    by apply (rehash_overflow_load ins Hins Hload _ _ _ Hinv Hok H).
Qed.

Lemma insert_internal_load fuel : ∀ m kv r,
  map_inv m → load_ok m → insert_internal fuel m kv (home m kv.1) = Ok r → load_ok r.1.
Proof.
  induction fuel as [|fuel IH]; intros m kv r Hinv Hok; [done|].
  rewrite insert_internal_unfold.
  intros ([m1 i1] & H1 & H)%bind_Ok. cbn [fst snd] in H.
  assert (map_inv m1 ∧ load_ok m1 ∧ i1 = home m1 kv.1) as (Hinv1 & Hok1 & ->).
  { destruct (m_load_threshold m <? m_nb_elements m + 1).
    - apply bind_Ok in H1 as (m' & Hre & [= <- <-]). split_and!; [| |done].
      + by apply rehash_internal_with_inv in Hre as (? & _); [|apply insert_internal_ok].
      + by eapply rehash_internal_with_load; [apply insert_internal_ok|apply IH|].
    - by injection H1 as <- <-. }
  apply bind_Ok in H as (r2 & H2 & H).
  apply insert_internal_place_inv in H2; [|done..].
  destruct r2 as [done|m2].
  - injection H as <-. destruct H2 as (_ & _ & _ & _ & _ & Hlen & Hml & Hth).
    by apply (load_ok_same m1).
  - destruct H2 as (Hinv2 & _ & _ & Hlen2 & Hml2 & Hth2).
    apply bind_Ok in H as (m3 & Hre & H).
    apply (IH m3 kv r); [| |done].
    + by apply rehash_internal_with_inv in Hre as (? & _); [|apply insert_internal_ok].
    + by eapply rehash_internal_with_load; [apply insert_internal_ok|apply IH|].
Qed.

Lemma insert_load fuel m kv r :
  map_inv m → load_ok m → insert fuel m kv = Ok r → load_ok r.1.
Proof.
  intros Hinv Hok. rewrite insert_unfold. intros (it & _ & H)%bind_Ok.
  destruct (negb _); [by injection H as <-|]. by eapply insert_internal_load.
Qed.

Lemma erase_from_bucket_settings m pos i m' :
  erase_from_bucket m pos i = Ok m' →
  length (m_buckets m') = length (m_buckets m) ∧
  m_max_load_factor m' = m_max_load_factor m ∧
  m_load_threshold m' = m_load_threshold m.
Proof.
  unfold erase_from_bucket.
  intros (bs1 & [_ ->]%modify_bucket_Ok & H)%bind_Ok.
  apply bind_Ok in H as (bs2 & [_ ->]%modify_bucket_Ok & [= <-]). simpl.
  by rewrite !length_alter.
Qed.

Lemma erase_from_overflow_settings m pos i r :
  erase_from_overflow m pos i = Ok r →
  length (m_buckets r.1) = length (m_buckets m) ∧
  m_max_load_factor r.1 = m_max_load_factor m ∧
  m_load_threshold r.1 = m_load_threshold m.
Proof.
  unfold erase_from_overflow. destruct (negb _); [done|]. cbv zeta.
  destruct (_ =? _).
  - intros (bs & [_ ->]%modify_bucket_Ok & [= <-])%bind_Ok. simpl.
    by rewrite length_alter.
  - by intros [= <-].
Qed.

Lemma erase_load m key r : load_ok m → erase m key = Ok r → load_ok r.1.
Proof.
  intros Hok. unfold erase. intros (it & _ & H)%bind_Ok.
  destruct (negb _).
  - apply bind_Ok in H as (m' & (? & ? & ?)%erase_from_bucket_settings & [= <-]).
    by apply (load_ok_same m).
  - apply bind_Ok in H as (b & _ & H). destruct (has_overflow b); [|by injection H as <-].
    destruct (erase_overflow_scan _ _ _); [|by injection H as <-].
    apply bind_Ok in H as (r' & (? & ? & ?)%erase_from_overflow_settings & [= <-]).
    by apply (load_ok_same m).
Qed.

Lemma erase_iterator_load m pos r : load_ok m → erase_iterator m pos = Ok r → load_ok r.1.
Proof.
  intros Hok. unfold erase_iterator. intros (kv & _ & H)%bind_Ok.
  destruct (negb _).
  - apply bind_Ok in H as (m' & (? & ? & ?)%erase_from_bucket_settings & [= <-]).
    by apply (load_ok_same m).
  - apply bind_Ok in H as (r' & (? & ? & ?)%erase_from_overflow_settings & [= <-]).
    by apply (load_ok_same m).
Qed.

Lemma step_load m m' : map_inv m → load_ok m → step m m' → load_ok m'.
Proof.
  intros Hinv Hok Hstep. destruct Hstep as [fuel m kv r H|fuel m k v r H|fuel m k r H|
    m k r H|m pos r H|fuel m n m' H|fuel m n m' H|m|m ml].
  - by eapply insert_load.
  - by apply (insert_load fuel m (k, v) r).
  - unfold subscript in H. apply bind_Ok in H as (it & _ & H).
    destruct (iterator_eqb it (end_ m)); [|by injection H as <-].
    apply bind_Ok in H as (r' & Hr' & [= <-]). by eapply insert_load.
  - by eapply erase_load.
  - by eapply erase_iterator_load.
  - by eapply rehash_internal_with_load;
      [apply insert_internal_ok|apply insert_internal_load|apply H].
  - by eapply rehash_internal_with_load;
      [apply insert_internal_ok|apply insert_internal_load|apply H].
  - unfold load_ok, bucket_count, clear in *. simpl. by rewrite length_fmap.
  - done.
Qed.

Lemma reachable_load m : reachable m → load_ok m.
Proof.
  induction 1 as [bucket_count0|m m' Hm IH Hstep].
  - apply load_ok_new.
  - eapply step_load; [by apply reachable_inv|done..].
Qed.

(** X9.  In every reachable state [bucket_count()] is a power of two
    (the assertion of [bucket_for_hash] holds), [m_buckets] has
    [NeighborhoodSize - 1] buckets more, [m_load_threshold] is
    [bucket_count() * max_load_factor()] rounded down, every pair of the
    overflow list has the overflow flag of its home bucket set, and
    [size()] is at least the number of stored pairs. *)
Theorem reachable_state m :
  reachable m →
  (∃ p, bucket_count m = 2 ^ p) ∧
  is_power_of_two (Z.of_nat (bucket_count m)) = true ∧
  length (m_buckets m) = bucket_count m + NeighborhoodSize - 1 ∧
  m_load_threshold m =
    to_size_type (inject_Z (Z.of_nat (bucket_count m)) * max_load_factor m) ∧
  (∀ kv, kv ∈ m_overflow_elements m →
     ∃ b, m_buckets m !! bucket_for_hash m (hash_of kv.1) = Some b ∧ has_overflow b = true) ∧
  length (elements m) ≤ size m.
Proof.
  intros Hreach. pose proof (reachable_inv m Hreach) as (Hinv & Hfl & Hcount).
  destruct (inv_length _ Hinv) as [p Hp].
  assert (bucket_count m = 2 ^ p) as Hbc by (by apply buckets_count).
  split_and!.
  - by exists p.
  - apply is_power_of_two_pow2. by exists p.
  - rewrite Hbc, Hp. done.
  - by apply reachable_load.
  - done.
  - done.
Qed.

(** ** What a lookup depends on *)

Lemma matching_length_le m k :
  distinct_keys (elements m) → length (matching m k) ≤ 1.
Proof.
  intros Hd. destruct (matching m k) as [|kv l] eqn:Hm; [simpl; lia|].
  assert (kv ∈ matching m k) as Hkv by (rewrite Hm; left).
  apply list_elem_of_filter in Hkv as [Heq Hin].
  rewrite (distinct_keys_matching _ k kv Hd Hin Heq : matching m k = [kv]) in Hm.
  injection Hm as <-. simpl. lia.
Qed.

Lemma at_matching m k :
  map_inv m → distinct_keys (elements m) →
  at_ m k = match matching m k with
            | [] => Fail out_of_range
            | kv :: _ => Ok kv.2
            end ∧
  cnt m k = Ok (length (matching m k)).
Proof.
  intros Hinv Hd. destruct (matching m k) as [|kv l] eqn:Hm.
  - pose proof (lookup_absent m k Hinv Hm) as Hfind. unfold at_, cnt.
    rewrite Hfind. cbn. by rewrite iterator_eqb_refl.
  - assert (kv ∈ matching m k) as Hkv by (rewrite Hm; left).
    apply list_elem_of_filter in Hkv as [Heq Hin].
    destruct (lookup_present m k kv Hinv Hd Hin Heq) as (Hm' & it & Hfind & Hit & Hderef).
    rewrite Hm in Hm'. injection Hm' as ->.
    by destruct (at_present m k kv it Hfind Hit Hderef).
Qed.

Lemma matching_perm m m' k :
  distinct_keys (elements m) → elements m' ≡ₚ elements m → matching m' k = matching m k.
Proof.
  intros Hd Hperm.
  assert (matching m' k ≡ₚ matching m k) as Hmp by (unfold matching; by rewrite Hperm).
  pose proof (matching_length_le m k Hd) as Hle.
  destruct (matching m k) as [|kv [|kv2 l]]; [|  |simpl in Hle; lia].
  - by apply Permutation_nil_r in Hmp.
  - by apply Permutation_singleton_r in Hmp.
Qed.

Lemma distinct_keys_perm (l1 l2 : list value_type) :
  l1 ≡ₚ l2 → distinct_keys l2 → distinct_keys l1.
Proof. intros Hperm. apply distinct_keys_submseteq. by rewrite Hperm. Qed.

Lemma at_perm m m' k :
  map_inv m → map_inv m' → distinct_keys (elements m) → elements m' ≡ₚ elements m →
  at_ m' k = at_ m k ∧ cnt m' k = cnt m k.
Proof.
  intros Hinv Hinv' Hd Hperm.
  pose proof (distinct_keys_perm _ _ Hperm Hd) as Hd'.
  destruct (at_matching m k Hinv Hd) as [-> ->].
  destruct (at_matching m' k Hinv' Hd') as [-> ->].
  by rewrite (matching_perm m m' k Hd Hperm).
Qed.

Lemma at_submseteq m m' k v :
  map_inv m → map_inv m' → distinct_keys (elements m) → elements m' ⊆+ elements m →
  at_ m' k = Ok v → at_ m k = Ok v.
Proof.
  intros Hinv Hinv' Hd Hsub.
  pose proof (distinct_keys_submseteq _ _ Hsub Hd) as Hd'.
  destruct (at_matching m k Hinv Hd) as [-> _].
  destruct (at_matching m' k Hinv' Hd') as [-> _].
  destruct (matching m' k) as [|kv l] eqn:Hm'; [done|]. intros [= <-].
  assert (kv ∈ matching m' k) as Hkv by (rewrite Hm'; left).
  apply list_elem_of_filter in Hkv as [Heq Hin].
  assert (kv ∈ elements m) as Hin' by (by eapply elem_of_submseteq).
  by rewrite (distinct_keys_matching _ k kv Hd Hin' Heq : matching m k = [kv]).
Qed.

(** ** [rehash], [reserve] and [clear] *)



(** X11.  [clear()] leaves the map in the state of a new map with the
    same [bucket_count()] and [max_load_factor()]. *)
Theorem clear_as_new m :
  reachable m → clear m = hopscotch_map_new (bucket_count m) (max_load_factor m).
Proof.
  intros Hreach. pose proof (reachable_inv m Hreach) as (Hinv & _).
  pose proof (reachable_load m Hreach) as Hok.
  destruct (inv_length _ Hinv) as [p Hp].
  assert (bucket_count m = 2 ^ p) as Hbc by (by apply buckets_count).
  pose proof (clear_buckets m Hinv) as Hclear.
  unfold clear in *. cbn [m_buckets] in Hclear. rewrite Hclear.
  unfold hopscotch_map_new, set_max_load_factor, max_load_factor, USE_POWER_OF_TWO_MOD.
  cbn [m_buckets m_overflow_elements m_nb_elements].
  rewrite Hok. unfold bucket_count at 3. cbn [m_buckets]. rewrite length_replicate.
  rewrite Hbc, round_up_to_power_of_two_id, <-Hp.
  rewrite Hp, <-Hbc.
  replace (bucket_count m + NeighborhoodSize - 1 - NeighborhoodSize + 1)
    with (bucket_count m) by (pose proof (Nat.pow_nonzero 2 p); lia).
  by rewrite Hbc.
Qed.

(** ** [erase] and the other keys *)

Lemma matching_remove m m' k kv :
  distinct_keys (elements m) → elements m ≡ₚ kv :: elements m' →
  m_key_equal k kv.1 = false → matching m' k = matching m k.
Proof.
  intros Hd Hperm Hne.
  assert (matching m k ≡ₚ matching m' k) as Hmp.
  { unfold matching. rewrite Hperm, filter_cons_False; [done|]. by rewrite Hne. }
  pose proof (matching_length_le m k Hd) as Hle.
  destruct (matching m k) as [|kv1 [|kv2 l]]; [| |simpl in Hle; lia].
  - by apply Permutation_nil in Hmp.
  - by apply Permutation_singleton_l in Hmp.
Qed.

(** X12.  [erase(key)] touches one key only: for every key that is not
    equal to [key], [at] and [count] return afterwards what they returned
    before.  It keeps [bucket_count()] and [max_load_factor()], and a
    second [erase(key)] returns 0 and changes nothing. *)
Theorem erase_frame m k m' n :
  reachable m → erase m k = Ok (m', n) →
  (∀ k', m_key_equal k k' = false → at_ m' k' = at_ m k' ∧ cnt m' k' = cnt m k') ∧
  bucket_count m' = bucket_count m ∧ max_load_factor m' = max_load_factor m ∧
  at_ m' k = Fail out_of_range ∧ cnt m' k = Ok 0 ∧
  erase m' k = Ok (m', 0).
Proof.
  intros Hreach Herase. pose proof (reachable_inv m Hreach) as Hinv.
  pose proof (reachable_distinct m Hreach) as Hd.
  assert (reachable m') as Hreach'.
  { eapply reachable_step; [done|]. by apply (step_erase m k _ Herase). }
  pose proof (reachable_inv m' Hreach') as Hinv'.
  pose proof (reachable_distinct m' Hreach') as Hd'.
  assert (length (m_buckets m') = length (m_buckets m) ∧
          max_load_factor m' = max_load_factor m) as [Hlen Hml].
  { revert Herase. unfold erase. intros (it & _ & H)%bind_Ok.
    destruct (negb _).
    - by apply bind_Ok in H as (m1 & (? & ? & ?)%erase_from_bucket_settings & [= <- <-]).
    - apply bind_Ok in H as (b & _ & H).
      destruct (has_overflow b); [|by injection H as <- <-].
      destruct (erase_overflow_scan _ _ _); [|by injection H as <- <-].
      by apply bind_Ok in H as (r' & (? & ? & ?)%erase_from_overflow_settings & [= <- <-]). }
  assert (matching m' k = [] ∧
          ∀ k', m_key_equal k k' = false → matching m' k' = matching m k') as [Hnil Hframe].
  { destruct (erase_semantics m k Hinv Hd)
      as [[Hm He]|(kv & m1 & Hm & He & _ & Hperm & _)];
      rewrite He in Herase; injection Herase as <- <-; [done|].
    assert (kv ∈ matching m k) as Hkv by (rewrite Hm; left).
    apply list_elem_of_filter in Hkv as [Heq Hin].
    split.
    - apply matching_nil. intros kv' Hin'. apply not_true_iff_false. intros Heq'.
      assert (distinct_keys (kv :: elements m1)) as [Hhead _]
        by (by apply (distinct_keys_perm _ (elements m))).
      assert (m_key_equal kv.1 kv'.1 = true) as Ht
        by (apply (key_equal_trans _ k); [by rewrite key_equal_sym|done]).
      by rewrite (Hhead kv' Hin') in Ht.
    - intros k' Hne. apply (matching_remove m m1 k' kv Hd Hperm).
      apply not_true_iff_false. intros Heq'.
      assert (m_key_equal k k' = true) as Ht
        by (apply (key_equal_trans _ kv.1); [done|by rewrite key_equal_sym]).
      by rewrite Hne in Ht. }
  destruct (at_matching m' k Hinv' Hd') as [Hat Hcnt]. rewrite Hnil in Hat, Hcnt.
  split_and!; try done.
  - intros k' Hne.
    destruct (at_matching m k' Hinv Hd) as [-> ->].
    destruct (at_matching m' k' Hinv' Hd') as [-> ->].
    by rewrite (Hframe k' Hne).
  - unfold bucket_count. by rewrite Hlen.
  - by destruct (erase_semantics m' k Hinv' Hd') as [[_ He]|(kv & m1 & Hm & _)];
      [|rewrite Hnil in Hm].
Qed.

(** ** Iteration *)

Lemma next_non_empty_spec : ∀ (rest : list hopscotch_bucket) it,
  (∀ b, b ∈ rest → bucket_wf b) →
  it ≤ next_non_empty rest it ∧ next_non_empty rest it ≤ it + length rest ∧
  bucket_elements (drop (next_non_empty rest it - it) rest) = bucket_elements rest ∧
  ∀ b, rest !! (next_non_empty rest it - it) = Some b → is_empty b = false.
Proof.
  induction rest as [|b rest IH]; intros it Hwf; simpl.
  - rewrite Nat.sub_diag. split_and!; [lia..|done|done].
  - destruct (is_empty b) eqn:Hempty.
    + destruct (IH (S it)) as (Hle & Hge & Hel & Hne).
      { intros b' Hb'. apply Hwf. by right. }
      replace (next_non_empty rest (S it) - it) with (S (next_non_empty rest (S it) - S it))
        by lia.
      split_and!; [lia..| |done].
      simpl. rewrite Hel. unfold bucket_elements. simpl.
      assert (m_key_value b = None) as ->; [|done].
      apply bucket_wf_empty; [|done]. apply Hwf. by left.
    + rewrite Nat.sub_diag. split_and!; [lia..|done|]. simpl. by intros b' [= <-].
Qed.

Lemma range_for_overflow m : ∀ fuel j,
  j ≤ length (m_overflow_elements m) → length (m_overflow_elements m) - j < fuel →
  range_for fuel m {| m_buckets_iterator := length (m_buckets m);
                      m_buckets_end_iterator := length (m_buckets m);
                      m_overflow_iterator := j |} = Ok (drop j (m_overflow_elements m)).
Proof.
  induction fuel as [|fuel IH]; intros j Hj Hfuel; [lia|]. simpl.
  unfold iterator_eqb, end_. cbn [m_buckets_iterator m_buckets_end_iterator
    m_overflow_iterator]. rewrite !Nat.eqb_refl. cbn [andb].
  destruct (Nat.eqb_spec j (length (m_overflow_elements m))) as [->|Hne]; cbn [negb].
  - by rewrite drop_all.
  - destruct (lookup_lt_is_Some_2 (m_overflow_elements m) j) as [x Hx]; [lia|].
    unfold deref. cbn [m_buckets_iterator m_buckets_end_iterator m_overflow_iterator].
    rewrite Nat.eqb_refl. cbn [negb]. rewrite Hx. cbn [of_option]. rewrite bind_Ok_l.
    unfold iterator_incr. cbn [m_buckets_iterator m_buckets_end_iterator
      m_overflow_iterator]. rewrite Nat.eqb_refl.
    rewrite IH by lia. rewrite bind_Ok_l. by rewrite (drop_S _ _ _ Hx).
Qed.

Lemma range_for_buckets m :
  (∀ b, b ∈ m_buckets m → bucket_wf b) →
  ∀ fuel i,
  i ≤ length (m_buckets m) →
  (∀ b, m_buckets m !! i = Some b → is_empty b = false) →
  length (bucket_elements (drop i (m_buckets m))) + length (m_overflow_elements m) < fuel →
  range_for fuel m {| m_buckets_iterator := i;
                      m_buckets_end_iterator := length (m_buckets m);
                      m_overflow_iterator := 0 |} =
  Ok (bucket_elements (drop i (m_buckets m)) ++ m_overflow_elements m).
Proof.
  intros Hwf. induction fuel as [|fuel IH]; intros i Hi Hne Hfuel; [lia|].
  destruct (decide (i = length (m_buckets m))) as [->|Hlt].
  { rewrite drop_all. apply (range_for_overflow m (S fuel) 0); [lia|].
    rewrite drop_all in Hfuel. simpl in Hfuel. lia. }
  destruct (lookup_lt_is_Some_2 (m_buckets m) i) as [b Hb]; [lia|].
  specialize (Hne b Hb).
  assert (bucket_wf b) as Hwfb by (apply Hwf; by eapply list_elem_of_lookup_2).
  destruct (m_key_value b) as [kv|] eqn:Hkv;
    [|by rewrite (proj2 (bucket_wf_empty b Hwfb) Hkv) in Hne].
  destruct (next_non_empty_spec (drop (S i) (m_buckets m)) (S i))
    as (Hle & Hge & Hel & Hne').
  { intros b' Hb'. apply Hwf. by apply (subseteq_drop (S i) (m_buckets m)). }
  set (i' := next_non_empty (drop (S i) (m_buckets m)) (S i)) in *.
  rewrite length_drop in Hge.
  assert (bucket_elements (drop i (m_buckets m)) =
          kv :: bucket_elements (drop i' (m_buckets m))) as Hsplit.
  { rewrite (drop_S _ _ _ Hb).
    change (bucket_elements (b :: drop (S i) (m_buckets m))) with
      (match m_key_value b with
       | Some x => x :: bucket_elements (drop (S i) (m_buckets m))
       | None => bucket_elements (drop (S i) (m_buckets m))
       end).
    rewrite Hkv, <-Hel, drop_drop.
    by replace (S i + (i' - S i)) with i' by lia. }
  simpl. unfold iterator_eqb, end_. cbn [m_buckets_iterator m_buckets_end_iterator
    m_overflow_iterator].
  destruct (Nat.eqb_spec i (length (m_buckets m))) as [|_]; [done|]. cbn [andb negb].
  unfold deref. cbn [m_buckets_iterator m_buckets_end_iterator m_overflow_iterator].
  destruct (Nat.eqb_spec i (length (m_buckets m))) as [|_]; [done|]. cbn [negb].
  apply bucket_at_Ok in Hb as Hat. rewrite Hat, bind_Ok_l.
  unfold get_key_value. rewrite Hkv. cbn [of_option]. rewrite bind_Ok_l.
  unfold iterator_incr. cbn [m_buckets_iterator m_buckets_end_iterator m_overflow_iterator].
  destruct (Nat.eqb_spec i (length (m_buckets m))) as [|_]; [done|].
  fold i'. rewrite Hsplit in *. simpl in Hfuel.
  rewrite IH; [by rewrite bind_Ok_l| lia | |lia].
  intros b' Hb'. apply Hne'. rewrite lookup_drop.
  by replace (S i + (i' - S i)) with i' by lia.
Qed.

Lemma range_for_begin m fuel :
  buckets_inv (m_buckets m) → length (elements m) < fuel →
  range_for fuel m (begin_ m) = Ok (elements m).
Proof.
  intros Hinv Hfuel.
  assert (∀ b, b ∈ m_buckets m → bucket_wf b) as Hwf.
  { intros b (j & Hj)%list_elem_of_lookup. by eapply inv_wf. }
  destruct (next_non_empty_spec (m_buckets m) 0 Hwf) as (_ & Hge & Hel & Hne).
  unfold begin_, get_first_non_empty_buckets_iterator.
  rewrite Nat.sub_0_r in Hel, Hne.
  rewrite (range_for_buckets m Hwf fuel); [by rewrite Hel|lia|done|].
  rewrite Hel. by rewrite <-length_elements.
Qed.

(** X13.  Iterating from [begin()] to [end()] with [operator++] visits
    every stored pair once: the pairs of the buckets in the order of
    [m_buckets], then the overflow list. *)
Theorem iteration_visits_elements m fuel :
  reachable m → length (elements m) < fuel →
  range_for fuel m (begin_ m) = Ok (elements m) ∧
  (empty m = true → begin_ m = end_ m).
Proof.
  intros Hreach Hfuel. pose proof (reachable_inv m Hreach) as (Hinv & _ & Hcount).
  split; [by apply range_for_begin|].
  unfold empty. intros Hn%Nat.eqb_eq.
  assert (elements m = []) as Hel by (apply length_zero_iff_nil; lia).
  apply app_eq_nil in Hel as [Hb Hov].
  assert (∀ b, b ∈ m_buckets m → bucket_wf b) as Hwf.
  { intros b (j & Hj)%list_elem_of_lookup. by eapply inv_wf. }
  destruct (next_non_empty_spec (m_buckets m) 0 Hwf) as (_ & Hge & _ & Hne).
  rewrite Nat.sub_0_r in Hne. unfold begin_, end_, get_first_non_empty_buckets_iterator.
  rewrite Hov. f_equal.
  destruct (decide (next_non_empty (m_buckets m) 0 = length (m_buckets m)))
    as [|Hlt]; [done|].
  destruct (lookup_lt_is_Some_2 (m_buckets m) (next_non_empty (m_buckets m) 0))
    as [b Hb']; [lia|].
  specialize (Hne b Hb').
  assert (is_Some (m_key_value b)) as [kv Hkv].
  { apply (inv_wf _ Hinv _ _ Hb'). rewrite is_empty_bit in Hne.
    by apply negb_false_iff in Hne. }
  assert (kv ∈ bucket_elements (m_buckets m)) as Hin.
  { apply elem_of_bucket_elements. eexists. apply occupant_Some. eauto. }
  rewrite Hb in Hin. by apply elem_of_nil in Hin.
Qed.

(** ** [erase] of a position *)

Lemma removed_lookup m m' kv :
  map_inv m → map_inv m' → distinct_keys (elements m) →
  elements m ≡ₚ kv :: elements m' →
  at_ m' kv.1 = Fail out_of_range ∧ cnt m' kv.1 = Ok 0 ∧
  ∀ k', m_key_equal kv.1 k' = false → at_ m' k' = at_ m k' ∧ cnt m' k' = cnt m k'.
Proof.
  intros Hinv Hinv' Hd Hperm.
  assert (distinct_keys (kv :: elements m')) as [Hhead Hd']
    by (by apply (distinct_keys_perm _ (elements m))).
  destruct (at_matching m' kv.1 Hinv' Hd') as [Hat Hcnt].
  rewrite (matching_nil m' kv.1 Hhead) in Hat, Hcnt.
  split_and!; [done..|]. intros k' Hne.
  destruct (at_matching m k' Hinv Hd) as [-> ->].
  destruct (at_matching m' k' Hinv' Hd') as [-> ->].
  rewrite (matching_remove m m' k' kv Hd Hperm); [done|].
  by rewrite key_equal_sym.
Qed.

Lemma drop_delete {A} (l : list A) : ∀ j, drop j (delete j l) = drop (S j) l.
Proof using Type. induction l as [|x l IH]; intros [|j]; simpl; auto. Qed.

Lemma erase_from_overflow_pos m pos i r : erase_from_overflow m pos i = Ok r → r.2 = pos.
Proof.
  unfold erase_from_overflow. destruct (negb _); [done|]. cbv zeta.
  destruct (_ =? _); [|by intros [= <-]].
  by intros (bs & _ & [= <-])%bind_Ok.
Qed.

Lemma bucket_elements_drop_ext (bs bs' : list hopscotch_bucket) n :
  length bs' = length bs → (∀ j, n ≤ j → occupant bs' j = occupant bs j) →
  bucket_elements (drop n bs') = bucket_elements (drop n bs).
Proof.
  intros Hlen Hocc. apply bucket_elements_ext; [by rewrite !length_drop, Hlen|].
  intros j. unfold occupant. rewrite !lookup_drop. apply Hocc. lia.
Qed.

(** X14.  [erase(pos)] for a position of a stored pair returns: it
    removes that pair and no other, [size()] goes down by one, the key of
    the pair is not found afterwards and every other key is found as
    before, and the position returned continues the iteration: from it the
    pairs that followed [pos] are visited. *)
Theorem erase_position m pos kv :
  reachable m →
  m_buckets_end_iterator pos = length (m_buckets m) →
  (m_buckets_iterator pos ≠ length (m_buckets m) → m_overflow_iterator pos = 0) →
  deref m pos = Ok kv →
  ∃ m' next rest,
    erase_iterator m pos = Ok (m', next) ∧
    elements m ≡ₚ kv :: elements m' ∧ S (size m') = size m ∧
    at_ m' kv.1 = Fail out_of_range ∧
    (∀ k', m_key_equal kv.1 k' = false → at_ m' k' = at_ m k') ∧
    (∀ fuel, S (length rest) < fuel → range_for fuel m pos = Ok (kv :: rest)) ∧
    (∀ fuel, length rest < fuel → range_for fuel m' next = Ok rest).
Proof.
  intros Hreach Hend Hov0 Hderef. pose proof (reachable_inv m Hreach) as Hinv.
  pose proof (reachable_distinct m Hreach) as Hd.
  pose proof Hinv as (Hbinv & _).
  assert (∀ b, b ∈ m_buckets m → bucket_wf b) as Hwf.
  { intros b0 (j0 & Hj0)%list_elem_of_lookup. by eapply inv_wf. }
  assert (home m kv.1 < length (m_buckets m)) as Hhome
    by (rewrite home_home_in; by apply home_in_lt_length).
  destruct pos as [i e j]. cbn [m_buckets_iterator m_buckets_end_iterator
    m_overflow_iterator] in *. subst e.
  unfold erase_iterator. rewrite Hderef, bind_Ok_l.
  cbn [m_buckets_iterator m_buckets_end_iterator m_overflow_iterator].
  apply deref_Ok in Hderef as [[Hne Hocc]|[Heq Hov]];
    cbn [m_buckets_iterator m_buckets_end_iterator m_overflow_iterator] in *.
  - rewrite (Hov0 Hne) in *. clear Hov0.
    pose proof (occupant_lt _ _ _ Hocc) as Hi.
    destruct (Nat.eqb_spec i (length (m_buckets m))) as [|_]; [done|]. cbn [negb].
    destruct (erase_from_bucket_total m i (home m kv.1) Hi Hhome) as [m' Hm'].
    fold (home m kv.1). rewrite Hm', bind_Ok_l.
    destruct (erase_from_bucket_inv m i kv m' Hinv Hocc Hm')
      as (Hinv' & Hperm & Hn & Hocc' & Hov' & [Hlen _] & _).
    pose proof Hinv' as (Hbinv' & _).
    assert (∀ b, b ∈ m_buckets m' → bucket_wf b) as Hwf'.
    { intros b0 (j0 & Hj0)%list_elem_of_lookup. by eapply inv_wf. }
    apply occupant_Some in Hocc as (b & Hb & Hkv).
    destruct (removed_lookup m m' kv Hinv Hinv' Hd Hperm) as (Hat & _ & Hframe).
    eexists m', _, (bucket_elements (drop (S i) (m_buckets m)) ++ m_overflow_elements m).
    split_and!; [done..| | |].
    + intros k' Hk'. by apply Hframe.
    + intros fuel Hfuel. rewrite (range_for_buckets m Hwf fuel i); [| lia | |].
      * rewrite (drop_S _ _ _ Hb).
        change (bucket_elements (b :: drop (S i) (m_buckets m))) with
          (match m_key_value b with
           | Some x => x :: bucket_elements (drop (S i) (m_buckets m))
           | None => bucket_elements (drop (S i) (m_buckets m))
           end).
        by rewrite Hkv.
      * intros b' Hb'. assert (b' = b) as -> by congruence.
        rewrite is_empty_bit. apply negb_false_iff.
        apply (inv_wf _ Hbinv _ _ Hb). by rewrite Hkv.
      * rewrite (drop_S _ _ _ Hb).
        change (bucket_elements (b :: drop (S i) (m_buckets m))) with
          (match m_key_value b with
           | Some x => x :: bucket_elements (drop (S i) (m_buckets m))
           | None => bucket_elements (drop (S i) (m_buckets m))
           end).
        rewrite Hkv. rewrite length_app in Hfuel. simpl. lia.
    + intros fuel Hfuel. unfold iterator_incr.
      cbn [m_buckets_iterator m_buckets_end_iterator m_overflow_iterator].
      rewrite Hlen. destruct (Nat.eqb_spec i (length (m_buckets m))) as [|_]; [done|].
      destruct (next_non_empty_spec (drop (S i) (m_buckets m')) (S i))
        as (Hle & Hge & Hel & Hne').
      { intros b' Hb'. apply Hwf'. by apply (subseteq_drop (S i) (m_buckets m')). }
      set (i' := next_non_empty (drop (S i) (m_buckets m')) (S i)) in *.
      rewrite length_drop, Hlen in Hge.
      assert (bucket_elements (drop i' (m_buckets m')) =
              bucket_elements (drop (S i) (m_buckets m))) as Hrest.
      { rewrite drop_drop in Hel. replace (S i + (i' - S i)) with i' in Hel by lia.
        rewrite Hel. apply bucket_elements_drop_ext; [done|].
        intros j0 Hj0. rewrite Hocc'. case_decide; [lia|done]. }
      rewrite <-Hlen, (range_for_buckets m' Hwf' fuel i'); [|lia| |].
      * by rewrite Hrest, Hov'.
      * intros b' Hb'. apply Hne'. rewrite lookup_drop.
        by replace (S i + (i' - S i)) with i' by lia.
      * rewrite Hrest, Hov'. by rewrite length_app in Hfuel.
  - subst i. rewrite Nat.eqb_refl. cbn [negb].
    pose proof (lookup_lt_Some _ _ _ Hov) as Hj.
    destruct (erase_from_overflow_total m j (home m kv.1) Hj Hhome) as [r Hr].
    fold (home m kv.1). rewrite Hr, bind_Ok_l.
    destruct (erase_from_overflow_inv m j (home m kv.1) kv r Hinv Hov Hr)
      as (Hinv' & Hperm & Hn & _ & Hov' & Hlen & _).
    rewrite (erase_from_overflow_pos _ _ _ _ Hr).
    destruct (removed_lookup m r.1 kv Hinv Hinv' Hd Hperm) as (Hat & _ & Hframe).
    eexists r.1, _, (drop (S j) (m_overflow_elements m)).
    split_and!; [done..| | |].
    + intros k' Hk'. by apply Hframe.
    + intros fuel Hfuel. rewrite (range_for_overflow m fuel j); [|lia|].
      * by rewrite (drop_S _ _ _ Hov).
      * rewrite length_drop in Hfuel. lia.
    + intros fuel Hfuel. rewrite (range_for_overflow r.1 fuel j).
      * by rewrite Hov', drop_delete.
      * rewrite Hov', length_delete by eauto. lia.
      * rewrite Hov', length_delete by eauto. rewrite length_drop in Hfuel. lia.
Qed.

(** ** Helpers of the insertion *)

Lemma find_empty_bucket_loop_none (bs : list hopscotch_bucket) : ∀ steps i,
  find_empty_bucket_loop bs steps i = length bs →
  ∀ j b, i ≤ j → j < i + steps → bs !! j = Some b → is_empty b = false.
Proof.
  induction steps as [|steps IH]; intros i Hnone j b Hij Hj Hb; [lia|].
  simpl in Hnone. destruct (bs !! i) as [b0|] eqn:Hb0.
  - destruct (is_empty b0) eqn:Hempty.
    + apply lookup_lt_Some in Hb0. lia.
    + destruct (decide (j = i)) as [->|Hne]; [congruence|].
      apply (IH (S i) Hnone j b); [lia..|done].
  - apply lookup_ge_None in Hb0. apply lookup_lt_Some in Hb. lia.
Qed.

(** X15.  [find_empty_bucket(ibucket_start)] returns the first empty
    bucket among the [MAX_LINEAR_PROBE_SEARCH_EMPTY_BUCKET] buckets from
    [ibucket_start] on, and [m_buckets.size()] when there is none. *)
Theorem find_empty_bucket_first m i :
  find_empty_bucket m i ≤ length (m_buckets m) ∧
  (find_empty_bucket m i < length (m_buckets m) →
     i ≤ find_empty_bucket m i ∧
     find_empty_bucket m i < i + MAX_LINEAR_PROBE_SEARCH_EMPTY_BUCKET ∧
     (∃ b, m_buckets m !! find_empty_bucket m i = Some b ∧ is_empty b = true) ∧
     ∀ j b, i ≤ j → j < find_empty_bucket m i → m_buckets m !! j = Some b →
            is_empty b = false) ∧
  (find_empty_bucket m i = length (m_buckets m) →
     ∀ j b, i ≤ j → j < i + MAX_LINEAR_PROBE_SEARCH_EMPTY_BUCKET →
            m_buckets m !! j = Some b → is_empty b = false).
Proof.
  split_and!.
  - unfold find_empty_bucket. cbv zeta.
    match goal with |- context [find_empty_bucket_loop ?bs ?s ?i] =>
      destruct (find_empty_bucket_loop_spec bs s i) as [->|(_ & _ & (b & Hb & _) & _)] end;
      [done|]. apply lookup_lt_Some in Hb. lia.
  - apply find_empty_bucket_spec.
  - unfold find_empty_bucket. cbv zeta. intros Hnone j b Hij Hj Hb.
    apply (find_empty_bucket_loop_none _ _ _ Hnone j b); [done| |done].
    apply lookup_lt_Some in Hb. lia.
Qed.

(** X16.  [swap_empty_bucket_closer] returns for an empty bucket
    [ibucket_empty_in_out] that has [NeighborhoodSize] buckets before it.
    It keeps the invariants, the stored pairs, [size()], the overflow list
    and the result of every [at]; when it returns true the new empty bucket
    is one of the [NeighborhoodSize - 1] buckets before the old one, which
    now holds a pair, and when it returns false nothing has changed. *)
Theorem swap_empty_bucket_closer_keeps m e b :
  reachable m → NeighborhoodSize ≤ e →
  m_buckets m !! e = Some b → is_empty b = true →
  ∃ m' e' swapped,
    swap_empty_bucket_closer m e = Ok (m', e', swapped) ∧
    buckets_inv (m_buckets m') ∧ overflow_flagged m' ∧
    elements m' ≡ₚ elements m ∧
    m_overflow_elements m' = m_overflow_elements m ∧
    size m' = size m ∧ bucket_count m' = bucket_count m ∧
    (∀ k, at_ m' k = at_ m k) ∧
    if swapped : bool then
      e - NeighborhoodSize + 1 ≤ e' ∧ e' < e ∧
      occupant (m_buckets m') e' = None ∧ is_Some (occupant (m_buckets m') e)
    else m' = m ∧ e' = e.
Proof.
  intros Hreach HN Hb Hempty. pose proof (reachable_inv m Hreach) as Hinv.
  pose proof (reachable_distinct m Hreach) as Hd.
  pose proof Hinv as (Hbinv & Hfl & Hcount).
  pose proof (lookup_lt_Some _ _ _ Hb) as He.
  assert (occupant (m_buckets m) e = None) as Hnone.
  { rewrite (occupant_lookup _ _ _ Hb). by apply bucket_wf_empty; [eapply inv_wf|]. }
  destruct (swap_empty_bucket_closer_total m e HN He) as [[[m' e'] swapped] Hswap].
  destruct (swap_empty_bucket_closer_inv m e m' e' swapped Hbinv Hnone He HN Hswap)
    as (Hbinv' & Hflags & (Hov & _ & _) & Hn & Hperm & Hcase).
  assert (elements m' ≡ₚ elements m) as Hel by (unfold elements; by rewrite Hperm, Hov).
  assert (map_inv m') as Hinv'.
  { split_and!; [done|by eapply overflow_flagged_same_flags|].
    by rewrite Hel, Hn. }
  exists m', e', swapped. split_and!; try done.
  - apply Hinv'.
  - unfold bucket_count. by rewrite (proj1 Hflags).
  - intros k. by destruct (at_perm m m' k Hinv Hinv' Hd Hel).
  - destruct swapped; [|done]. by destruct Hcase as (? & ? & ? & ? & _).
Qed.

(** ** The metadata word of a bucket *)

Lemma check_neighbor_presence_bit b i : check_neighbor_presence i b = bit b (i + 2).
Proof.
  unfold check_neighbor_presence, bit, NB_RESERVED_BITS_IN_NEIGHBORHOOD.
  rewrite land_1_eq, Z.shiftr_spec by lia. rewrite Z.add_0_l.
  by destruct (Z.testbit _ _).
Qed.

Lemma bits_fit_eq b b' :
  bits_fit b → bits_fit b' → m_key_value b' = m_key_value b →
  (∀ j, bit b' j = bit b j) → b' = b.
Proof.
  intros Hfit Hfit' Hkv Hbits. destruct b as [x kv], b' as [x' kv']. simpl in *.
  subst kv'. f_equal. apply Z.bits_inj'. intros n Hn.
  specialize (Hbits (Z.to_nat n)). unfold bit in Hbits. simpl in Hbits.
  by rewrite Z2Nat.id in Hbits.
Qed.

(** X17.  The metadata word of a bucket of a reachable map keeps its three
    parts apart.  For a neighbor [i < NeighborhoodSize],
    [toggle_neighbor_presence(i)] flips [check_neighbor_presence(i)] and
    nothing else, and twice it gives the bucket back; [set_overflow] sets
    [has_overflow()] and nothing else; and bit [i] of
    [get_neighborhood_infos()] is [check_neighbor_presence(i)]. *)
Theorem bucket_metadata m j b i :
  reachable m → m_buckets m !! j = Some b → i < NeighborhoodSize →
  check_neighbor_presence i (toggle_neighbor_presence i b) =
    negb (check_neighbor_presence i b) ∧
  (∀ i', i' ≠ i → check_neighbor_presence i' (toggle_neighbor_presence i b) =
                  check_neighbor_presence i' b) ∧
  is_empty (toggle_neighbor_presence i b) = is_empty b ∧
  has_overflow (toggle_neighbor_presence i b) = has_overflow b ∧
  toggle_neighbor_presence i (toggle_neighbor_presence i b) = b ∧
  (∀ o, has_overflow (set_overflow o b) = o ∧
        is_empty (set_overflow o b) = is_empty b ∧
        get_neighborhood_infos (set_overflow o b) = get_neighborhood_infos b) ∧
  Z.testbit (get_neighborhood_infos b) (Z.of_nat i) = check_neighbor_presence i b ∧
  (is_empty b = false ↔ is_Some (m_key_value b)).
Proof.
  intros Hreach Hb Hi. pose proof (reachable_inv m Hreach) as (Hbinv & _).
  pose proof (inv_wf _ Hbinv _ _ Hb) as Hwf. pose proof (wf_fit b Hwf) as Hfit.
  split_and!.
  - rewrite !check_neighbor_presence_bit, bit_toggle_neighbor_presence by done.
    rewrite Nat.eqb_refl. by destruct (bit b (i + 2)).
  - intros i' Hne.
    rewrite !check_neighbor_presence_bit, bit_toggle_neighbor_presence by done.
    destruct (Nat.eqb_spec (i' + 2) (i + 2)); [lia|]. by rewrite xorb_false_r.
  - rewrite !is_empty_bit, bit_toggle_neighbor_presence by done.
    destruct (Nat.eqb_spec 0 (i + 2)); [lia|]. by rewrite xorb_false_r.
  - rewrite !has_overflow_bit, bit_toggle_neighbor_presence by done.
    destruct (Nat.eqb_spec 1 (i + 2)); [lia|]. by rewrite xorb_false_r.
  - apply bits_fit_eq; [done|apply bits_fit_toggle|by rewrite !key_value_toggle|].
    intros t. rewrite !bit_toggle_neighbor_presence by (done || apply bits_fit_toggle).
    by destruct (bit b t), (t =? i + 2).
  - intros o. split_and!.
    + rewrite has_overflow_bit, bit_set_overflow by done. simpl.
      destruct o; [by rewrite orb_true_r|by rewrite andb_false_r].
    + rewrite !is_empty_bit, bit_set_overflow by done. simpl.
      destruct o; [by rewrite orb_false_r|by rewrite andb_true_r].
    + apply Z.bits_inj'. intros n Hn. rewrite <-(Z2Nat.id n Hn).
      rewrite !testbit_get_neighborhood_infos by (done || apply bits_fit_set_overflow).
      rewrite bit_set_overflow by done.
      destruct (Nat.eqb_spec (Z.to_nat n + 2) 1); [lia|].
      destruct o; [by rewrite orb_false_r|by rewrite andb_true_r].
  - by rewrite testbit_get_neighborhood_infos, check_neighbor_presence_bit.
  - rewrite is_empty_bit, negb_false_iff. apply Hwf.
Qed.

(** ** Insertion into the neighbourhood, and growth *)

Lemma insert_do_while_unfold gas m kv e i :
  insert_do_while (S gas) m kv e i =
  if e - i <? NeighborhoodSize then
    r ← insert_in_bucket m kv e i;
    Ok (r.1, Some {| m_buckets_iterator := r.2;
                     m_buckets_end_iterator := length (m_buckets r.1);
                     m_overflow_iterator := 0 |})
  else
    '(m', e', swapped) ← swap_empty_bucket_closer m e;
    if swapped : bool then insert_do_while gas m' kv e' i else Ok (m', None).
Proof. done. Qed.

(** X18.  When the key is absent, the load threshold is not exceeded and
    the linear probe from the home bucket finds an empty bucket within the
    neighbourhood, [insert] returns without a rehash or a displacement:
    the pair goes into that bucket, the iterator points at it, every other
    bucket keeps its occupant, the overflow list and the bucket count are
    unchanged and the size grows by one. *)
Theorem insert_in_neighborhood fuel m k v :
  reachable m → matching m k = [] →
  size m + 1 ≤ m_load_threshold m →
  find_empty_bucket m (home m k) < home m k + NeighborhoodSize →
  ∃ m', insert (S fuel) m (k, v) =
          Ok (m', ({| m_buckets_iterator := find_empty_bucket m (home m k);
                      m_buckets_end_iterator := length (m_buckets m);
                      m_overflow_iterator := 0 |}, true)) ∧
        (∀ j, occupant (m_buckets m') j =
              if decide (find_empty_bucket m (home m k) = j) then Some (k, v)
              else occupant (m_buckets m) j) ∧
        m_overflow_elements m' = m_overflow_elements m ∧
        size m' = size m + 1 ∧
        bucket_count m' = bucket_count m ∧
        deref m' {| m_buckets_iterator := find_empty_bucket m (home m k);
                    m_buckets_end_iterator := length (m_buckets m);
                    m_overflow_iterator := 0 |} = Ok (k, v).
Proof.
  intros Hreach Habsent Hload Hnear.
  pose proof (reachable_inv m Hreach) as Hinv. pose proof Hinv as (Hbs & _ & _).
  pose proof (home_in_lt_length (m_buckets m) k Hbs) as Hhome.
  rewrite <- home_home_in in Hhome.
  destruct (inv_length _ Hbs) as [p Hlen].
  assert (home m k < 2 ^ p) as Hhome'.
  { rewrite home_home_in. by apply home_in_lt. }
  set (e := find_empty_bucket m (home m k)) in *.
  assert (e < length (m_buckets m)) as He by lia.
  destruct (find_empty_bucket_spec m (home m k) He) as (Hge & _ & _ & _). fold e in Hge.
  assert (∃ r, insert_in_bucket m (k, v) e (home m k) = Ok r) as [r Hr].
  { unfold insert_in_bucket, modify_bucket.
    destruct (Nat.ltb_spec e (length (m_buckets m))); [|lia]. rewrite bind_Ok_l.
    rewrite length_alter.
    destruct (Nat.ltb_spec (home m k) (length (m_buckets m))); [|lia]. by eexists. }
  destruct (insert_in_bucket_Ok _ _ _ _ _ Hr) as (_ & _ & Hr2 & Hbuckets & Hov & Hnb & _ & _).
  exists r.1.
  assert (length (m_buckets r.1) = length (m_buckets m)) as Hlen'.
  { by rewrite Hbuckets, !length_alter. }
  assert (∀ j, occupant (m_buckets r.1) j =
               if decide (e = j) then Some (k, v) else occupant (m_buckets m) j) as Hocc.
  { intros j. rewrite Hbuckets. apply insert_in_bucket_occupant; [apply Hbs|lia|done]. }
  split_and!; [|done|done|done|unfold bucket_count; by rewrite Hlen'|].
  - rewrite insert_unfold. cbn [fst]. rewrite (lookup_absent m k Hinv Habsent), bind_Ok_l.
    rewrite iterator_eqb_refl. cbn [negb].
    rewrite insert_internal_unfold. unfold size in Hload.
    destruct (Nat.ltb_spec (m_load_threshold m) (m_nb_elements m + 1)); [lia|].
    rewrite bind_Ok_l. cbn [fst snd]. unfold insert_internal_place. fold e.
    destruct (Nat.ltb_spec e (length (m_buckets m))); [|lia].
    rewrite insert_do_while_unfold.
    destruct (Nat.ltb_spec (e - home m k) NeighborhoodSize); [|lia].
    rewrite Hr, !bind_Ok_l. cbn [fst snd]. by rewrite Hr2, Hlen'.
  - apply deref_bucket; cbn [m_buckets_iterator m_buckets_end_iterator]; [done|].
    rewrite Hocc. by rewrite decide_True.
Qed.

(** X19.  When the key is absent and one more pair exceeds the load
    threshold, [insert], when it returns, has grown the table: the bucket
    count is a power of two that is at least twice the bucket count
    before. *)
Theorem insert_beyond_threshold fuel m k v m' it inserted :
  reachable m → matching m k = [] → m_load_threshold m < size m + 1 →
  insert fuel m (k, v) = Ok (m', (it, inserted)) →
  2 * bucket_count m ≤ bucket_count m' ∧ ∃ p, bucket_count m' = 2 ^ p.
Proof.
  intros Hreach Habsent Hload Hins.
  pose proof (reachable_inv m Hreach) as Hinv.
  assert (reachable m') as Hreach'.
  { eapply reachable_step; [done|]. by eapply (step_insert fuel m (k, v) (m', (it, inserted))). }
  pose proof (reachable_inv m' Hreach') as Hinv'.
  destruct (inv_length _ (proj1 Hinv')) as [p' Hp'].
  split; [|exists p'; by apply buckets_count].
  rewrite insert_unfold in Hins. cbn [fst] in Hins.
  rewrite (lookup_absent m k Hinv Habsent), bind_Ok_l, iterator_eqb_refl in Hins.
  cbn [negb] in Hins. destruct fuel as [|fuel]; [done|].
  rewrite insert_internal_unfold in Hins. unfold size in Hload.
  destruct (Nat.ltb_spec (m_load_threshold m) (m_nb_elements m + 1)); [|lia].
  apply bind_Ok in Hins as ([m1 i1] & H1 & Hins).
  apply bind_Ok in H1 as (m1' & Hre & [= <- <-]). cbn [fst snd] in Hins.
  pose proof Hre as Hre'.
  apply rehash_internal_with_inv in Hre' as (Hinv1 & _ & _ & Hlen1);
    [|apply insert_internal_ok].
  pose proof (round_up_to_power_of_two_ge (get_expand_size m)) as Hge.
  unfold get_expand_size, REHASH_SIZE_MULTIPLICATION_FACTOR in Hge, Hlen1.
  apply bind_Ok in Hins as (r2 & H2 & Hins).
  apply insert_internal_place_inv in H2; [|done..].
  destruct r2 as [done|m2].
  - injection Hins as ->. destruct H2 as (_ & _ & _ & _ & _ & Hlen & _).
    cbn [fst] in Hlen. unfold bucket_count in *. lia.
  - destruct H2 as (Hinv2 & _ & _ & Hlen2 & _).
    apply bind_Ok in Hins as (m3 & Hre3 & Hins).
    pose proof Hre3 as Hre3'.
    apply rehash_internal_with_inv in Hre3' as (Hinv3 & _ & _ & Hlen3);
      [|apply insert_internal_ok].
    pose proof (round_up_to_power_of_two_ge (get_expand_size m2)) as Hge3.
    unfold get_expand_size, REHASH_SIZE_MULTIPLICATION_FACTOR in Hge3, Hlen3.
    destruct (insert_internal_ok fuel m3 (k, v) _ Hinv3 Hins) as (_ & _ & _ & Hlen & _).
    cbn [fst] in Hlen. unfold bucket_count in *. lia.
Qed.

(** ** The overload of [rehash_internal] that inserts every pair again

    For a [value_type] that is not nothrow-move-constructible
    [rehash_internal] moves the pairs of the buckets and of the overflow
    list into the new table with [insert_internal].  Then [m_nb_elements]
    counts the stored pairs and the overflow flags are exact. *)

Lemma flags_exact_same_flags m m' :
  flags_exact m → same_flags (m_buckets m) (m_buckets m') →
  m_overflow_elements m' = m_overflow_elements m → flags_exact m'.
Proof.
  intros Hfl [Hlen Hflags] Hov i b' Hb' Hflag.
  destruct (lookup_same_length_Some (m_buckets m) (m_buckets m') i b' Hlen Hb') as [b Hb].
  rewrite has_overflow_bit in Hflag. rewrite (Hflags _ _ _ Hb Hb') in Hflag.
  destruct (Hfl i b Hb) as (kv & Hkv & Hhome); [by rewrite has_overflow_bit|].
  exists kv. rewrite Hov. split; [done|].
  rewrite home_home_in, (home_in_length (m_buckets m)) by done. by rewrite <-home_home_in.
Qed.

Lemma insert_internal_place_strict m kv i r :
  map_inv m → counted m → flags_exact m → i = home m kv.1 →
  insert_internal_place m kv i = Ok r →
  match r with
  | inl done => counted done.1 ∧ flags_exact done.1
  | inr m' => counted m' ∧ flags_exact m'
  end.
Proof.
  intros Hinv Hcnt Hfl Hi Hplace. unfold counted in *.
  pose proof (insert_internal_place_inv m kv i r Hinv Hi Hplace) as Hr.
  pose proof Hinv as (Hbinv & _ & _).
  revert Hplace. unfold insert_internal_place.
  destruct (Nat.ltb_spec (find_empty_bucket m i) (length (m_buckets m))) as [He|_].
  2:{ intros [= <-]. done. }
  destruct (find_empty_bucket_spec m i He) as (Hle & _ & (b_e & Hbe & Hempty) & _).
  assert (occupant (m_buckets m) (find_empty_bucket m i) = None) as Hnone.
  { rewrite (occupant_lookup _ _ _ Hbe). by apply bucket_wf_empty; [eapply inv_wf|]. }
  intros ([m1 [it|]] & Hloop & H)%bind_Ok.
  - injection H as <-. destruct Hr as (_ & Hperm & Hn & _).
    destruct (insert_do_while_inv kv i _ _ _ _ Hbinv Hnone He
                ltac:(by rewrite Hi, home_home_in) Hle Hloop)
      as (_ & Hflags1 & (Hov1 & _) & _). simpl in *.
    split; [rewrite Hperm, Hn; simpl; lia|]. by eapply flags_exact_same_flags.
  - destruct (insert_do_while_inv kv i _ _ _ _ Hbinv Hnone He
                ltac:(by rewrite Hi, home_home_in) Hle Hloop)
      as (Hinv1 & Hflags1 & (Hov1 & _) & _). simpl in *.
    assert (flags_exact m1) as Hfl1 by (by eapply flags_exact_same_flags).
    apply bind_Ok in H as (change & _ & H).
    destruct change; simpl in H.
    { injection H as <-. destruct Hr as (_ & Hperm & Hn & _).
      split; [by rewrite Hperm, Hn|done]. }
    apply bind_Ok in H as (bs & [Hilt ->]%modify_bucket_Ok & [= <-]).
    destruct Hr as (_ & Hperm & Hn & _). cbn [fst snd] in *.
    split; [rewrite Hperm, Hn; simpl; lia|].
    intros i' b' Hb' Hflag. cbn [m_buckets m_overflow_elements] in *.
    assert (home_eq : ∀ key, home {| m_buckets := alter (set_overflow true) i (m_buckets m1);
                        m_overflow_elements := m_overflow_elements m1 ++ [kv];
                        m_nb_elements := m_nb_elements m1 + 1;
                        m_max_load_factor := m_max_load_factor m1;
                        m_load_threshold := m_load_threshold m1 |} key = home m1 key).
    { intros key. unfold home, bucket_for_hash, bucket_count. cbn [m_buckets].
      by rewrite length_alter. }
    destruct (lookup_same_length_Some (m_buckets m1) _ i' b' (length_alter _ _ _) Hb')
      as [b Hb].
    destruct (set_overflow_lookup (m_buckets m1) true i i' b (inv_wf _ Hinv1 _ _ Hb) Hb)
      as (b'' & Hb'' & _ & _ & _ & Hbit).
    assert (b'' = b') as -> by congruence.
    destruct (decide (i = i')) as [<-|Hne].
    + exists kv. rewrite home_eq. split; [apply elem_of_app; right; by left|].
      rewrite Hi, !home_home_in. apply home_in_length. apply Hflags1.
    + rewrite has_overflow_bit, Hbit in Hflag.
      destruct (Hfl1 i' b Hb) as (kv' & Hkv' & Hhome); [by rewrite has_overflow_bit|].
      exists kv'. rewrite home_eq. split; [|done]. apply elem_of_app. by left.
Qed.


Lemma strict_new cnt0 ml :
  counted (hopscotch_map_new cnt0 ml) ∧ flags_exact (hopscotch_map_new cnt0 ml).
Proof.
  destruct (hopscotch_map_new_inv cnt0 ml) as (_ & Hel & Hn & _).
  split; [unfold counted; by rewrite Hel, Hn|].
  intros i b Hb Hflag. unfold hopscotch_map_new in Hb. cbn [m_buckets set_max_load_factor] in Hb.
  by apply lookup_replicate in Hb as [-> _].
Qed.

Lemma rehash_buckets_strict ins :
  insert_ok ins → insert_strict ins → ∀ bs tmp tmp',
  (∀ b, b ∈ bs → bucket_wf b) →
  map_inv tmp → counted tmp → flags_exact tmp →
  rehash_buckets ins tmp bs = Ok tmp' →
  map_inv tmp' ∧ counted tmp' ∧ flags_exact tmp' ∧
  elements tmp' ≡ₚ bucket_elements bs ++ elements tmp.
Proof.
  intros Hins Hstrict. induction bs as [|b bs IH]; intros tmp tmp' Hwf Hinv Hcnt Hfl; simpl.
  - by intros [= <-].
  - assert (bucket_wf b) as Hwfb by (apply Hwf; by left).
    assert (∀ b', b' ∈ bs → bucket_wf b') as Hwf' by (intros b' ?; apply Hwf; by right).
    change (bucket_elements (b :: bs)) with
      (match m_key_value b with
       | Some x => x :: bucket_elements bs
       | None => bucket_elements bs
       end).
    destruct (is_empty b) eqn:Hempty.
    + rewrite (proj1 (bucket_wf_empty b Hwfb) Hempty). by apply IH.
    + intros (kv & Hkv%of_option_Ok & H)%bind_Ok. rewrite Hkv.
      apply bind_Ok in H as (r & Hr & H).
      destruct (Hins tmp kv r Hinv Hr) as (Hinv' & _).
      destruct (Hstrict tmp kv r Hinv Hcnt Hfl Hr) as (Hcnt' & Hfl' & Hperm').
      destruct (IH r.1 tmp' Hwf' Hinv' Hcnt' Hfl' H) as (? & ? & ? & Hperm).
      split_and!; [done..|]. rewrite Hperm, Hperm'.
      by rewrite (Permutation_middle (bucket_elements bs) (elements tmp) kv).
Qed.

Lemma rehash_overflow_strict ins :
  insert_ok ins → insert_strict ins → ∀ l tmp tmp',
  map_inv tmp → counted tmp → flags_exact tmp →
  rehash_overflow ins tmp l = Ok tmp' →
  map_inv tmp' ∧ counted tmp' ∧ flags_exact tmp' ∧ elements tmp' ≡ₚ l ++ elements tmp.
Proof.
  intros Hins Hstrict. induction l as [|kv l IH]; intros tmp tmp' Hinv Hcnt Hfl; simpl.
  - by intros [= <-].
  - intros (r & Hr & H)%bind_Ok.
    destruct (Hins tmp kv r Hinv Hr) as (Hinv' & _).
    destruct (Hstrict tmp kv r Hinv Hcnt Hfl Hr) as (Hcnt' & Hfl' & Hperm').
    destruct (IH r.1 tmp' Hinv' Hcnt' Hfl' H) as (? & ? & ? & Hperm).
    split_and!; [done..|]. rewrite Hperm, Hperm'.
    by rewrite (Permutation_middle l (elements tmp) kv).
Qed.

Hypothesis fallible_move : nothrow_move_constructible = false.

Lemma rehash_internal_with_strict ins m cnt0 m' :
  insert_ok ins → insert_strict ins → map_inv m →
  rehash_internal_with ins m cnt0 = Ok m' →
  map_inv m' ∧ counted m' ∧ flags_exact m' ∧ elements m' ≡ₚ elements m.
Proof.
  intros Hins Hstrict (Hbinv & _). unfold rehash_internal_with. rewrite fallible_move.
  destruct (hopscotch_map_new_inv cnt0 (m_max_load_factor m)) as (Hnew & Helnew & _).
  destruct (strict_new cnt0 (m_max_load_factor m)) as [Hcnt Hfl].
  intros (tmp & Htmp & H)%bind_Ok.
  apply rehash_buckets_strict in Htmp as (Hinv1 & Hcnt1 & Hfl1 & Hperm1); try done.
  2:{ intros b (j & Hj)%list_elem_of_lookup. by eapply inv_wf. }
  apply rehash_overflow_strict in H as (Hinv2 & Hcnt2 & Hfl2 & Hperm2); try done.
  split_and!; [done..|]. rewrite Hperm2, Hperm1, Helnew, app_nil_r.
  unfold elements. apply Permutation_app_comm.
Qed.

Lemma insert_internal_strict fuel : insert_strict (insert_internal fuel).
Proof.
  induction fuel as [|fuel IH]; intros m kv r Hinv Hcnt Hfl; [done|].
  rewrite insert_internal_unfold.
  intros ([m1 i1] & H1 & H)%bind_Ok. cbn [fst snd] in H.
  assert (map_inv m1 ∧ counted m1 ∧ flags_exact m1 ∧ elements m1 ≡ₚ elements m ∧
          i1 = home m1 kv.1) as (Hinv1 & Hcnt1 & Hfl1 & Hperm1 & ->).
  { destruct (m_load_threshold m <? m_nb_elements m + 1).
    - apply bind_Ok in H1 as (m' & Hre & [= <- <-]).
      apply rehash_internal_with_strict in Hre as (? & ? & ? & ?);
        [done|apply insert_internal_ok|apply IH|done].
    - by injection H1 as <- <-. }
  apply bind_Ok in H as (r2 & H2 & H).
  pose proof (insert_internal_place_strict m1 kv _ r2 Hinv1 Hcnt1 Hfl1 eq_refl H2) as Hs2.
  apply insert_internal_place_inv in H2; [|done..].
  destruct r2 as [done|m2].
  - injection H as <-. destruct H2 as (_ & Hperm & _). destruct Hs2 as [? ?].
    split_and!; [done..|]. by rewrite Hperm, Hperm1.
  - destruct H2 as (Hinv2 & Hperm2 & _). destruct Hs2 as [Hcnt2 Hfl2].
    apply bind_Ok in H as (m3 & Hre & H).
    apply rehash_internal_with_strict in Hre as (Hinv3 & Hcnt3 & Hfl3 & Hperm3);
      [|apply insert_internal_ok|apply IH|done].
    destruct (IH m3 kv r Hinv3 Hcnt3 Hfl3 H) as (? & ? & Hperm).
    split_and!; [done..|]. by rewrite Hperm, Hperm3, Hperm2, Hperm1.
Qed.

Lemma insert_strict_absent fuel m kv r :
  map_inv m → counted m → flags_exact m → matching m kv.1 = [] →
  insert fuel m kv = Ok r →
  counted r.1 ∧ flags_exact r.1 ∧ elements r.1 ≡ₚ kv :: elements m ∧ r.2.2 = true.
Proof.
  intros Hinv Hcnt Hfl Hnil. rewrite insert_unfold.
  rewrite (lookup_absent m kv.1 Hinv Hnil), bind_Ok_l, iterator_eqb_refl. cbn [negb].
  intros Hins. destruct (insert_internal_strict fuel m kv r Hinv Hcnt Hfl Hins) as (? & ? & ?).
  by destruct (insert_internal_ok fuel m kv r Hinv Hins) as (_ & _ & _ & _ & ? & _).
Qed.

Lemma insert_strict_any fuel m kv r :
  map_inv m → counted m → flags_exact m → insert fuel m kv = Ok r →
  counted r.1 ∧ flags_exact r.1.
Proof.
  intros Hinv Hcnt Hfl. rewrite insert_unfold. intros (it & _ & H)%bind_Ok.
  destruct (negb _); [by injection H as <-|].
  by destruct (insert_internal_strict fuel m kv r Hinv Hcnt Hfl H) as (? & ? & _).
Qed.

Lemma erase_from_bucket_strict m pos kv m' :
  map_inv m → counted m → flags_exact m → occupant (m_buckets m) pos = Some kv →
  erase_from_bucket m pos (home m kv.1) = Ok m' → counted m' ∧ flags_exact m'.
Proof.
  intros Hinv Hcnt Hfl Hocc Hm'. unfold counted in *.
  destruct (erase_from_bucket_inv m pos kv m' Hinv Hocc Hm')
    as (_ & Hperm & Hn & _ & Hov & Hflags & _).
  split; [|by eapply flags_exact_same_flags].
  apply Permutation_length in Hperm. simpl in Hperm. lia.
Qed.

Lemma erase_from_overflow_strict m pos kv r :
  map_inv m → counted m → flags_exact m → m_overflow_elements m !! pos = Some kv →
  erase_from_overflow m pos (home m kv.1) = Ok r → counted r.1 ∧ flags_exact r.1.
Proof.
  intros Hinv Hcnt Hfl Hkv Hr. unfold counted in *.
  destruct (erase_from_overflow_inv m pos (home m kv.1) kv r Hinv Hkv Hr)
    as (_ & Hperm & Hn & _ & Hov & Hlen & _ & _ & Hother & Hhome).
  split; [apply Permutation_length in Hperm; simpl in Hperm; lia|].
  intros i b' Hb' Hflag.
  destruct (lookup_same_length_Some (m_buckets m) (m_buckets r.1) i b' Hlen Hb') as [b Hb].
  assert (∀ key, home r.1 key = home m key) as Hhome_eq.
  { intros key. rewrite !home_home_in. by apply home_in_length. }
  destruct (decide (i = home m kv.1)) as [->|Hne].
  - destruct (proj1 (Hhome b b' Hb Hb') Hflag) as (_ & kv' & Hkv' & Hh).
    exists kv'. by rewrite Hov, Hhome_eq.
  - rewrite (Hother i b b' Hb Hb' Hne) in Hflag.
    destruct (Hfl i b Hb Hflag) as (kv' & Hkv' & Hh).
    exists kv'. rewrite Hov, Hhome_eq. split; [|done].
    pose proof (delete_Permutation _ _ _ Hkv) as Hdel.
    rewrite Hdel in Hkv'. apply elem_of_cons in Hkv' as [->|?]; [done|done].
Qed.

Lemma erase_strict m key r :
  map_inv m → counted m → flags_exact m → erase m key = Ok r →
  counted r.1 ∧ flags_exact r.1.
Proof.
  intros Hinv Hcnt Hfl. pose proof Hinv as (Hbinv & _ & _). unfold erase.
  intros (pos & Hfind & H)%bind_Ok.
  assert (bucket_for_hash m (hash_of key) < length (m_buckets m)) as Hi.
  { apply (home_in_lt_length _ key Hbinv). }
  destruct (Nat.eqb_spec pos (length (m_buckets m))) as [->|Hpos]; simpl in H.
  - apply bind_Ok in H as (b & Hb & H).
    destruct (has_overflow b); [|by injection H as <-].
    destruct (erase_overflow_scan key (m_overflow_elements m) 0) as [idx|] eqn:Hscan;
      [|by injection H as <-].
    apply bind_Ok in H as (r' & Hr' & [= <-]).
    apply erase_overflow_scan_Some in Hscan as (kv & Hkv & _ & Heq & _).
    rewrite Nat.sub_0_r in Hkv.
    fold (home m key) in Hr'. rewrite (home_key_equal m key kv.1 Heq) in Hr'.
    cbn [fst]. by eapply erase_from_overflow_strict.
  - apply bind_Ok in H as (m' & Hm' & [= <-]).
    destruct (find_in_buckets_found m key _ pos Hbinv Hi Hfind Hpos) as (kv & Hkv & _ & Hhome).
    unfold home in Hhome. rewrite <-Hhome in Hm'.
    by eapply erase_from_bucket_strict.
Qed.

Lemma erase_iterator_strict m pos r :
  map_inv m → counted m → flags_exact m → erase_iterator m pos = Ok r →
  counted r.1 ∧ flags_exact r.1.
Proof.
  intros Hinv Hcnt Hfl. unfold erase_iterator. intros (kv & Hderef & H)%bind_Ok.
  apply deref_Ok in Hderef as [[Hne Hocc]|[Heq Hov]].
  - apply Nat.eqb_neq in Hne. rewrite Hne in H. simpl in H.
    apply bind_Ok in H as (m' & Hm' & [= <-]). by eapply erase_from_bucket_strict.
  - apply Nat.eqb_eq in Heq. rewrite Heq in H. simpl in H.
    apply bind_Ok in H as (r' & Hr' & [= <-]). by eapply erase_from_overflow_strict.
Qed.

Lemma step_strict m m' :
  map_inv m → counted m → flags_exact m → step m m' → counted m' ∧ flags_exact m'.
Proof.
  intros Hinv Hcnt Hfl Hstep. destruct Hstep as [fuel m kv r H|fuel m k v r H|fuel m k r H|
    m k r H|m pos r H|fuel m n m' H|fuel m n m' H|m|m ml].
  - by eapply insert_strict_any.
  - by apply (insert_strict_any fuel m (k, v) r).
  - unfold subscript in H. apply bind_Ok in H as (it & _ & H).
    destruct (iterator_eqb it (end_ m)); [|by injection H as <-].
    apply bind_Ok in H as (r' & Hr' & [= <-]). by eapply insert_strict_any.
  - by eapply erase_strict.
  - by eapply erase_iterator_strict.
  - apply rehash_internal_with_strict in H as (_ & ? & ? & _);
      [done|apply insert_internal_ok|apply insert_internal_strict|done].
  - apply rehash_internal_with_strict in H as (_ & ? & ? & _);
      [done|apply insert_internal_ok|apply insert_internal_strict|done].
  - split.
    + unfold counted, elements. rewrite clear_buckets by apply Hinv.
      by rewrite bucket_elements_replicate.
    + intros i b Hb Hflag. rewrite clear_buckets in Hb by apply Hinv.
      by apply lookup_replicate in Hb as [-> _].
  - done.
Qed.

Lemma reachable_strict m : reachable m → counted m ∧ flags_exact m.
Proof.
  induction 1 as [bucket_count0|m m' Hm [IHc IHf] Hstep].
  - apply strict_new.
  - eapply step_strict; [by apply reachable_inv|done..].
Qed.

(** X20.  When [value_type] is not nothrow-move-constructible, in every
    reachable state [size()] is the number of stored pairs, [empty()]
    tells whether there is none, and the overflow flag of a bucket is set
    exactly when the overflow list holds a pair whose home bucket it is. *)
Theorem size_and_flags_exact m :
  reachable m →
  size m = length (elements m) ∧
  (empty m = true ↔ elements m = []) ∧
  ∀ i b, m_buckets m !! i = Some b →
    (has_overflow b = true ↔
     ∃ kv, kv ∈ m_overflow_elements m ∧ bucket_for_hash m (hash_of kv.1) = i).
Proof.
  intros Hreach. destruct (reachable_strict m Hreach) as [Hcnt Hfl].
  pose proof (reachable_inv m Hreach) as (_ & Hflagged & _).
  unfold counted in Hcnt. split_and!; [done| |].
  - unfold empty. rewrite Nat.eqb_eq, Hcnt. apply length_zero_iff_nil.
  - intros i b Hb. split; [by apply Hfl|].
    intros (kv & Hkv & <-). destruct (Hflagged kv Hkv) as (b' & Hb' & ?).
    unfold home in Hb'. congruence.
Qed.

(** X21.  When [value_type] is not nothrow-move-constructible, [insert] of
    a key that is absent, when it returns, returns [true], adds the pair
    and no other, raises [size()] by one, and leaves the result of [at]
    and [count] for every other key. *)
Theorem insert_absent_adds fuel m k v m' it inserted :
  reachable m → matching m k = [] →
  insert fuel m (k, v) = Ok (m', (it, inserted)) →
  inserted = true ∧ deref m' it = Ok (k, v) ∧
  elements m' ≡ₚ (k, v) :: elements m ∧ size m' = S (size m) ∧
  at_ m' k = Ok v ∧
  ∀ k', m_key_equal k k' = false → at_ m' k' = at_ m k' ∧ cnt m' k' = cnt m k'.
Proof.
  intros Hreach Hnil Hins. pose proof (reachable_inv m Hreach) as Hinv.
  destruct (reachable_strict m Hreach) as [Hcnt Hfl].
  assert (reachable m') as Hreach'.
  { eapply reachable_step; [done|]. by apply (step_insert fuel m (k, v) _ Hins). }
  pose proof (reachable_inv m' Hreach') as Hinv'.
  pose proof (reachable_distinct m' Hreach') as Hd'.
  destruct (insert_strict_absent fuel m (k, v) _ Hinv Hcnt Hfl Hnil Hins)
    as (Hcnt' & _ & Hperm & Htrue). cbn [fst snd] in *. subst inserted.
  rewrite insert_unfold in Hins. cbn [fst] in Hins.
  rewrite (lookup_absent m k Hinv Hnil), bind_Ok_l, iterator_eqb_refl in Hins.
  cbn [negb] in Hins.
  destruct (insert_internal_ok fuel m (k, v) _ Hinv Hins) as (_ & _ & _ & _ & _ & Hderef).
  cbn [fst snd] in Hderef.
  assert ((k, v) ∈ elements m') as Hin by (rewrite Hperm; by left).
  destruct (lookup_present m' k (k, v) Hinv' Hd' Hin (key_equal_refl k))
    as (_ & it' & Hfind' & Hit' & Hderef').
  destruct (at_present m' k _ it' Hfind' Hit' Hderef') as [Hat _].
  split_and!; try done.
  - unfold size, counted in *. rewrite Hcnt', Hcnt, Hperm. done.
  - intros k' Hne.
    destruct (removed_lookup m' m (k, v) Hinv' Hinv Hd' Hperm) as (_ & _ & Hframe).
    destruct (Hframe k' Hne) as [-> ->]. done.
Qed.

(** X22.  When [value_type] is not nothrow-move-constructible, [rehash]
    and [reserve], when they return, keep the stored pairs, [size()], and
    the result of [at] and [count] for every key. *)
Theorem rehash_keeps_pairs fuel m count0 m' :
  reachable m →
  rehash fuel m count0 = Ok m' ∨ reserve fuel m count0 = Ok m' →
  elements m' ≡ₚ elements m ∧ size m' = size m ∧
  ∀ k, at_ m' k = at_ m k ∧ cnt m' k = cnt m k.
Proof.
  intros Hreach Hor. pose proof (reachable_inv m Hreach) as Hinv.
  pose proof (reachable_distinct m Hreach) as Hd.
  destruct (reachable_strict m Hreach) as [Hcnt Hfl].
  assert (∃ c, rehash_internal_with (insert_internal fuel) m c = Ok m') as [c Hc].
  { destruct Hor as [H|H]; eexists; apply H. }
  apply rehash_internal_with_strict in Hc as (Hinv' & Hcnt' & _ & Hperm);
    [|apply insert_internal_ok|apply insert_internal_strict|done].
  split_and!; [done| |].
  - unfold size, counted in *. by rewrite Hcnt', Hcnt, Hperm.
  - intros k. by apply at_perm.
Qed.

(** X23.  When [value_type] is not nothrow-move-constructible, [erase]
    undoes [insert]: after the insertion of an absent key, [erase] of that
    key returns 1, and the map holds the pairs it held before, with the
    same [size()] and the same result of [at] for every key. *)
Theorem insert_erase_round_trip fuel m k v m1 it inserted :
  reachable m → matching m k = [] →
  insert fuel m (k, v) = Ok (m1, (it, inserted)) →
  ∃ m2, erase m1 k = Ok (m2, 1) ∧
    elements m2 ≡ₚ elements m ∧ size m2 = size m ∧
    ∀ k', at_ m2 k' = at_ m k'.
Proof.
  intros Hreach Hnil Hins. pose proof (reachable_inv m Hreach) as Hinv.
  pose proof (reachable_distinct m Hreach) as Hd.
  destruct (reachable_strict m Hreach) as [Hcnt Hfl].
  assert (reachable m1) as Hreach1.
  { eapply reachable_step; [done|]. by apply (step_insert fuel m (k, v) _ Hins). }
  pose proof (reachable_inv m1 Hreach1) as Hinv1.
  pose proof (reachable_distinct m1 Hreach1) as Hd1.
  destruct (insert_strict_absent fuel m (k, v) _ Hinv Hcnt Hfl Hnil Hins)
    as (Hcnt1 & _ & Hperm & _). cbn [fst snd] in *.
  assert ((k, v) ∈ elements m1) as Hin by (rewrite Hperm; by left).
  pose proof (distinct_keys_matching _ k (k, v) Hd1 Hin (key_equal_refl k)
              : matching m1 k = [(k, v)]) as Hm1.
  destruct (erase_semantics m1 k Hinv1 Hd1)
    as [[Hm _]|(kv & m2 & Hm & He & Hinv2 & Hperm2 & Hn2)]; [by rewrite Hm1 in Hm|].
  rewrite Hm1 in Hm. injection Hm as <-.
  assert (elements m2 ≡ₚ elements m) as Hel.
  { apply (Permutation_cons_inv (a := (k, v))). by rewrite <-Hperm2, Hperm. }
  exists m2. split_and!; [done..| |].
  - unfold size, counted in *. apply Permutation_length in Hperm. simpl in Hperm. lia.
  - intros k'. by destruct (at_perm m m2 k' Hinv Hinv2 Hd Hel).
Qed.

Lemma insert_grows fuel m kv r :
  reachable m → insert fuel m kv = Ok r →
  elements m ⊆+ elements r.1 ∧
  ∃ kv', kv' ∈ elements r.1 ∧ m_key_equal kv.1 kv'.1 = true ∧
         (matching m kv.1 = [] → kv' = kv).
Proof.
  intros Hreach Hins. pose proof (reachable_inv m Hreach) as Hinv.
  pose proof (reachable_distinct m Hreach) as Hd.
  destruct (reachable_strict m Hreach) as [Hcnt Hfl].
  destruct (matching m kv.1) as [|kv0 l] eqn:Hm.
  - destruct (insert_strict_absent fuel m kv r Hinv Hcnt Hfl Hm Hins) as (_ & _ & Hperm & _).
    split; [rewrite Hperm; by apply submseteq_cons|].
    exists kv. split_and!; [rewrite Hperm; by left|apply key_equal_refl|done].
  - assert (kv0 ∈ matching m kv.1) as Hkv by (rewrite Hm; left).
    apply list_elem_of_filter in Hkv as [Heq Hin].
    destruct (lookup_present m kv.1 kv0 Hinv Hd Hin Heq) as (_ & it & Hfind & Hit & _).
    rewrite insert_unfold, Hfind, bind_Ok_l, Hit in Hins. injection Hins as <-.
    split; [done|]. exists kv0. done.
Qed.

(** X24.  When [value_type] is not nothrow-move-constructible,
    [insert(first, last)], when it returns, keeps every pair the map held,
    so that a key that was found is found with the same mapped value, and
    every key of the range is found afterwards; the first pair of the
    range is stored when its key was absent. *)
Theorem insert_range_adds fuel l m m' :
  reachable m → insert_range fuel m l = Ok m' →
  elements m ⊆+ elements m' ∧
  (∀ k v, at_ m k = Ok v → at_ m' k = Ok v) ∧
  (∀ kv, kv ∈ l → cnt m' kv.1 = Ok 1) ∧
  (∀ kv l', l = kv :: l' → matching m kv.1 = [] → at_ m' kv.1 = Ok kv.2).
Proof.
  intros Hreach Hrange.
  assert (reachable m' ∧ elements m ⊆+ elements m' ∧
          (∀ kv, kv ∈ l → ∃ kv', kv' ∈ elements m' ∧ m_key_equal kv.1 kv'.1 = true) ∧
          (∀ kv l', l = kv :: l' → matching m kv.1 = [] → kv ∈ elements m'))
    as (Hreach' & Hsub & Hall & Hfirst).
  { revert m Hreach Hrange. induction l as [|kv0 l IH]; intros m Hreach; simpl.
    - intros [= <-]. split_and!; [done..| |done]. intros kv Hkv. by apply elem_of_nil in Hkv.
    - intros (r & Hr & H)%bind_Ok.
      assert (reachable r.1) as Hreach1.
      { eapply reachable_step; [done|]. by eapply step_insert. }
      destruct (insert_grows fuel m kv0 r Hreach Hr) as (Hsub0 & kv' & Hin' & Heq' & Hnew).
      destruct (IH r.1 Hreach1 H) as (Hreach' & Hsub1 & Hall1 & _).
      split_and!; [done|by etrans| |].
      + intros kv [->|Hkv]%elem_of_cons; [|by apply Hall1].
        exists kv'. split; [by eapply elem_of_submseteq|done].
      + intros kv l' [= <- <-] Hnil. rewrite (Hnew Hnil) in Hin'.
        by eapply elem_of_submseteq. }
  pose proof (reachable_inv m Hreach) as Hinv.
  pose proof (reachable_inv m' Hreach') as Hinv'.
  pose proof (reachable_distinct m' Hreach') as Hd'.
  split_and!; [done| | |].
  - intros k v. by apply (at_submseteq m' m).
  - intros kv Hkv. destruct (Hall kv Hkv) as (kv' & Hin' & Heq').
    destruct (lookup_present m' kv.1 kv' Hinv' Hd' Hin' Heq') as (_ & it & Hfind & Hit & Hderef).
    by destruct (at_present m' kv.1 kv' it Hfind Hit Hderef).
  - intros kv l' Hl Hnil. pose proof (Hfirst kv l' Hl Hnil) as Hin.
    destruct (lookup_present m' kv.1 kv Hinv' Hd' Hin (key_equal_refl _))
      as (_ & it & Hfind & Hit & Hderef).
    by destruct (at_present m' kv.1 kv it Hfind Hit Hderef).
Qed.

End proofs.

(** * Examples *)

Lemma int_key_equal_sym (k1 k2 : Z) : (k1 =? k2)%Z = (k2 =? k1)%Z.
Proof. apply Z.eqb_sym. Qed.

Lemma int_key_equal_trans (k1 k2 k3 : Z) :
  (k1 =? k2)%Z = true → (k2 =? k3)%Z = true → (k1 =? k3)%Z = true.
Proof. rewrite !Z.eqb_eq. congruence. Qed.

Lemma int_hash_key_equal (h : Z → Z) (k1 k2 : Z) : (k1 =? k2)%Z = true → h k1 = h k2.
Proof. rewrite Z.eqb_eq. congruence. Qed.

Lemma hop_before_reachable : reachable hop_before.
Proof.
  apply (reachable_insert_range (P := hop_params) 10 (pairs_of [0; 1; 2; 3]%Z)
           (hopscotch_map_ctor 16)); [apply reachable_ctor|].
  vm_compute. reflexivity.
Qed.

Lemma hop_example_reachable : reachable hop_example.
Proof.
  apply (reachable_insert_range (P := hop_params) 10 (pairs_of [16]%Z) hop_before);
    [apply hop_before_reachable|].
  vm_compute. reflexivity.
Qed.

Lemma neighborhood_consistency_witness :
  (∀ key : Z, bucket_for_hash hop_example (hash_of (P := hop_params) key) =
     Z.to_nat (hash_of (P := hop_params) key mod Z.of_nat (bucket_count hop_example))) ∧
  (∀ i bucket_i b, m_buckets hop_example !! i = Some bucket_i →
     (Z.testbit (get_neighborhood_infos bucket_i) (Z.of_nat b) = true ↔
      ∃ bucket_j key_value,
        m_buckets hop_example !! (i + b) = Some bucket_j ∧ is_empty bucket_j = false ∧
        m_key_value bucket_j = Some key_value ∧
        bucket_for_hash hop_example (hash_of key_value.1) = i)) ∧
  (∀ j bucket_j, m_buckets hop_example !! j = Some bucket_j → is_empty bucket_j = false →
     ∃ key_value, m_key_value bucket_j = Some key_value ∧
       bucket_for_hash hop_example (hash_of key_value.1) ≤ j ∧
       j < bucket_for_hash hop_example (hash_of key_value.1) + 4).
Proof.
  apply (neighborhood_consistency (P := hop_params)).
  - simpl. lia.
  - compute. lia.
  - apply hop_example_reachable.
Defined.

Lemma lookup_correctness_witness :
  find hop_example 16%Z = Ok (find_spec hop_example 16%Z).
Proof.
  apply (lookup_correctness (P := hop_params)).
  - simpl. lia.
  - compute. lia.
  - apply hop_example_reachable.
Defined.

Lemma erase_by_key_witness :
  (matching hop_example 16%Z = [] → erase hop_example 16%Z = Ok (hop_example, 0)) ∧
  (matching hop_example 16%Z ≠ [] →
   ∃ kv m', matching hop_example 16%Z = [kv] ∧ erase hop_example 16%Z = Ok (m', 1) ∧
     elements hop_example ≡ₚ kv :: elements m' ∧
     S (m_nb_elements m') = m_nb_elements hop_example ∧
     matching m' 16%Z = [] ∧ find m' 16%Z = Ok (end_ m')).
Proof.
  apply (erase_by_key (P := hop_params)).
  - simpl. lia.
  - compute. lia.
  - apply int_key_equal_sym.
  - apply int_key_equal_trans.
  - apply (int_hash_key_equal identity_hash).
  - apply hop_example_reachable.
Defined.

Lemma at_raises_iff_absent_witness :
  (at_ hop_example 16%Z = Fail out_of_range ↔ matching hop_example 16%Z = []) ∧
  (matching hop_example 16%Z ≠ [] →
   ∃ kv, matching hop_example 16%Z = [kv] ∧ at_ hop_example 16%Z = Ok kv.2).
Proof.
  apply (at_raises_iff_absent (P := hop_params)).
  - simpl. lia.
  - compute. lia.
  - apply int_key_equal_sym.
  - apply int_key_equal_trans.
  - apply (int_hash_key_equal identity_hash).
  - apply hop_example_reachable.
Defined.

Lemma clear_frame_witness :
  m_nb_elements (clear hop_example) = 0 ∧
  m_overflow_elements (clear hop_example) = [] ∧
  elements (clear hop_example) = [] ∧
  (∀ j b, m_buckets (clear hop_example) !! j = Some b →
     m_neighborhood_infos b = 0%Z ∧ m_key_value b = None ∧ is_empty b = true ∧
     has_overflow b = false ∧ get_neighborhood_infos b = 0%Z) ∧
  length (m_buckets (clear hop_example)) = length (m_buckets hop_example) ∧
  bucket_count (clear hop_example) = bucket_count hop_example ∧
  (∀ key : Z, bucket_for_hash (clear hop_example) (hash_of (P := hop_params) key) =
              bucket_for_hash hop_example (hash_of (P := hop_params) key)).
Proof.
  apply (clear_frame (P := hop_params)).
  - simpl. lia.
  - compute. lia.
  - apply hop_example_reachable.
Defined.

(** ** The overflow list for a constant hash *)

Lemma zero_62_reachable : reachable zero_62.
Proof.
  apply (reachable_insert_range (P := zero_params) 10
           (pairs_of (map Z.of_nat (seq 0 62))) (hopscotch_map_ctor 16));
    [apply reachable_ctor|].
  vm_compute. reflexivity.
Qed.

Lemma zero_62_keys (kv : Z * Z) :
  kv ∈ elements zero_62 → (0 ≤ kv.1 < 62)%Z.
Proof.
  intros Hin%list_elem_of_In.
  assert (forallb (λ kv : Z * Z, (0 <=? kv.1)%Z && (kv.1 <? 62)%Z) (elements zero_62) = true)
    as Hall by (vm_compute; reflexivity).
  rewrite forallb_forall in Hall. specialize (Hall kv Hin).
  apply andb_true_iff in Hall as [?%Z.leb_le ?%Z.ltb_lt]. lia.
Qed.

(** C4.  When the loop of [insert_internal] ends without a bucket for the
    new pair (no empty bucket in the neighborhood of its home bucket, and
    [swap_empty_bucket_closer] returned false),
    [will_neighborhood_change_on_rehash] returns, and it returns true
    exactly when a bucket of the neighborhood of the home bucket holds a
    pair whose home bucket differs for [get_expand_size()] buckets; when it
    returns false, the pair is appended to [m_overflow_elements], the
    overflow flag of the home bucket is set, [m_nb_elements] grows by one
    and the insertion returns the position of the pair in the overflow list
    with [true].  With the hash that is constantly 0 and
    [NeighborhoodSize = 62], the keys 0 to 61 inserted into a new map are
    all in the buckets, the neighborhood bitmap of bucket 0 is [2^62 - 1],
    the overflow list is empty and the overflow flag of bucket 0 is clear;
    the insertion of any other key appends it to the overflow list and
    sets the overflow flag of bucket 0. *)
Theorem overflow_fallback :
  (∀ (P : hopscotch_params) (fuel : nat) (m : hopscotch_map) (kv : value_type)
     (m1 : hopscotch_map),
     0 < NeighborhoodSize → NeighborhoodSize ≤ MAX_NEIGHBORHOOD_SIZE →
     reachable m →
     m_nb_elements m + 1 ≤ m_load_threshold m →
     find_empty_bucket m (home m kv.1) < length (m_buckets m) →
     insert_do_while (S (find_empty_bucket m (home m kv.1))) m kv
       (find_empty_bucket m (home m kv.1)) (home m kv.1) = Ok (m1, None) →
     ∃ change, will_neighborhood_change_on_rehash m1 (home m kv.1) = Ok change ∧
       (change = true ↔
        ∃ j kv', home m kv.1 ≤ j ∧ j < home m kv.1 + NeighborhoodSize ∧
          occupant (m_buckets m1) j = Some kv' ∧
          bucket_for_hash m1 (hash_of kv'.1) ≠
            bucket_for_hash_nb (hash_of kv'.1) (get_expand_size m1)) ∧
       (change = false →
        ∃ m', insert_internal (S fuel) m kv (home m kv.1) =
                Ok (m', ({| m_buckets_iterator := length (m_buckets m');
                            m_buckets_end_iterator := length (m_buckets m');
                            m_overflow_iterator := length (m_overflow_elements m) |},
                         true)) ∧
          m_overflow_elements m' = m_overflow_elements m ++ [kv] ∧
          m_nb_elements m' = m_nb_elements m + 1 ∧
          (∃ b, m_buckets m' !! home m kv.1 = Some b ∧ has_overflow b = true) ∧
          bucket_elements (m_buckets m') ≡ₚ bucket_elements (m_buckets m))) ∧
  (insert_range (P := zero_params) 10 (hopscotch_map_ctor 16)
     (pairs_of (map Z.of_nat (seq 0 62))) = Ok zero_62 ∧
   size zero_62 = 62 ∧ m_overflow_elements zero_62 = [] ∧
   length (bucket_elements (m_buckets zero_62)) = 62 ∧
   (∀ j, j < 62 → ∃ kv, occupant (m_buckets zero_62) j = Some kv ∧ home zero_62 kv.1 = 0) ∧
   (∃ b, m_buckets zero_62 !! 0 = Some b ∧
      get_neighborhood_infos b = (2 ^ 62 - 1)%Z ∧ has_overflow b = false) ∧
   ∀ k v : Z, (k < 0 ∨ 62 ≤ k)%Z →
     ∃ m', insert 10 zero_62 (k, v) =
             Ok (m', ({| m_buckets_iterator := length (m_buckets m');
                         m_buckets_end_iterator := length (m_buckets m');
                         m_overflow_iterator := 0 |}, true)) ∧
       m_overflow_elements m' = [(k, v)] ∧ size m' = 63 ∧
       (∃ b, m_buckets m' !! 0 = Some b ∧ has_overflow b = true) ∧
       bucket_elements (m_buckets m') ≡ₚ bucket_elements (m_buckets zero_62)).
Proof.
  split.
  - intros P fuel m kv m1 Hpos Hmax Hm. apply insert_internal_decision; [done..|].
    by apply reachable_inv.
  - split; [vm_compute; reflexivity|].
    split; [vm_compute; reflexivity|].
    split; [vm_compute; reflexivity|].
    split; [vm_compute; reflexivity|].
    split; [|split].
    + intros j Hj. do 62 (destruct j as [|j]; [vm_compute; eauto|]). lia.
    + eexists. split; [reflexivity|]. vm_compute. done.
    + intros k v Hk.
      assert (0 < NeighborhoodSize (hopscotch_params := zero_params)) as Hpos
        by (simpl; lia).
      assert (NeighborhoodSize (hopscotch_params := zero_params) ≤ MAX_NEIGHBORHOOD_SIZE)
        as Hmax by (compute; lia).
      pose proof (reachable_inv Hpos Hmax _ zero_62_reachable) as Hinv.
      rewrite insert_unfold.
      destruct (find_semantics Hpos Hmax int_key_equal_sym (int_hash_key_equal zero_hash)
                  zero_62 k Hinv) as [[_ Hfind]|(kv & it & Hin & Heq & _)].
      2:{ apply zero_62_keys in Hin. simpl in Heq. apply Z.eqb_eq in Heq. lia. }
      cbn [fst]. rewrite Hfind, bind_Ok_l, iterator_eqb_refl. cbn [negb].
      destruct (insert_internal_decision Hpos Hmax 9 zero_62 (k, v) zero_62 Hinv)
        as (change & Hchange & _ & Hfalse).
      { vm_compute. lia. }
      { vm_compute. lia. }
      { vm_compute. reflexivity. }
      assert (change = false) as -> by (vm_compute in Hchange; congruence).
      destruct (Hfalse eq_refl) as (m' & Hins & Hov & Hn & (b & Hb & Hflag) & Hperm).
      exists m'. split_and!.
      * exact Hins.
      * exact Hov.
      * unfold size. rewrite Hn. reflexivity.
      * by exists b.
      * exact Hperm.
Qed.

Lemma overflow_fallback_witness :
  ∃ change,
    will_neighborhood_change_on_rehash zero_62 (home zero_62 (62, 620)%Z.1) = Ok change ∧
    (change = true ↔
     ∃ j kv', home zero_62 (62, 620)%Z.1 ≤ j ∧
       j < home zero_62 (62, 620)%Z.1 + NeighborhoodSize (hopscotch_params := zero_params) ∧
       occupant (m_buckets zero_62) j = Some kv' ∧
       bucket_for_hash zero_62 (hash_of kv'.1) ≠
         bucket_for_hash_nb (hash_of kv'.1) (get_expand_size zero_62)) ∧
    (change = false →
     ∃ m', insert_internal 10 zero_62 (62, 620)%Z (home zero_62 (62, 620)%Z.1) =
             Ok (m', ({| m_buckets_iterator := length (m_buckets m');
                         m_buckets_end_iterator := length (m_buckets m');
                         m_overflow_iterator := length (m_overflow_elements zero_62) |},
                      true)) ∧
       m_overflow_elements m' = m_overflow_elements zero_62 ++ [(62, 620)%Z] ∧
       m_nb_elements m' = m_nb_elements zero_62 + 1 ∧
       (∃ b, m_buckets m' !! home zero_62 (62, 620)%Z.1 = Some b ∧ has_overflow b = true) ∧
       bucket_elements (m_buckets m') ≡ₚ bucket_elements (m_buckets zero_62)).
Proof.
  apply (proj1 overflow_fallback zero_params 9 zero_62 (62, 620)%Z zero_62).
  - simpl. lia.
  - compute. lia.
  - apply zero_62_reachable.
  - vm_compute. lia.
  - vm_compute. lia.
  - vm_compute. reflexivity.
Defined.

(** ** The displacement of an entry *)

Lemma small_before_reachable : reachable small_before.
Proof.
  apply (reachable_insert_range (P := hop_params) 10 (pairs_of [0; 1; 2; 3]%Z)
           (set_max_load_factor (2 # 1) (hopscotch_map_ctor 4))).
  - eapply reachable_step; [apply reachable_ctor|]. by apply step_max_load_factor.
  - vm_compute. reflexivity.
Qed.

(** The insertion of the keys 0 to 4 with [NeighborhoodSize = 4] and the
    identity hash into a new map of 16 buckets does not displace an entry:
    the empty bucket found for the key 4 is its home bucket,
    [swap_empty_bucket_closer] is not called, the entry of bucket 1 stays
    there and bucket 4 receives the key 4.  A new map of 4 buckets has
    grown to 8 buckets before the key 4 is stored, with the same result. *)
Lemma hop_closer_scenario_counterexample :
  (insert_range (P := hop_params) 10 (hopscotch_map_ctor 16)
     (pairs_of [0; 1; 2; 3]%Z) = Ok hop_before ∧
   home hop_before 4%Z = 4 ∧ find_empty_bucket hop_before 4 = 4 ∧
   insert_do_while (S 4) hop_before (4, 40)%Z 4 4 =
     Ok (hop_fifth_4, Some {| m_buckets_iterator := 4; m_buckets_end_iterator := 19;
                              m_overflow_iterator := 0 |}) ∧
   insert_range (P := hop_params) 10 (hopscotch_map_ctor 16)
     (pairs_of [0; 1; 2; 3; 4]%Z) = Ok hop_fifth_4 ∧
   occupant (m_buckets hop_fifth_4) 1 = Some (1, 10)%Z ∧
   occupant (m_buckets hop_fifth_4) 4 = Some (4, 40)%Z ∧
   occupant (m_buckets hop_fifth_4) 4 ≠ occupant (m_buckets hop_before) 1 ∧
   ∃ b, m_buckets hop_fifth_4 !! 1 = Some b ∧
     Z.testbit (get_neighborhood_infos b) 0 = true ∧
     Z.testbit (get_neighborhood_infos b) 3 = false) ∧
  (insert_range (P := hop_params) 10 (hopscotch_map_ctor 4)
     (pairs_of [0; 1; 2; 3; 4]%Z) = Ok small_grown ∧
   bucket_count small_grown = 8 ∧
   occupant (m_buckets small_grown) 1 = Some (1, 10)%Z ∧
   occupant (m_buckets small_grown) 4 = Some (4, 40)%Z ∧
   ∃ b, m_buckets small_grown !! 1 = Some b ∧
     Z.testbit (get_neighborhood_infos b) 0 = true ∧
     Z.testbit (get_neighborhood_infos b) 3 = false).
Proof.
  split.
  - split; [vm_compute; reflexivity|].
    split; [vm_compute; reflexivity|].
    split; [vm_compute; reflexivity|].
    split; [vm_compute; reflexivity|].
    split; [vm_compute; reflexivity|].
    split; [vm_compute; reflexivity|].
    split; [vm_compute; reflexivity|].
    split; [vm_compute; discriminate|].
    eexists. split; [reflexivity|]. vm_compute. done.
  - split; [vm_compute; reflexivity|].
    split; [vm_compute; reflexivity|].
    split; [vm_compute; reflexivity|].
    split; [vm_compute; reflexivity|].
    eexists. split; [reflexivity|]. vm_compute. done.
Qed.

(** C5, amended.  [swap_empty_bucket_closer] returns for every bucket [e]
    of the array with [NeighborhoodSize ≤ e]; when it returns true it has
    taken the lowest bucket [c] of [e - NeighborhoodSize + 1], ..., [e - 1]
    that has a set neighborhood bit for a bucket below [e], and the lowest
    such bit of [c], and has moved the entry of that bucket into [e]; when
    it returns false there is no such bit and the map is unchanged.  With
    [NeighborhoodSize = 4], the identity hash, 4 buckets and
    [max_load_factor(2.0f)], after the keys 0, 1, 2, 3 the insertion of the
    key 4, whose home bucket is 0, finds the empty bucket 4 and displaces
    an entry: the entry of bucket 1 moves to bucket 4, the neighborhood
    bitmap of bucket 1 changes from bit 0 to bit 3, the one of bucket 0 is
    unchanged by the displacement, and the key 4 is then stored in bucket
    1.  In a new map of 16 buckets the same happens when the fifth key is
    16. *)
Theorem hop_closer_displacement :
  (∀ (P : hopscotch_params) (m : hopscotch_map) (e : nat),
     0 < NeighborhoodSize → NeighborhoodSize ≤ MAX_NEIGHBORHOOD_SIZE →
     NeighborhoodSize ≤ e → e < length (m_buckets m) →
     ∃ m' e' swapped, swap_empty_bucket_closer m e = Ok (m', e', swapped) ∧
       if swapped : bool then
         ∃ c, hop_candidate (m_buckets m) (e - NeighborhoodSize + 1) e c e' ∧
              swap_into_empty m c e' e = Ok m'
       else m' = m ∧ e' = e ∧
            no_hop_candidate (m_buckets m) (e - NeighborhoodSize + 1) e) ∧
  (reachable small_before ∧
   insert_range (P := hop_params) 10
     (set_max_load_factor (2 # 1) (hopscotch_map_ctor 4))
     (pairs_of [0; 1; 2; 3]%Z) = Ok small_before ∧
   bucket_count small_before = 4 ∧
   home small_before 4%Z = 0 ∧ find_empty_bucket small_before 0 = 4 ∧
   swap_empty_bucket_closer small_before 4 = Ok (small_swapped, 1, true) ∧
   hop_candidate (m_buckets small_before) 1 4 1 1 ∧
   occupant (m_buckets small_before) 1 = Some (1, 10)%Z ∧
   occupant (m_buckets small_before) 4 = None ∧
   occupant (m_buckets small_swapped) 1 = None ∧
   occupant (m_buckets small_swapped) 4 = Some (1, 10)%Z ∧
   (∃ b b', m_buckets small_before !! 1 = Some b ∧ m_buckets small_swapped !! 1 = Some b' ∧
      get_neighborhood_infos b = 1%Z ∧ get_neighborhood_infos b' = 8%Z) ∧
   (∃ b b', m_buckets small_before !! 0 = Some b ∧ m_buckets small_swapped !! 0 = Some b' ∧
      get_neighborhood_infos b' = get_neighborhood_infos b) ∧
   insert 10 small_before (4, 40)%Z =
     Ok (small_example, ({| m_buckets_iterator := 1; m_buckets_end_iterator := 7;
                            m_overflow_iterator := 0 |}, true)) ∧
   occupant (m_buckets small_example) 1 = Some (4, 40)%Z ∧
   occupant (m_buckets small_example) 4 = Some (1, 10)%Z) ∧
  (insert_range (P := hop_params) 10 (hopscotch_map_ctor 16)
     (pairs_of [0; 1; 2; 3]%Z) = Ok hop_before ∧
   home hop_before 16%Z = 0 ∧ find_empty_bucket hop_before 0 = 4 ∧
   swap_empty_bucket_closer hop_before 4 = Ok (hop_swapped, 1, true) ∧
   occupant (m_buckets hop_before) 1 = Some (1, 10)%Z ∧
   occupant (m_buckets hop_swapped) 1 = None ∧
   occupant (m_buckets hop_swapped) 4 = Some (1, 10)%Z ∧
   (∃ b b', m_buckets hop_before !! 1 = Some b ∧ m_buckets hop_swapped !! 1 = Some b' ∧
      get_neighborhood_infos b = 1%Z ∧ get_neighborhood_infos b' = 8%Z) ∧
   (∃ b b', m_buckets hop_before !! 0 = Some b ∧ m_buckets hop_swapped !! 0 = Some b' ∧
      get_neighborhood_infos b' = get_neighborhood_infos b) ∧
   insert 10 hop_before (16, 160)%Z =
     Ok (hop_example, ({| m_buckets_iterator := 1; m_buckets_end_iterator := 19;
                          m_overflow_iterator := 0 |}, true)) ∧
   occupant (m_buckets hop_example) 1 = Some (16, 160)%Z ∧
   occupant (m_buckets hop_example) 4 = Some (1, 10)%Z).
Proof.
  split; [|split].
  - intros P m e Hpos Hmax HN He.
    destruct (swap_empty_bucket_closer_total Hpos Hmax m e HN He) as [[[m' e'] swapped] Hr].
    exists m', e', swapped. split; [done|].
    by apply swap_empty_bucket_closer_choice.
  - assert (swap_empty_bucket_closer small_before 4 = Ok (small_swapped, 1, true)) as Hswap
      by (vm_compute; reflexivity).
    split; [apply small_before_reachable|].
    split; [vm_compute; reflexivity|].
    split; [vm_compute; reflexivity|].
    split; [vm_compute; reflexivity|].
    split; [vm_compute; reflexivity|].
    split; [exact Hswap|].
    split.
    { assert (0 < NeighborhoodSize (hopscotch_params := hop_params)) as Hpos
        by (simpl; lia).
      assert (NeighborhoodSize (hopscotch_params := hop_params) ≤ MAX_NEIGHBORHOOD_SIZE)
        as Hmax by (compute; lia).
      destruct (swap_empty_bucket_closer_choice Hpos Hmax small_before 4 small_swapped 1 true)
        as (c & Hcand & _); [simpl; lia|exact Hswap|].
      assert (c = 1) as -> by (destruct Hcand as (? & ? & _); simpl in *; lia).
      exact Hcand. }
    split; [vm_compute; reflexivity|].
    split; [vm_compute; reflexivity|].
    split; [vm_compute; reflexivity|].
    split; [vm_compute; reflexivity|].
    split; [do 2 eexists; split; [reflexivity|]; split; [reflexivity|]; vm_compute; done|].
    split; [do 2 eexists; split; [reflexivity|]; split; [reflexivity|]; vm_compute; done|].
    split; [vm_compute; reflexivity|].
    split; vm_compute; reflexivity.
  - split; [vm_compute; reflexivity|].
    split; [vm_compute; reflexivity|].
    split; [vm_compute; reflexivity|].
    split; [vm_compute; reflexivity|].
    split; [vm_compute; reflexivity|].
    split; [vm_compute; reflexivity|].
    split; [vm_compute; reflexivity|].
    split; [do 2 eexists; split; [reflexivity|]; split; [reflexivity|]; vm_compute; done|].
    split; [do 2 eexists; split; [reflexivity|]; split; [reflexivity|]; vm_compute; done|].
    split; [vm_compute; reflexivity|].
    split; vm_compute; reflexivity.
Qed.

Lemma hop_closer_displacement_witness :
  ∃ m' e' swapped, swap_empty_bucket_closer small_before 4 = Ok (m', e', swapped) ∧
    if swapped : bool then
      ∃ c, hop_candidate (m_buckets small_before)
             (4 - NeighborhoodSize (hopscotch_params := hop_params) + 1) 4 c e' ∧
           swap_into_empty small_before c e' 4 = Ok m'
    else m' = small_before ∧ e' = 4 ∧
         no_hop_candidate (m_buckets small_before)
           (4 - NeighborhoodSize (hopscotch_params := hop_params) + 1) 4.
Proof.
  apply (proj1 hop_closer_displacement hop_params small_before 4).
  - simpl. lia.
  - compute. lia.
  - simpl. lia.
  - simpl. lia.
Defined.

(** ** [rehash_internal] for a nothrow-movable pair

    The overload moves the pairs of the buckets into the temporary map
    with [insert_internal] and then swaps the old overflow list into it.
    A pair that [insert_internal] has put into the overflow list of the
    temporary map is dropped by that swap. *)

Lemma nothrow_before_reachable : reachable nothrow_before.
Proof.
  apply (reachable_insert_range (P := nothrow_params) 10 (pairs_of [0; 16; 1; 9]%Z)
           (hopscotch_map_ctor 16)); [apply reachable_ctor|].
  vm_compute. reflexivity.
Qed.

Lemma nothrow_rehashed_reachable : reachable nothrow_rehashed.
Proof.
  eapply reachable_step; [apply nothrow_before_reachable|].
  apply (step_rehash 10 nothrow_before 0). vm_compute. reflexivity.
Qed.

Lemma nothrow_later_reachable : reachable nothrow_later.
Proof.
  apply (reachable_insert_range (P := nothrow_params) 10 (pairs_of [2; 3; 4]%Z)
           nothrow_rehashed); [apply nothrow_rehashed_reachable|].
  vm_compute. reflexivity.
Qed.

(** C7.  [rehash(0)] on the map of 16 buckets with [NeighborhoodSize = 1]
    that holds the keys 0, 1, 9 in buckets and the key 16 in the overflow
    list: the temporary map of 8 buckets has the key 9 in its overflow list
    after the first loop, the swap of the overflow lists drops it, and the
    map afterwards has 3 pairs, no key 9 and [size() = 4].  The other
    overload of [rehash_internal] keeps the four pairs. *)
Theorem rehash_nothrow_drops_pair :
  reachable nothrow_before ∧
  elements nothrow_before = [(0, 0); (1, 10); (9, 90); (16, 160)]%Z ∧
  size nothrow_before = 4 ∧
  find nothrow_before 9%Z =
    Ok {| m_buckets_iterator := 9; m_buckets_end_iterator := 16;
          m_overflow_iterator := 0 |} ∧
  rehash_buckets (P := nothrow_params) (insert_internal 10)
    (hopscotch_map_new 8 (m_max_load_factor nothrow_before))
    (m_buckets nothrow_before) = Ok nothrow_tmp_map ∧
  m_overflow_elements nothrow_tmp_map = [(9, 90)%Z] ∧
  rehash 10 nothrow_before 0 = Ok nothrow_rehashed ∧
  bucket_count nothrow_rehashed = 8 ∧
  elements nothrow_rehashed = [(0, 0); (1, 10); (16, 160)]%Z ∧
  size nothrow_rehashed = 4 ∧
  find nothrow_rehashed 9%Z = Ok (end_ nothrow_rehashed) ∧
  at_ nothrow_rehashed 9%Z = Fail out_of_range ∧
  rehash 10 fallible_before 0 = Ok fallible_rehashed ∧
  elements fallible_before = [(0, 0); (1, 10); (9, 90); (16, 160)]%Z ∧
  elements fallible_rehashed = [(0, 0); (1, 10); (9, 90); (16, 160)]%Z ∧
  size fallible_rehashed = 4.
Proof.
  split; [apply nothrow_before_reachable|].
  repeat (split; [vm_compute; reflexivity|]).
  vm_compute; reflexivity.
Qed.

(** C6.  After that [rehash(0)] the overflow flag of bucket 1 is set, and
    the overflow list holds the key 16 only, whose home bucket is 0.  With
    the other overload the key 9, whose home bucket is 1, is in the
    overflow list. *)
Theorem rehash_nothrow_stale_overflow_flag :
  reachable nothrow_rehashed ∧
  (∃ b, m_buckets nothrow_rehashed !! 1 = Some b ∧ has_overflow b = true) ∧
  m_overflow_elements nothrow_rehashed = [(16, 160)%Z] ∧
  home nothrow_rehashed 16%Z = 0 ∧
  (∀ kv, kv ∈ m_overflow_elements nothrow_rehashed → home nothrow_rehashed kv.1 ≠ 1) ∧
  (∃ b, m_buckets fallible_rehashed !! 1 = Some b ∧ has_overflow b = true) ∧
  m_overflow_elements fallible_rehashed = [(9, 90); (16, 160)]%Z ∧
  home fallible_rehashed 9%Z = 1.
Proof.
  split; [apply nothrow_rehashed_reachable|].
  split; [eexists; split; [reflexivity|]; vm_compute; reflexivity|].
  split; [vm_compute; reflexivity|].
  split; [vm_compute; reflexivity|].
  split; [intros kv ->%list_elem_of_singleton; vm_compute; lia|].
  split; [eexists; split; [reflexivity|]; vm_compute; reflexivity|].
  split; vm_compute; reflexivity.
Qed.

(** C3.  After that [rehash(0)] and the insertion of the keys 2, 3 and 4,
    [size()] is 7 for 6 pairs.  The key 5 is absent; its insertion returns
    [true] and a position, and [size()] is 7 afterwards: the rehash at the
    start of [insert_internal] has counted the pairs again. *)
Theorem insert_absent_size_unchanged :
  reachable nothrow_later ∧
  elements nothrow_later = [(0, 0); (1, 10); (2, 20); (3, 30); (4, 40); (16, 160)]%Z ∧
  size nothrow_later = 7 ∧
  matching nothrow_later 5%Z = [] ∧
  find nothrow_later 5%Z = Ok (end_ nothrow_later) ∧
  insert 10 nothrow_later (5, 50)%Z =
    Ok (nothrow_final, ({| m_buckets_iterator := 5; m_buckets_end_iterator := 16;
                           m_overflow_iterator := 0 |}, true)) ∧
  elements nothrow_final =
    [(0, 0); (1, 10); (2, 20); (3, 30); (4, 40); (5, 50); (16, 160)]%Z ∧
  size nothrow_final = 7.
Proof.
  split; [apply nothrow_later_reachable|].
  repeat (split; [vm_compute; reflexivity|]).
  vm_compute; reflexivity.
Qed.

(** ** Instances of the further properties *)

Lemma int_key_equal_refl (k : Z) : (k =? k)%Z = true.
Proof. apply Z.eqb_refl. Qed.

Lemma fallible_before_reachable : reachable fallible_before.
Proof.
  apply (reachable_insert_range (P := fallible_params) 10 (pairs_of [0; 16; 1; 9]%Z)
           (hopscotch_map_ctor 16)); [apply reachable_ctor|].
  vm_compute. reflexivity.
Qed.

Lemma round_up_to_power_of_two_least_witness :
  ∃ r, r ≤ 63 ∧ round_up_to_power_of_two 10 = 2 ^ r ∧ 10 ≤ 2 ^ r ∧
       ∀ p, 10 ≤ 2 ^ p → 2 ^ r ≤ 2 ^ p.
Proof.
  apply round_up_to_power_of_two_least.
  apply (Nat.le_trans _ (2 ^ 4)); [simpl; lia|].
  apply Nat.pow_le_mono_r; lia.
Defined.

Lemma is_power_of_two_spec_witness :
  is_power_of_two 16 = true ↔ ∃ q, q < 64 ∧ 16%Z = (2 ^ Z.of_nat q)%Z.
Proof.
  apply is_power_of_two_spec. lia.
Defined.


Lemma count_matching_witness :
  cnt hop_example 16%Z = Ok (length (matching hop_example 16%Z)) ∧
  length (matching hop_example 16%Z) ≤ 1.
Proof.
  apply (count_matching (P := hop_params)).
  - simpl. lia.
  - compute. lia.
  - apply int_key_equal_sym.
  - apply int_key_equal_trans.
  - apply (int_hash_key_equal identity_hash).
  - apply hop_example_reachable.
Defined.

Lemma insert_present_witness :
  ∃ it, insert 10 hop_example (16, 7)%Z = Ok (hop_example, (it, false)) ∧
        try_emplace 10 hop_example 16%Z 7%Z = Ok (hop_example, (it, false)) ∧
        find hop_example 16%Z = Ok it ∧
        deref hop_example it = Ok (16, 160)%Z ∧
        at_ hop_example 16%Z = Ok 160%Z.
Proof.
  apply (insert_present (P := hop_params)) with (kv := (16, 160)%Z).
  - simpl. lia.
  - compute. lia.
  - apply int_key_equal_sym.
  - apply int_key_equal_trans.
  - apply (int_hash_key_equal identity_hash).
  - apply hop_example_reachable.
  - apply (list_elem_of_lookup_2 _ 1). reflexivity.
  - reflexivity.
Defined.

Lemma insert_position_witness :
  ∃ kv : Z * Z,
    deref hop_fifth_4 {| m_buckets_iterator := 4; m_buckets_end_iterator := 19;
                         m_overflow_iterator := 0 |} = Ok kv ∧
    (4 =? kv.1)%Z = true ∧
    matching hop_fifth_4 4%Z = [kv] ∧
    at_ hop_fifth_4 4%Z = Ok kv.2 ∧
    cnt hop_fifth_4 4%Z = Ok 1 ∧
    (kv = (4, 40)%Z ∧ matching hop_before 4%Z = []) ∧
    elements hop_fifth_4 ⊆+ (4, 40)%Z :: elements hop_before ∧
    length (m_buckets hop_before) ≤ length (m_buckets hop_fifth_4) ∧
    max_load_factor hop_fifth_4 = max_load_factor hop_before.
Proof.
  apply (insert_position (P := hop_params)) with (fuel := 10) (inserted := true).
  - simpl. lia.
  - compute. lia.
  - apply int_key_equal_sym.
  - apply int_key_equal_trans.
  - apply (int_hash_key_equal identity_hash).
  - apply int_key_equal_refl.
  - apply hop_before_reachable.
  - vm_compute. reflexivity.
Defined.

Lemma subscript_position_witness :
  (∀ kv : Z * Z, kv ∈ elements hop_example → (16 =? kv.1)%Z = true →
     ∃ it, subscript 10 hop_example 16%Z = Ok (hop_example, it) ∧
           deref hop_example it = Ok kv) ∧
  (∀ m' it, subscript 10 hop_example 16%Z = Ok (m', it) →
     ∃ kv : Z * Z, deref m' it = Ok kv ∧ (16 =? kv.1)%Z = true ∧
       at_ m' 16%Z = Ok kv.2 ∧
       (matching hop_example 16%Z = [] → kv = (16, 0)%Z) ∧
       (matching hop_example 16%Z ≠ [] →
        m' = hop_example ∧ matching hop_example 16%Z = [kv])).
Proof.
  apply (subscript_position (P := hop_params)).
  - simpl. lia.
  - compute. lia.
  - apply int_key_equal_sym.
  - apply int_key_equal_trans.
  - apply (int_hash_key_equal identity_hash).
  - apply int_key_equal_refl.
  - apply hop_example_reachable.
Defined.

Lemma keys_unique_witness :
  elements hop_example !! 1 = Some (16, 160)%Z ∧
  1 = 1 ∧ (16, 160)%Z = (16, 160)%Z.
Proof.
  split; [reflexivity|].
  apply (keys_unique (P := hop_params)) with (m := hop_example).
  - simpl. lia.
  - compute. lia.
  - apply int_key_equal_sym.
  - apply (int_hash_key_equal identity_hash).
  - apply hop_example_reachable.
  - reflexivity.
  - reflexivity.
  - reflexivity.
Defined.

Lemma reachable_state_witness :
  (∃ p, bucket_count nothrow_before = 2 ^ p) ∧
  is_power_of_two (Z.of_nat (bucket_count nothrow_before)) = true ∧
  length (m_buckets nothrow_before) = bucket_count nothrow_before + 1 - 1 ∧
  m_load_threshold nothrow_before =
    to_size_type (inject_Z (Z.of_nat (bucket_count nothrow_before)) *
                  max_load_factor nothrow_before) ∧
  (∀ kv : Z * Z, kv ∈ m_overflow_elements nothrow_before →
     ∃ b, m_buckets nothrow_before !!
            bucket_for_hash nothrow_before (hash_of (P := nothrow_params) kv.1) = Some b ∧
          has_overflow b = true) ∧
  length (elements nothrow_before) ≤ size nothrow_before.
Proof.
  apply (reachable_state (P := nothrow_params)).
  - simpl. lia.
  - compute. lia.
  - apply nothrow_before_reachable.
Defined.


Lemma clear_as_new_witness :
  clear hop_example =
  hopscotch_map_new (bucket_count hop_example) (max_load_factor hop_example).
Proof.
  apply (clear_as_new (P := hop_params)).
  - simpl. lia.
  - compute. lia.
  - apply hop_example_reachable.
Defined.

Lemma erase_frame_witness :
  (∀ k' : Z, (16 =? k')%Z = false →
     at_ hop_erased k' = at_ hop_example k' ∧ cnt hop_erased k' = cnt hop_example k') ∧
  bucket_count hop_erased = bucket_count hop_example ∧
  max_load_factor hop_erased = max_load_factor hop_example ∧
  at_ hop_erased 16%Z = Fail out_of_range ∧
  cnt hop_erased 16%Z = Ok 0 ∧
  erase hop_erased 16%Z = Ok (hop_erased, 0).
Proof.
  apply (erase_frame (P := hop_params)) with (n := 1).
  - simpl. lia.
  - compute. lia.
  - apply int_key_equal_sym.
  - apply int_key_equal_trans.
  - apply (int_hash_key_equal identity_hash).
  - apply hop_example_reachable.
  - vm_compute. reflexivity.
Defined.

Lemma iteration_visits_elements_witness :
  range_for 10 hop_example (begin_ hop_example) = Ok (elements hop_example) ∧
  (empty hop_example = true → begin_ hop_example = end_ hop_example).
Proof.
  apply (iteration_visits_elements (P := hop_params)).
  - simpl. lia.
  - compute. lia.
  - apply hop_example_reachable.
  - vm_compute. lia.
Defined.

Lemma erase_position_witness :
  ∃ m' next rest,
    erase_iterator hop_example
      {| m_buckets_iterator := 0; m_buckets_end_iterator := 19;
         m_overflow_iterator := 0 |} = Ok (m', next) ∧
    elements hop_example ≡ₚ (0, 0)%Z :: elements m' ∧
    S (size m') = size hop_example ∧
    at_ m' 0%Z = Fail out_of_range ∧
    (∀ k' : Z, (0 =? k')%Z = false → at_ m' k' = at_ hop_example k') ∧
    (∀ fuel, S (length rest) < fuel →
       range_for fuel hop_example
         {| m_buckets_iterator := 0; m_buckets_end_iterator := 19;
            m_overflow_iterator := 0 |} = Ok ((0, 0)%Z :: rest)) ∧
    (∀ fuel, length rest < fuel → range_for fuel m' next = Ok rest).
Proof.
  apply (erase_position (P := hop_params)).
  - simpl. lia.
  - compute. lia.
  - apply int_key_equal_sym.
  - apply int_key_equal_trans.
  - apply (int_hash_key_equal identity_hash).
  - apply hop_example_reachable.
  - reflexivity.
  - intros _. reflexivity.
  - reflexivity.
Defined.

Lemma find_empty_bucket_first_witness :
  find_empty_bucket hop_example 0 ≤ length (m_buckets hop_example) ∧
  (find_empty_bucket hop_example 0 < length (m_buckets hop_example) →
   0 ≤ find_empty_bucket hop_example 0 ∧
   find_empty_bucket hop_example 0 < 0 + MAX_LINEAR_PROBE_SEARCH_EMPTY_BUCKET ∧
   (∃ b, m_buckets hop_example !! find_empty_bucket hop_example 0 = Some b ∧
         is_empty b = true) ∧
   ∀ j b, 0 ≤ j → j < find_empty_bucket hop_example 0 →
          m_buckets hop_example !! j = Some b → is_empty b = false) ∧
  (find_empty_bucket hop_example 0 = length (m_buckets hop_example) →
   ∀ j b, 0 ≤ j → j < 0 + MAX_LINEAR_PROBE_SEARCH_EMPTY_BUCKET →
          m_buckets hop_example !! j = Some b → is_empty b = false).
Proof.
  apply (find_empty_bucket_first (P := hop_params)).
  - simpl. lia.
  - compute. lia.
Defined.

Lemma swap_empty_bucket_closer_keeps_witness :
  ∃ m' e' swapped,
    swap_empty_bucket_closer hop_before 4 = Ok (m', e', swapped) ∧
    buckets_inv (m_buckets m') ∧
    overflow_flagged m' ∧
    elements m' ≡ₚ elements hop_before ∧
    m_overflow_elements m' = m_overflow_elements hop_before ∧
    size m' = size hop_before ∧
    bucket_count m' = bucket_count hop_before ∧
    (∀ k : Z, at_ m' k = at_ hop_before k) ∧
    if swapped : bool
    then 4 - 4 + 1 ≤ e' ∧ e' < 4 ∧ occupant (m_buckets m') e' = None ∧
         is_Some (occupant (m_buckets m') 4)
    else m' = hop_before ∧ e' = 4.
Proof.
  apply (swap_empty_bucket_closer_keeps (P := hop_params))
    with (b := {| m_neighborhood_infos := 0; m_key_value := None |}).
  - simpl. lia.
  - compute. lia.
  - apply int_key_equal_sym.
  - apply int_key_equal_trans.
  - apply (int_hash_key_equal identity_hash).
  - apply hop_before_reachable.
  - simpl. lia.
  - reflexivity.
  - reflexivity.
Defined.

Lemma bucket_metadata_witness :
  check_neighbor_presence 1 (toggle_neighbor_presence 1 hop_bucket_0) =
    negb (check_neighbor_presence 1 hop_bucket_0) ∧
  (∀ i', i' ≠ 1 →
     check_neighbor_presence i' (toggle_neighbor_presence 1 hop_bucket_0) =
     check_neighbor_presence i' hop_bucket_0) ∧
  is_empty (toggle_neighbor_presence 1 hop_bucket_0) = is_empty hop_bucket_0 ∧
  has_overflow (toggle_neighbor_presence 1 hop_bucket_0) = has_overflow hop_bucket_0 ∧
  toggle_neighbor_presence 1 (toggle_neighbor_presence 1 hop_bucket_0) = hop_bucket_0 ∧
  (∀ o, has_overflow (set_overflow o hop_bucket_0) = o ∧
        is_empty (set_overflow o hop_bucket_0) = is_empty hop_bucket_0 ∧
        get_neighborhood_infos (set_overflow o hop_bucket_0) =
          get_neighborhood_infos hop_bucket_0) ∧
  Z.testbit (get_neighborhood_infos hop_bucket_0) (Z.of_nat 1) =
    check_neighbor_presence 1 hop_bucket_0 ∧
  (is_empty hop_bucket_0 = false ↔ is_Some (m_key_value hop_bucket_0)).
Proof.
  apply (bucket_metadata (P := hop_params)) with (m := hop_example) (j := 0).
  - simpl. lia.
  - compute. lia.
  - apply hop_example_reachable.
  - reflexivity.
  - simpl. lia.
Defined.

Lemma insert_in_neighborhood_witness :
  ∃ m', insert 10 hop_before (4, 40)%Z =
          Ok (m', ({| m_buckets_iterator := find_empty_bucket hop_before (home hop_before 4%Z);
                      m_buckets_end_iterator := length (m_buckets hop_before);
                      m_overflow_iterator := 0 |}, true)) ∧
        (∀ j, occupant (m_buckets m') j =
              if decide (find_empty_bucket hop_before (home hop_before 4%Z) = j)
              then Some (4, 40)%Z else occupant (m_buckets hop_before) j) ∧
        m_overflow_elements m' = m_overflow_elements hop_before ∧
        size m' = size hop_before + 1 ∧
        bucket_count m' = bucket_count hop_before ∧
        deref m' {| m_buckets_iterator := find_empty_bucket hop_before (home hop_before 4%Z);
                    m_buckets_end_iterator := length (m_buckets hop_before);
                    m_overflow_iterator := 0 |} = Ok (4, 40)%Z.
Proof.
  apply (insert_in_neighborhood (P := hop_params)).
  - simpl. lia.
  - compute. lia.
  - apply int_key_equal_sym.
  - apply (int_hash_key_equal identity_hash).
  - apply hop_before_reachable.
  - reflexivity.
  - vm_compute. lia.
  - vm_compute. lia.
Defined.

Lemma small_three_reachable : reachable small_three.
Proof.
  apply (reachable_insert_range (P := hop_params) 10 (pairs_of [0; 1; 2]%Z)
           (hopscotch_map_ctor 4)); [apply reachable_ctor|].
  vm_compute. reflexivity.
Qed.

Lemma insert_beyond_threshold_witness :
  2 * bucket_count small_three ≤ bucket_count small_four ∧
  ∃ p, bucket_count small_four = 2 ^ p.
Proof.
  apply (insert_beyond_threshold (P := hop_params))
    with (fuel := 10) (k := 3%Z) (v := 30%Z)
         (it := {| m_buckets_iterator := 3; m_buckets_end_iterator := 11;
                   m_overflow_iterator := 0 |}) (inserted := true).
  - simpl. lia.
  - compute. lia.
  - apply int_key_equal_sym.
  - apply (int_hash_key_equal identity_hash).
  - apply small_three_reachable.
  - reflexivity.
  - vm_compute. lia.
  - vm_compute. reflexivity.
Defined.

Lemma size_and_flags_exact_witness :
  size fallible_before = length (elements fallible_before) ∧
  (empty fallible_before = true ↔ elements fallible_before = []) ∧
  ∀ i b, m_buckets fallible_before !! i = Some b →
    (has_overflow b = true ↔
     ∃ kv : Z * Z, kv ∈ m_overflow_elements fallible_before ∧
       bucket_for_hash fallible_before (hash_of (P := fallible_params) kv.1) = i).
Proof.
  apply (size_and_flags_exact (P := fallible_params)).
  - simpl. lia.
  - compute. lia.
  - apply (int_hash_key_equal identity_hash).
  - reflexivity.
  - apply fallible_before_reachable.
Defined.

Lemma insert_absent_adds_witness :
  true = true ∧
  deref fallible_inserted {| m_buckets_iterator := 2; m_buckets_end_iterator := 16;
                             m_overflow_iterator := 0 |} = Ok (2, 20)%Z ∧
  elements fallible_inserted ≡ₚ (2, 20)%Z :: elements fallible_before ∧
  size fallible_inserted = S (size fallible_before) ∧
  at_ fallible_inserted 2%Z = Ok 20%Z ∧
  ∀ k' : Z, (2 =? k')%Z = false →
    at_ fallible_inserted k' = at_ fallible_before k' ∧
    cnt fallible_inserted k' = cnt fallible_before k'.
Proof.
  apply (insert_absent_adds (P := fallible_params)) with (fuel := 10).
  - simpl. lia.
  - compute. lia.
  - apply int_key_equal_sym.
  - apply int_key_equal_trans.
  - apply (int_hash_key_equal identity_hash).
  - apply int_key_equal_refl.
  - reflexivity.
  - apply fallible_before_reachable.
  - reflexivity.
  - vm_compute. reflexivity.
Defined.

Lemma rehash_keeps_pairs_witness :
  elements fallible_rehashed ≡ₚ elements fallible_before ∧
  size fallible_rehashed = size fallible_before ∧
  ∀ k : Z, at_ fallible_rehashed k = at_ fallible_before k ∧
           cnt fallible_rehashed k = cnt fallible_before k.
Proof.
  apply (rehash_keeps_pairs (P := fallible_params)) with (fuel := 10) (count0 := 0).
  - simpl. lia.
  - compute. lia.
  - apply int_key_equal_sym.
  - apply int_key_equal_trans.
  - apply (int_hash_key_equal identity_hash).
  - reflexivity.
  - apply fallible_before_reachable.
  - left. vm_compute. reflexivity.
Defined.

Lemma insert_erase_round_trip_witness :
  ∃ m2, erase fallible_inserted 2%Z = Ok (m2, 1) ∧
        elements m2 ≡ₚ elements fallible_before ∧
        size m2 = size fallible_before ∧
        ∀ k' : Z, at_ m2 k' = at_ fallible_before k'.
Proof.
  apply (insert_erase_round_trip (P := fallible_params))
    with (fuel := 10) (v := 20%Z)
         (it := {| m_buckets_iterator := 2; m_buckets_end_iterator := 16;
                   m_overflow_iterator := 0 |}) (inserted := true).
  - simpl. lia.
  - compute. lia.
  - apply int_key_equal_sym.
  - apply int_key_equal_trans.
  - apply (int_hash_key_equal identity_hash).
  - apply int_key_equal_refl.
  - reflexivity.
  - apply fallible_before_reachable.
  - reflexivity.
  - vm_compute. reflexivity.
Defined.

Lemma insert_range_adds_witness :
  elements fallible_before ⊆+ elements fallible_inserted ∧
  (∀ k v : Z, at_ fallible_before k = Ok v → at_ fallible_inserted k = Ok v) ∧
  (∀ kv : Z * Z, kv ∈ pairs_of [2]%Z → cnt fallible_inserted kv.1 = Ok 1) ∧
  (∀ (kv : Z * Z) l', pairs_of [2]%Z = kv :: l' →
     matching fallible_before kv.1 = [] → at_ fallible_inserted kv.1 = Ok kv.2).
Proof.
  apply (insert_range_adds (P := fallible_params)) with (fuel := 10).
  - simpl. lia.
  - compute. lia.
  - apply int_key_equal_sym.
  - apply int_key_equal_trans.
  - apply (int_hash_key_equal identity_hash).
  - apply int_key_equal_refl.
  - reflexivity.
  - apply fallible_before_reachable.
  - vm_compute. reflexivity.
Defined.
